(** * VariousDBSCAN: progressive multi-density clustering over a cluster tree

    A shallow embedding of [variousDBSCAN.py].  The class keeps a tree of
    [anytree.Node] objects; every node carries a [name], a list
    [clustered_points] of indices into the distance matrix and a reference to
    its [parent].  The nodes are mutated in place through those references,
    so the tree is modelled as a store of node objects addressed by their
    allocation order: address [0] is the root [self.progressive_clustering],
    a node created by [Node(..., parent=p)] is appended to the store and is
    the last child of [p].

    The density clustering itself ([sklearn.cluster.DBSCAN]) is external: it
    is a parameter [dbscan] of the development, as are the type [F] of the
    floating-point values (distances and radii) and the function [half]
    standing for [x / 2] on them.

    A method is a function from the state of the instance to an outcome: it
    returns, raises a Python exception, or, for the [while True] loop of
    [fit], runs out of the fuel it was given.  The file has five parts: the
    embedding of the source, the vocabulary in which the properties are
    stated, the lemmas, the claims followed by further properties of the
    code, and runs on concrete inputs. *)

From Stdlib Require Import ZArith QArith Qcanon DecimalString DecimalN.
From stdpp Require Import base option list numbers strings sorting.

Local Open Scope Z_scope.
Local Open Scope nat_scope.

(** ** Python values the code depends on *)

(** The exceptions that the modelled code can raise. [AssertionError] is the
    failed [assert] of [__init__]; [ValueError] is [max()] of an empty
    sequence; [IndexError] is an index out of range; [UpstreamFailure] stands
    for any other exception raised inside the primitive. *)
Inductive exn := AssertionError | ValueError | IndexError | UpstreamFailure.

(** The iteration order of a Python [set] is an implementation detail of the
    interpreter.  The code turns sets back into lists twice
    ([for k in local_idx] and [list(set(a).difference(b))]); the model takes
    both enumerations as parameters and knows only that they list every
    member once. *)
Class SetOrder := {
  (** [list(set(l))]: the members of [l], each once, in the set's order *)
  set_list : list nat → list nat;
  (** [list(set(a).difference(b))] *)
  set_difference : list nat → list nat → list nat;
  set_list_NoDup : ∀ l, NoDup (set_list l);
  elem_of_set_list : ∀ l x, x ∈ set_list l ↔ x ∈ l;
  set_difference_NoDup : ∀ a b, NoDup (set_difference a b);
  elem_of_set_difference : ∀ a b x, x ∈ set_difference a b ↔ x ∈ a ∧ x ∉ b;
}.

(** One admissible order: first occurrence in the list the set was built
    from. *)
#[export] Program Instance first_occurrence_order : SetOrder := {|
  set_list l := remove_dups l;
  set_difference a b := remove_dups (list_difference a b);
|}.
Next Obligation. intros. apply NoDup_remove_dups. Qed.
Next Obligation. intros. apply elem_of_remove_dups. Qed.
Next Obligation. intros. apply NoDup_remove_dups. Qed.
Next Obligation.
  intros. rewrite elem_of_remove_dups. apply list_elem_of_difference.
Qed.

(** [range(n)] for an integer [n]: empty when [n <= 0]. *)
Definition range (n : Z) : list Z := Z.of_nat <$> seq 0 (Z.to_nat n).

(** [str(i)] for a non-negative integer. *)
Definition str (i : Z) : string := NilEmpty.string_of_uint (N.to_uint (Z.to_N i)).

(** [max(xs)], the builtin: raises [ValueError] on an empty sequence. *)
Definition py_max (xs : list Z) : exn + Z :=
  match xs with
  | [] => inl ValueError
  | x :: xs' => inr (foldl Z.max x xs')
  end.

(** [xs[k]] on a list, for a non-negative [k]. *)
Definition getitem {A} (xs : list A) (k : nat) : exn + A :=
  match xs !! k with
  | Some x => inr x
  | None => inl IndexError
  end.

(** [[f(x) for x in xs]] where [f] may raise: stops at the first exception. *)
Fixpoint comprehension {A B} (f : A → exn + B) (xs : list A) : exn + list B :=
  match xs with
  | [] => inr []
  | x :: xs' =>
      match f x with
      | inl e => inl e
      | inr y =>
          match comprehension f xs' with
          | inl e => inl e
          | inr ys => inr (y :: ys)
          end
      end
  end.

(** [np.where(labels == i)[0]]: the positions holding label [i], ascending. *)
Definition where_eq (labels : list Z) (i : Z) : list nat :=
  filter (λ k, labels !! k = Some i) (seq 0 (length labels)).

(** [sorted(xs, key=key)]: Python's sort is stable, so elements with equal
    keys keep their order in [xs]. *)
Fixpoint insert_by (key : nat → Z) (x : nat) (l : list nat) : list nat :=
  match l with
  | [] => [x]
  | y :: l' =>
      if (key x <=? key y)%Z then x :: y :: l' else y :: insert_by key x l'
  end.

Definition sorted (key : nat → Z) (xs : list nat) : list nat :=
  foldr (insert_by key) [] xs.

(** ** The cluster tree *)

(** An [anytree.Node] with the keyword attribute [clustered_points]. *)
Record Node := mkNode {
  name : string;
  clustered_points : list nat;
  parent : option nat;
}.

#[export] Instance Node_inhabited : Inhabited Node := populate (mkNode "" [] None).

Definition set_clustered_points (pts : list nat) (n : Node) : Node :=
  mkNode (name n) pts (parent n).

Section tree.
Implicit Types (t : list Node) (i j : nat).

(** [node.parent] *)
Definition parent_of t i : option nat := t !! i ≫= parent.

(** [node.children]: the nodes attached to [i], in the order of attachment. *)
Definition children_of t i : list nat :=
  filter (λ j, parent_of t j = Some i) (seq 0 (length t)).

(** [node.ancestors] (spelled [anchestors] in the source, an alias that
    anytree keeps): the path from the root down to the parent. *)
Fixpoint ancestors_upto (fuel : nat) t i : list nat :=
  match fuel with
  | 0 => []
  | S fuel' =>
      match parent_of t i with
      | Some p => ancestors_upto fuel' t p ++ [p]
      | None => []
      end
  end.

Definition ancestors t i : list nat := ancestors_upto (length t) t i.

(** [node.depth]: the number of edges up to the root. *)
Definition depth t i : nat := length (ancestors t i).

(** [node.descendants]: every node below [i], in pre-order. *)
Fixpoint preorder (fuel : nat) t i : list nat :=
  match fuel with
  | 0 => []
  | S fuel' => children_of t i ≫= λ c, c :: preorder fuel' t c
  end.

Definition descendants t i : list nat := preorder (length t) t i.
End tree.

(** ** The class [VariousDBSCAN] *)

(** The value given for [max_depth]: [np.inf] (the default) or an integer. *)
Inductive bound := Inf | Fin (k : Z).

(** [depth >= max_depth] *)
Definition reaches (depth : nat) (max_depth : bound) : bool :=
  match max_depth with
  | Inf => false
  | Fin k => (k <=? Z.of_nat depth)%Z
  end.

Section VariousDBSCAN.
Context `{SetOrder} {F : Type}.
(** [x / 2] on floating-point values, for the default update function. *)
Context (half : F → F).
(** [DBSCAN(metric='precomputed', eps=eps, min_samples=m).fit(d).labels_]:
    one label per row of [d], [-1] for noise; or the exception it raises. *)
Context (dbscan : list (list F) → F → Z → exn + list Z).

(** What a caller may pass for [min_points]; any other object behaves as
    [PyNone] does. *)
Inductive pyval :=
| PyInt (z : Z)
| PyBool (b : bool)
| PyFloat (x : F)
| PyStr (s : string)
| PyNone.

(** [isinstance(v, int)]; [bool] is a subclass of [int]. *)
Definition isinstance_int (v : pyval) : bool :=
  match v with
  | PyInt _ | PyBool _ => true
  | _ => false
  end.

(** The integer an [int] instance stands for ([True] is [1]). *)
Definition int_value (v : pyval) : Z :=
  match v with
  | PyInt z => z
  | PyBool b => if b then 1%Z else 0%Z
  | _ => 0%Z
  end.

(** The attributes of an instance. *)
Record VariousDBSCAN := mkVariousDBSCAN {
  distance_matrix : list (list F);
  epsilon : F;
  min_points : Z;
  n_points : nat;
  progressive_clustering : list Node;
  clusters : option (list (list nat));
  update_epsilon_func : F → F;
  dbscan_performed : nat;
}.

Definition set_progressive_clustering (t : list Node) (s : VariousDBSCAN) :=
  mkVariousDBSCAN (distance_matrix s) (epsilon s) (min_points s) (n_points s)
    t (clusters s) (update_epsilon_func s) (dbscan_performed s).

Definition set_clusters (c : option (list (list nat))) (s : VariousDBSCAN) :=
  mkVariousDBSCAN (distance_matrix s) (epsilon s) (min_points s) (n_points s)
    (progressive_clustering s) c (update_epsilon_func s) (dbscan_performed s).

Definition set_dbscan_performed (n : nat) (s : VariousDBSCAN) :=
  mkVariousDBSCAN (distance_matrix s) (epsilon s) (min_points s) (n_points s)
    (progressive_clustering s) (clusters s) (update_epsilon_func s) n.

(** [VariousDBSCAN(distance_matrix, original_epsilon, min_points,
    update_epsilon_func)], with assertions enabled.  The defaults of the
    signature ([0.5], [5] and [None]) are for the caller to pass; [None]
    selects [lambda x: x / 2]. *)
Definition __init__ (distance_matrix : list (list F)) (original_epsilon : F)
    (min_points : pyval) (update_epsilon_func : option (F → F))
  : exn + VariousDBSCAN :=
  if isinstance_int min_points && (0 <? int_value min_points)%Z then
    inr {| distance_matrix := distance_matrix;
           epsilon := original_epsilon;
           min_points := int_value min_points;
           n_points := length distance_matrix;
           progressive_clustering := [mkNode "" [] None];
           clusters := None;
           update_epsilon_func :=
             match update_epsilon_func with
             | None => half
             | Some f => f
             end;
           dbscan_performed := 0 |}
  else inl AssertionError.

(** *** Running a method

    A method runs on the instance and either returns, raises, or (for the
    [while True] loop of [fit], which need not terminate) exhausts the
    fuel it was given.  Next to the instance the state carries the list of
    the calls made to the primitive so far, most recent first: this record
    is not part of the program, it is what the claims about the arguments
    of the primitive are stated on. *)
Record call := mkCall {
  call_points : list nat;
  call_eps : F;
  call_parent : nat;
}.

Record state := mkState {
  self : VariousDBSCAN;
  calls : list call;
}.

Inductive outcome (A : Type) :=
| Return (a : A) (σ : state)
| Raise (e : exn) (σ : state)
| OutOfFuel.
Arguments Return {A} a σ.
Arguments Raise {A} e σ.
Arguments OutOfFuel {A}.

Definition M (A : Type) : Type := state → outcome A.

#[local] Instance M_ret : MRet M := λ A a σ, Return a σ.
#[local] Instance M_bind : MBind M := λ A B f m σ,
  match m σ with
  | Return a σ' => f a σ'
  | Raise e σ' => Raise e σ'
  | OutOfFuel => OutOfFuel
  end.

Definition get_self : M VariousDBSCAN := λ σ, Return (self σ) σ.
Definition update_self (f : VariousDBSCAN → VariousDBSCAN) : M unit :=
  λ σ, Return () (mkState (f (self σ)) (calls σ)).
Definition record_call (c : call) : M unit :=
  λ σ, Return () (mkState (self σ) (c :: calls σ)).
Definition lift {A} (r : exn + A) : M A :=
  λ σ, match r with inl e => Raise e σ | inr a => Return a σ end.

(** [for x in xs: body(x)] *)
Fixpoint for_each {A} (xs : list A) (body : A → M unit) : M unit :=
  match xs with
  | [] => mret ()
  | x :: xs' => body x;; for_each xs' body
  end.

(** [distance_matrix[points_idx][:, points_idx]] *)
Definition submatrix (d : list (list F)) (points_idx : list nat)
  : exn + list (list F) :=
  match comprehension (getitem d) points_idx with
  | inl e => inl e
  | inr rows => comprehension (λ row, comprehension (getitem row) points_idx) rows
  end.

(** [Node(name, clustered_points=pts, parent=parent_node)] *)
Definition new_node (name : string) (pts : list nat) (parent_node : nat) : M unit :=
  update_self (λ s,
    set_progressive_clustering
      (progressive_clustering s ++ [mkNode name pts (Some parent_node)]) s).

(** The call is recorded when the primitive is entered; the counter is
    incremented when it has returned. *)
Definition run_dbscan_on_node (points_idx : list nat) (new_eps : F)
    (parent_node : nat) : M unit :=
  s ← get_self;
  d ← lift (submatrix (distance_matrix s) points_idx);
  record_call (mkCall points_idx new_eps parent_node);;
  labels_ ← lift (dbscan d new_eps (min_points s));
  update_self (λ s, set_dbscan_performed (dbscan_performed s + 1) s);;
  top ← lift (py_max labels_);
  for_each (range (top + 1)) (λ cluster_i,
    let local_idx := set_list (where_eq labels_ cluster_i) in
    original_idx ← lift (comprehension (getitem points_idx) local_idx);
    new_node (str cluster_i) original_idx parent_node).

(** The loop of [remove_child_cluster_points_from_parents], over the nodes
    in a given order. *)
Definition remove_in_order (nodes : list nat) : M unit :=
  for_each nodes (λ child_node,
    s ← get_self;
    let parent_nodes := ancestors (progressive_clustering s) child_node in
    for_each parent_nodes (λ parent_node,
      (* [if parent_node is not None] always holds *)
      update_self (λ s,
        let t := progressive_clustering s in
        set_progressive_clustering
          (alter (λ p,
             set_clustered_points
               (set_difference (clustered_points p)
                  (clustered_points (t !!! child_node))) p)
             parent_node t) s))).

(** A node reference read through [!!!] is never dangling: the nodes come
    from [descendants] and [ancestors]. *)
Definition remove_child_cluster_points_from_parents : M unit :=
  s ← get_self;
  let t := progressive_clustering s in
  let nodes := sorted (λ x, - Z.of_nat (depth t x))%Z (descendants t 0) in
  remove_in_order nodes.

(** The [while True] loop of [fit], entered with the current values of
    [depth] and [new_eps]. *)
Fixpoint fit_loop (fuel : nat) (max_depth : bound) (depth_ : nat) (new_eps : F)
  : M unit :=
  match fuel with
  | 0 => λ _, OutOfFuel
  | S fuel' =>
      if reaches depth_ max_depth then mret ()
      else
        s ← get_self;
        let t := progressive_clustering s in
        let next_nodes := filter (λ node, depth t node = depth_) (descendants t 0) in
        if decide (length next_nodes = 0) then mret ()
        else
          let depth_ := depth_ + 1 in
          let new_eps := update_epsilon_func s new_eps in
          for_each next_nodes (λ bottom_node,
            s ← get_self;
            run_dbscan_on_node
              (clustered_points (progressive_clustering s !!! bottom_node))
              new_eps bottom_node);;
          fit_loop fuel' max_depth depth_ new_eps
  end.

(** The nodes whose points [fit] returns, in the order of the result. *)
Definition selected (s : VariousDBSCAN) : list nat :=
  let t := progressive_clustering s in
  filter (λ node,
      (min_points s <=? Z.of_nat (length (clustered_points (t !!! node))))%Z)
    (sorted (λ x, - (Z.of_nat (depth t x) + 1))%Z (descendants t 0)).

(** [fit(max_depth)]; [fuel] bounds the number of rounds of the loop. *)
Definition fit (fuel : nat) (max_depth : bound) : M (list (list nat)) :=
  s ← get_self;
  let new_eps := epsilon s in
  run_dbscan_on_node (seq 0 (n_points s)) new_eps 0;;
  fit_loop fuel max_depth 1 new_eps;;
  remove_child_cluster_points_from_parents;;
  s ← get_self;
  let result :=
    (λ node, clustered_points (progressive_clustering s !!! node)) <$> selected s in
  update_self (set_clusters (Some result));;
  mret result.
End VariousDBSCAN.

Arguments Return {F A} a σ.
Arguments Raise {F A} e σ.
Arguments OutOfFuel {F A}.
#[export] Existing Instances M_ret M_bind.

(** * The vocabulary of the properties *)

(** ** Trees *)

Section tree_properties.
Implicit Types (t : list Node) (i j p a b k : nat).

(** The store holds a tree rooted at address [0]: a parent is allocated
    before its children, and every node but the root has one. *)
Record wf t : Prop := {
  wf_parent_lt : ∀ j p, parent_of t j = Some p → p < j;
  wf_parent_some : ∀ j, 0 < j < length t → is_Some (parent_of t j);
}.

(** [node.clustered_points] *)
Definition points (t : list Node) (j : nat) : list nat := clustered_points (t !!! j).

(** Two stores hold the same tree: they differ at most in the points of the
    nodes. *)
Record same_shape (t t' : list Node) : Prop := {
  shape_length : length t = length t';
  shape_parent : ∀ j, parent_of t j = parent_of t' j;
  shape_name : ∀ j, name <$> t !! j = name <$> t' !! j;
}.

(** The invariant of the tree while [fit] grows it. *)
Record tree_inv (t : list Node) : Prop := {
  inv_wf : wf t;
  inv_root : 0 < length t;
  inv_NoDup : ∀ j, NoDup (points t j);
  inv_nest : ∀ j p, parent_of t j = Some p → p ≠ 0 → points t j ⊆ points t p;
  inv_siblings : ∀ j1 j2 p, j1 ≠ j2 →
    parent_of t j1 = Some p → parent_of t j2 = Some p → points t j1 ## points t j2;
}.

(** Two trees that differ at most in the order in which the nodes list
    their points. *)
Definition tree_equiv (t1 t2 : list Node) : Prop :=
  same_shape t1 t2 ∧ ∀ j, points t1 j ≡ₚ points t2 j.

End tree_properties.

(** ** Tree growth and overlap resolution as functions on trees *)

Section tree_functions.
Context `{!SetOrder}.
Implicit Types (t : list Node).

(** The points of the child created for label [i]. *)
Definition child_points (points_idx : list nat) (labels : list Z) (i : Z) : exn + list nat :=
  comprehension (getitem points_idx) (set_list (where_eq labels i)).

(** [children] are the nodes that the loop of [run_dbscan_on_node] creates
    for the labels [ids], in this order. *)
Definition grown (points_idx : list nat) (labels : list Z) (parent_node : nat)
    (ids : list Z) (children : list Node) : Prop :=
  Forall2 (λ i n, ∃ l, child_points points_idx labels i = inr l
                       ∧ n = mkNode (str i) l (Some parent_node)) ids children.

(** One assignment of the inner loop of
    [remove_child_cluster_points_from_parents]. *)
Definition subtract (child_node parent_node : nat) t : list Node :=
  alter (λ n,
    set_clustered_points
      (set_difference (clustered_points n) (points t child_node)) n)
    parent_node t.

(** The inner loop, for one node. *)
Definition resolve_node (child_node : nat) t : list Node :=
  foldl (λ t parent_node, subtract child_node parent_node t) t (ancestors t child_node).

(** The pass over [nodes]. *)
Definition resolve (nodes : list nat) t : list Node :=
  foldl (λ t child_node, resolve_node child_node t) t nodes.

(** The order in which the pass visits the nodes: deepest first. *)
Definition deepest_first t : list nat :=
  sorted (λ x, - Z.of_nat (depth t x))%Z (descendants t 0).

End tree_functions.

(** ** Runs *)

Section runs.
Context `{!SetOrder} {F : Type}.
Context (dbscan : list (list F) → F → Z → exn + list Z).
Implicit Types (σ : @state F) (t : list Node) (c : @call F) (s : @VariousDBSCAN F).

Local Abbreviation tree σ := (progressive_clustering (self σ)).

(** The state in which a method is first run on an instance: no call to the
    primitive has been made. *)
Definition start s : state := mkState s [].

(** The state in which a run ended, if it ended. *)
Definition final_state {A} (o : @outcome F A) : option state :=
  match o with
  | Return _ σ | Raise _ σ => Some σ
  | OutOfFuel => None
  end.

(** [wp m σ Qr Qe]: if [m] ends from [σ], it returns in a state satisfying
    [Qr] or raises in a state satisfying [Qe]. *)
Definition wp {A} (m : @M F A) (σ : state)
    (Qr : A → @state F → Prop) (Qe : exn → @state F → Prop) : Prop :=
  match m σ with
  | Return a σ' => Qr a σ'
  | Raise e σ' => Qe e σ'
  | OutOfFuel => True
  end.

(** [m] ends from [σ]: the fuel suffices. *)
Definition terminates {A} (m : @M F A) (σ : state) : Prop := m σ ≠ OutOfFuel.

(** A positive integer in Python's sense: an instance of [int] (which
    [True], being [1], is) greater than zero. *)
Inductive positive_integer : @pyval F → Prop :=
| positive_int z : (0 < z)%Z → positive_integer (PyInt z)
| positive_True : positive_integer (PyBool true).

(** The first part of [fit]: the calls that build the tree. *)
Definition grow (fuel : nat) (max_depth : bound) : M unit :=
  s ← get_self;
  let new_eps := epsilon s in
  run_dbscan_on_node dbscan (seq 0 (n_points s)) new_eps 0;;
  fit_loop dbscan fuel max_depth 1 new_eps.

(** The state after [children] were attached, [n] invocations counted and
    the calls [cs] made (most recent first). *)
Definition grow_state (children : list Node) (n : nat) (cs : list call) σ : state :=
  mkState
    (set_dbscan_performed (dbscan_performed (self σ) + n)
       (set_progressive_clustering
          (progressive_clustering (self σ) ++ children) (self σ)))
    (cs ++ calls σ).

(** What the calls of a run did to the state it started from: nodes were
    appended, the counter grew with the calls. *)
Definition grew (exact : bool) σ σ' : Prop :=
  ∃ children n cs,
    σ' = grow_state children n cs σ
    ∧ if exact then n = length cs else n ≤ length cs.

(** A new instance: the tree is the root alone. *)
Definition fresh σ : Prop := tree σ = [mkNode "" [] None].

(** A call made on a node above depth [d], with the radius of its depth. *)
Definition call_ok σ0 t (d : nat) c : Prop :=
  call_parent c < length t
  ∧ depth t (call_parent c) < d
  ∧ call_eps c =
      Nat.iter (depth t (call_parent c))
        (update_epsilon_func (self σ0)) (epsilon (self σ0)).

(** The deepest level [d'] that the loop entered at depth [d] may reach. *)
Definition bounded (max_depth : bound) (d d' : nat) : Prop :=
  d ≤ d' ∧ ∀ k, max_depth = Fin k → d' ≤ Nat.max d (Z.to_nat k).

(** The states that growing the tree of a new instance [σ0] reaches while no
    node is deeper than [d]. *)
Definition grown_to σ0 (d : nat) σ : Prop :=
  ∃ children n cs,
    σ = grow_state children n cs σ0
    ∧ n ≤ length cs
    ∧ tree_inv (tree σ)
    ∧ (∀ j, j < length (tree σ) → depth (tree σ) j ≤ d)
    ∧ Forall (call_ok σ0 (tree σ) d) cs.

(** The state that [fit] leaves and the list it returns, from the state in
    which the tree is complete. *)
Definition resolved σ : VariousDBSCAN :=
  set_progressive_clustering (resolve (deepest_first (tree σ)) (tree σ)) (self σ).

(** The list that [fit] returns. *)
Definition result σ : list (list nat) :=
  (λ node, points (progressive_clustering (resolved σ)) node) <$> selected (resolved σ).

(** The state in which [fit] returns. *)
Definition finish σ : state :=
  mkState (set_clusters (Some (result σ)) (resolved σ)) (calls σ).

End runs.

(** ** The vocabulary of the further properties *)

(** Every node lists indices of the matrix, none twice. *)
Definition valid_points (n : nat) (t : list Node) : Prop :=
  ∀ j, NoDup (points t j) ∧ ∀ x, x ∈ points t j → x < n.

Section further_vocabulary.
Context `{!SetOrder} {F : Type}.
Context (dbscan : list (list F) → F → Z → exn + list Z).
Implicit Types (σ : @state F) (t : list Node) (c : @call F) (s : @VariousDBSCAN F).

Local Abbreviation tree σ := (progressive_clustering (self σ)).

(** Where an exception of a run comes from: an index out of range, [max] of
    no label, or the primitive, in the call made last. *)
Definition raised_by s (cs : list (@call F)) (e : exn) : Prop :=
  e = IndexError ∨ e = ValueError
  ∨ ∃ c cs' d, cs = c :: cs'
      ∧ submatrix (distance_matrix s) (call_points c) = inr d
      ∧ dbscan d (call_eps c) (min_points s) = inl e.

(** What the call [c] has left in the tree [t] of the instance [s]: it was
    made on the points of its node (on all points, for the root), the
    primitive gave labels, and the children of the node are the nodes created
    for the integers up to the largest label. *)
Definition call_done s t c : Prop :=
  ∃ d labels top children,
    submatrix (distance_matrix s) (call_points c) = inr d
    ∧ dbscan d (call_eps c) (min_points s) = inr labels
    ∧ py_max labels = inr top
    ∧ grown (call_points c) labels (call_parent c) (range (top + 1)) children
    ∧ (λ j, t !!! j) <$> children_of t (call_parent c) = children
    ∧ call_points c =
        (if decide (call_parent c = 0) then seq 0 (n_points s)
         else points t (call_parent c)).

(** The calls made since [σ0], all returned and counted: one on each node
    above depth [d] and on each of the nodes [done]. *)
Definition visited σ0 (d : nat) (done : list nat) σ : Prop :=
  ∃ cs, calls σ = cs ++ calls σ0
    ∧ dbscan_performed (self σ) = dbscan_performed (self σ0) + length cs
    ∧ NoDup (call_parent <$> cs)
    ∧ (∀ j, j ∈ call_parent <$> cs ↔
         j < length (tree σ) ∧ (depth (tree σ) j < d ∨ j ∈ done))
    ∧ Forall (call_done (self σ0) (tree σ)) cs.

(** Where the loop of [fit] stops: at the bound, or below the deepest
    level of the tree. *)
Definition stops_at (max_depth : bound) (d : nat) σ : Prop :=
  reaches d max_depth = true
  ∨ ∀ j, j < length (tree σ) → depth (tree σ) j < d.

(** At radius [e] the primitive finds no cluster for the instance [s]. *)
Definition quiet_at s (e : F) : Prop :=
  ∀ d labels, dbscan d e (min_points s) = inr labels →
    Forall (λ l, (l < 0)%Z) labels.

(** A primitive that finds a cluster in every set of points: it gives one
    label per row, and every integer up to the largest label, which is not
    negative, is the label of a point. *)
Definition always_clusters : Prop :=
  ∀ d e m, d ≠ [] →
    ∃ labels top,
      dbscan d e m = inr labels ∧ length labels = length d
      ∧ py_max labels = inr top ∧ (0 ≤ top)%Z
      ∧ ∀ i, (0 ≤ i ≤ top)%Z → i ∈ labels.

(** A matrix with as many columns as rows. *)
Definition square (d : list (list F)) : Prop :=
  ∀ row, row ∈ d → length row = length d.

(** The trees of the runs with such a primitive: no node below the root is
    empty. *)
Definition all_occupied (n : nat) (t : list Node) : Prop :=
  wf t ∧ 0 < length t
  ∧ ∀ j, 0 < j < length t → points t j ≠ [] ∧ ∀ x, x ∈ points t j → x < n.

End further_vocabulary.

(** ** Concrete inputs

    Distances and radii are exact rationals here. *)

Definition of_Z (z : Z) : Qc := Q2Qc (inject_Z z).

(** The default update function on exact rationals. *)
Definition halve (x : Qc) : Qc := (x / of_Z 2)%Qc.

(** A small primitive: the points within the radius of the first point of
    the subset form cluster [0], the others cluster [1]. *)
Definition near_first (d : list (list Qc)) (eps : Qc) (min_samples : Z)
  : exn + list Z :=
  inr ((λ row : list Qc,
          match row with
          | x :: _ => if Qle_bool (this x) (this eps) then 0 else 1
          | [] => -1
          end)%Z <$> d).

(** A primitive whose labels skip [1]. *)
Definition gap_labels (d : list (list Qc)) (eps : Qc) (min_samples : Z)
  : exn + list Z :=
  inr [0; 2]%Z.

(** Five points in two groups, [{0, 1, 2}] and [{3, 4}]: distance [1] inside
    a group, [5] across. *)
Definition two_groups : list (list Qc) :=
  map (map of_Z)
    [[0;1;1;5;5];[1;0;1;5;5];[1;1;0;5;5];[5;5;5;0;1];[5;5;5;1;0]]%Z.

(** [VariousDBSCAN(two_groups, 8, 2)] *)
Definition two_groups_instance : VariousDBSCAN :=
  {| distance_matrix := two_groups;
     epsilon := of_Z 8;
     min_points := 2;
     n_points := 5;
     progressive_clustering := [mkNode "" [] None];
     clusters := None;
     update_epsilon_func := halve;
     dbscan_performed := 0 |}.

(** The tree of [two_groups_instance] after two levels, before overlap
    resolution. *)
Definition two_groups_tree : list Node :=
  [mkNode "" [] None; mkNode "0" [0; 1; 2; 3; 4] (Some 0);
   mkNode "0" [0; 1; 2] (Some 1); mkNode "1" [3; 4] (Some 1)].

(** A primitive that fails. *)
Definition failing (d : list (list Qc)) (eps : Qc) (min_samples : Z)
  : exn + list Z :=
  inl UpstreamFailure.

(** A primitive that finds no cluster. *)
Definition all_noise (d : list (list Qc)) (eps : Qc) (min_samples : Z)
  : exn + list Z :=
  inr ((λ _, -1)%Z <$> d).

(** A primitive that puts all the points in one cluster. *)
Definition one_cluster (d : list (list Qc)) (eps : Qc) (min_samples : Z)
  : exn + list Z :=
  inr ((λ _, 0)%Z <$> d).

(** A primitive for points that are at least [1] apart: the points within
    the radius of the first point of the subset form cluster [0] when there
    are [min_samples] of them and the radius is at least [1]; all the other
    points are noise. *)
Definition near_or_noise (d : list (list Qc)) (eps : Qc) (min_samples : Z)
  : exn + list Z :=
  let near :=
    (λ row : list Qc,
       match row with
       | x :: _ => Qle_bool (this x) (this eps)
       | [] => false
       end) <$> d in
  if Qle_bool 1 (this eps)
     && (min_samples <=? Z.of_nat (length (filter Is_true near)))%Z
  then inr ((λ b : bool, if b then 0 else -1)%Z <$> near)
  else inr ((λ _, -1)%Z <$> d).

(** * Properties of the model *)

(** ** The tree: parents, ancestors, depth and the pre-order *)

Section tree_facts.
Implicit Types (t : list Node) (i j p a b k : nat).

Lemma parent_of_lt_length t j p : parent_of t j = Some p → j < length t.
Proof.
  unfold parent_of. destruct (t !! j) eqn:E; [|done].
  intros _. by eapply lookup_lt_Some.
Qed.

Lemma ancestors_upto_fuel t fuel fuel' j :
  (∀ j p, parent_of t j = Some p → p < j) →
  j ≤ fuel → j ≤ fuel' → ancestors_upto fuel t j = ancestors_upto fuel' t j.
Proof.
  intros Hlt. revert fuel' j.
  induction fuel as [|fuel IH]; intros [|fuel'] j Hj Hj'; simpl; try done.
  - destruct (parent_of t j) as [p|] eqn:E; [|done]. apply Hlt in E. lia.
  - destruct (parent_of t j) as [p|] eqn:E; [|done]. apply Hlt in E. lia.
  - destruct (parent_of t j) as [p|] eqn:E; [|done].
    pose proof (Hlt _ _ E). f_equal. apply IH; lia.
Qed.

Lemma ancestors_unfold t j :
  wf t →
  ancestors t j =
    match parent_of t j with Some p => ancestors t p ++ [p] | None => [] end.
Proof.
  intros [Hlt _]. unfold ancestors.
  destruct (parent_of t j) as [p|] eqn:E.
  - pose proof (parent_of_lt_length _ _ _ E).
    transitivity (ancestors_upto (S (length t)) t j).
    + apply ancestors_upto_fuel; [done|lia..].
    + simpl. by rewrite E.
  - destruct (length t); simpl; [done|]. by rewrite E.
Qed.

Lemma depth_parent t j p :
  wf t → parent_of t j = Some p → depth t j = S (depth t p).
Proof.
  intros Hwf E. unfold depth. rewrite (ancestors_unfold t j Hwf), E.
  rewrite length_app. simpl. lia.
Qed.

Lemma depth_root t j : wf t → parent_of t j = None → depth t j = 0.
Proof.
  intros Hwf E. unfold depth. by rewrite (ancestors_unfold t j Hwf), E.
Qed.

Lemma ancestors_lookup_take t j k a :
  wf t → ancestors t j !! k = Some a → ancestors t a = take k (ancestors t j).
Proof.
  intros Hwf. revert k a. induction (lt_wf j) as [j _ IH]. intros k a.
  rewrite (ancestors_unfold t j Hwf).
  destruct (parent_of t j) as [p|] eqn:E; [|done].
  pose proof (wf_parent_lt _ Hwf _ _ E) as Hp.
  intros Hk. destruct (decide (k < length (ancestors t p))) as [Hlt|Hge].
  - rewrite lookup_app_l in Hk by done. rewrite take_app_le by lia.
    by apply IH.
  - rewrite lookup_app_r in Hk by lia.
    destruct (k - length (ancestors t p)) as [|?] eqn:Ek; [|done].
    simplify_eq/=. assert (k = length (ancestors t a)) as -> by lia.
    by rewrite take_app_length.
Qed.

Lemma ancestors_split t j a :
  wf t → a ∈ ancestors t j →
  ∃ rest, ancestors t j = ancestors t a ++ a :: rest.
Proof.
  intros Hwf [k Hk]%list_elem_of_lookup. exists (drop (S k) (ancestors t j)).
  rewrite (ancestors_lookup_take _ _ _ _ Hwf Hk).
  by rewrite take_drop_middle.
Qed.

Lemma depth_ancestor_lt t j a : wf t → a ∈ ancestors t j → depth t a < depth t j.
Proof.
  intros Hwf [rest E]%ancestors_split; [|done]. unfold depth. rewrite E.
  rewrite length_app. simpl. lia.
Qed.

Lemma ancestors_lt t j a : wf t → a ∈ ancestors t j → a < j.
Proof.
  intros Hwf. induction (lt_wf j) as [j _ IH].
  rewrite (ancestors_unfold t j Hwf).
  destruct (parent_of t j) as [p|] eqn:E; [|by intros ?%elem_of_nil].
  pose proof (wf_parent_lt _ Hwf _ _ E) as Hp.
  intros [Ha| ->%list_elem_of_singleton]%elem_of_app; [|done].
  specialize (IH p Hp Ha). lia.
Qed.

Lemma ancestors_irrefl t j : wf t → j ∉ ancestors t j.
Proof. intros Hwf Hj%ancestors_lt; [lia|done]. Qed.

Lemma ancestors_trans t j a b :
  wf t → a ∈ ancestors t j → b ∈ ancestors t a → b ∈ ancestors t j.
Proof.
  intros Hwf [rest E]%ancestors_split Hb; [|done]. rewrite E.
  apply elem_of_app. by left.
Qed.

Lemma parent_ancestor t j p : wf t → parent_of t j = Some p → p ∈ ancestors t j.
Proof.
  intros Hwf E. rewrite (ancestors_unfold t j Hwf), E.
  apply elem_of_app. right. by apply list_elem_of_singleton.
Qed.

Lemma ancestors_parent_inv t j a p :
  wf t → parent_of t j = Some p → a ∈ ancestors t j → a = p ∨ a ∈ ancestors t p.
Proof.
  intros Hwf E. rewrite (ancestors_unfold t j Hwf), E.
  intros [Ha| ->%list_elem_of_singleton]%elem_of_app; auto.
Qed.

Lemma ancestors_last_parent t j l p :
  wf t → ancestors t j = l ++ [p] → parent_of t j = Some p.
Proof.
  intros Hwf. rewrite (ancestors_unfold t j Hwf).
  destruct (parent_of t j) as [q|]; [|by destruct l].
  intros [_ ?]%app_inj_tail. by subst.
Qed.

Lemma ancestors_lt_length t j a : wf t → a ∈ ancestors t j → j < length t.
Proof.
  intros Hwf. rewrite (ancestors_unfold t j Hwf).
  destruct (parent_of t j) as [p|] eqn:E; [|by intros ?%elem_of_nil].
  intros _. by eapply parent_of_lt_length.
Qed.

Lemma root_ancestor t j : wf t → 0 < j < length t → 0 ∈ ancestors t j.
Proof.
  intros Hwf. induction (lt_wf j) as [j _ IH]. intros Hj.
  destruct (wf_parent_some _ Hwf j Hj) as [p E].
  pose proof (wf_parent_lt _ Hwf _ _ E) as Hp.
  destruct (decide (p = 0)) as [->|Hp0]; [by apply parent_ancestor|].
  eapply ancestors_trans; [done|by apply parent_ancestor|].
  apply IH; lia.
Qed.

Lemma depth_le t j : wf t → depth t j ≤ j.
Proof.
  intros Hwf. induction (lt_wf j) as [j _ IH].
  destruct (parent_of t j) as [p|] eqn:E.
  - rewrite (depth_parent _ _ _ Hwf E).
    pose proof (wf_parent_lt _ Hwf _ _ E) as Hp. specialize (IH p Hp). lia.
  - rewrite depth_root by done. lia.
Qed.

Lemma elem_of_children_of t i c : c ∈ children_of t i ↔ parent_of t c = Some i.
Proof.
  unfold children_of. rewrite list_elem_of_filter, elem_of_seq.
  split; [by intros [? _]|]. intros E. split; [done|].
  apply parent_of_lt_length in E. lia.
Qed.

(** An ancestor of a node has a child on the way down to it. *)
Lemma ancestor_child t i p :
  wf t → p ∈ ancestors t i →
  ∃ c, parent_of t c = Some p ∧ (c = i ∨ c ∈ ancestors t i).
Proof.
  intros Hwf Hp. destruct (ancestors_split _ _ _ Hwf Hp) as [rest E].
  destruct rest as [|c rest].
  - exists i. split; [|by left]. by eapply ancestors_last_parent.
  - assert (ancestors t i = (ancestors t p ++ [p]) ++ c :: rest) as E'.
    { by rewrite E, <-(assoc_L (++)). }
    assert (ancestors t i !! (length (ancestors t p ++ [p])) = Some c) as Hc.
    { rewrite E'. by apply list_lookup_middle. }
    pose proof (ancestors_lookup_take _ _ _ _ Hwf Hc) as Ec.
    rewrite E', take_app_length in Ec.
    exists c. split; [by eapply ancestors_last_parent|].
    right. eapply list_elem_of_lookup_2, Hc.
Qed.

Lemma elem_of_preorder t fuel i j :
  wf t →
  j ∈ preorder fuel t i ↔ i ∈ ancestors t j ∧ depth t j ≤ depth t i + fuel.
Proof.
  intros Hwf. revert i. induction fuel as [|fuel IH]; intros i; simpl.
  - split; [by intros ?%elem_of_nil|]. intros [Hi%depth_ancestor_lt Hd]; [lia|done].
  - rewrite list_elem_of_bind. split.
    + intros (c & Hj & Hc%elem_of_children_of).
      pose proof (depth_parent _ _ _ Hwf Hc) as Hdc.
      apply elem_of_cons in Hj as [->|Hj].
      * split; [by apply parent_ancestor|lia].
      * apply IH in Hj as [Hcj Hd]. split; [|lia].
        eapply ancestors_trans; [done..|by apply parent_ancestor].
    + intros [Hi Hd]. destruct (ancestor_child _ _ _ Hwf Hi) as (c & Hc & Hcj).
      exists c. split; [|by apply elem_of_children_of].
      destruct Hcj as [->|Hcj]; [by left|]. right. apply IH. split; [done|].
      rewrite (depth_parent _ _ _ Hwf Hc). lia.
Qed.

Lemma elem_of_descendants t i j :
  wf t → j ∈ descendants t i ↔ i ∈ ancestors t j.
Proof.
  intros Hwf. unfold descendants. rewrite elem_of_preorder by done.
  split; [by intros [? _]|]. intros Hi. split; [done|].
  pose proof (depth_le t j Hwf). pose proof (ancestors_lt_length _ _ _ Hwf Hi). lia.
Qed.

Lemma elem_of_descendants_root t j :
  wf t → j ∈ descendants t 0 ↔ 0 < j < length t.
Proof.
  intros Hwf. rewrite elem_of_descendants by done. split.
  - intros Hj. pose proof (ancestors_lt _ _ _ Hwf Hj).
    pose proof (ancestors_lt_length _ _ _ Hwf Hj). lia.
  - by apply root_ancestor.
Qed.

Lemma NoDup_children_of t i : NoDup (children_of t i).
Proof. apply NoDup_filter, NoDup_seq. Qed.

Lemma NoDup_preorder t fuel i : wf t → NoDup (preorder fuel t i).
Proof.
  intros Hwf. revert i. induction fuel as [|fuel IH]; intros i; simpl.
  { constructor. }
  assert (∀ c y, parent_of t c = Some i → y ∈ c :: preorder fuel t c →
    ancestors t i ++ [i] = take (S (depth t i)) (ancestors t y ++ [y])
    ∧ (ancestors t y ++ [y]) !! S (depth t i) = Some c) as Hkey.
  { intros c y Hc Hy.
    assert (ancestors t c = ancestors t i ++ [i]) as Ec.
    { by rewrite (ancestors_unfold t c Hwf), Hc. }
    assert (length (ancestors t c) = S (depth t i)) as Hlen.
    { rewrite Ec, length_app. unfold depth. simpl. lia. }
    apply elem_of_cons in Hy as [->|Hy].
    - rewrite <-Hlen. rewrite take_app_length, list_lookup_middle by done. done.
    - apply elem_of_preorder in Hy as [Hy _]; [|done].
      destruct (ancestors_split _ _ _ Hwf Hy) as [rest E].
      rewrite E, <-Hlen, <-!(assoc_L (++)). simpl.
      rewrite take_app_length, list_lookup_middle by done. by rewrite Ec. }
  apply NoDup_bind.
  - intros c1 c2 y Hc1%elem_of_children_of Hc2%elem_of_children_of Hy1 Hy2.
    destruct (Hkey _ _ Hc1 Hy1) as [_ H1]. destruct (Hkey _ _ Hc2 Hy2) as [_ H2].
    congruence.
  - intros c Hc. constructor; [|apply IH].
    intros [Hcc _]%elem_of_preorder; [|done]. by eapply ancestors_irrefl.
  - apply NoDup_children_of.
Qed.

Lemma NoDup_descendants t i : wf t → NoDup (descendants t i).
Proof. apply NoDup_preorder. Qed.

End tree_facts.

Section shape.
Implicit Types (t : list Node) (i j p a b k : nat).

Lemma same_shape_refl t : same_shape t t.
Proof. done. Qed.

Lemma same_shape_trans t1 t2 t3 : same_shape t1 t2 → same_shape t2 t3 → same_shape t1 t3.
Proof. intros [] []. split; intros; etrans; eauto. Qed.

Lemma same_shape_ancestors t t' j : same_shape t t' → ancestors t j = ancestors t' j.
Proof.
  intros [Hl Hp _]. unfold ancestors. rewrite <-Hl. generalize (length t) as fuel.
  intros fuel. revert j. induction fuel as [|fuel IH]; intros j; simpl; [done|].
  rewrite <-Hp. destruct (parent_of t j); [|done]. by rewrite IH.
Qed.

Lemma same_shape_depth t t' j : same_shape t t' → depth t j = depth t' j.
Proof. intros Hs. unfold depth. by rewrite (same_shape_ancestors t t'). Qed.

Lemma same_shape_children_of t t' i : same_shape t t' → children_of t i = children_of t' i.
Proof.
  intros [Hl Hp _]. unfold children_of. rewrite <-Hl.
  apply list_filter_iff. intros j. by rewrite Hp.
Qed.

Lemma same_shape_descendants t t' i : same_shape t t' → descendants t i = descendants t' i.
Proof.
  intros Hs. unfold descendants. rewrite <-(shape_length _ _ Hs).
  generalize (length t) as fuel. intros fuel. revert i.
  induction fuel as [|fuel IH]; intros i; simpl; [done|].
  rewrite (same_shape_children_of t t') by done.
  apply list_bind_ext; [|done]. intros c. by rewrite IH.
Qed.

Lemma same_shape_wf t t' : same_shape t t' → wf t → wf t'.
Proof.
  intros [Hl Hp _] [H1 H2]. split.
  - intros j p. rewrite <-Hp. apply H1.
  - intros j. rewrite <-Hp, <-Hl. apply H2.
Qed.

Lemma parent_of_app_l t t' j : j < length t → parent_of (t ++ t') j = parent_of t j.
Proof. intros Hj. unfold parent_of. by rewrite lookup_app_l. Qed.

Lemma points_app_l t t' j : j < length t → points (t ++ t') j = points t j.
Proof. intros Hj. unfold points. by rewrite lookup_total_app_l. Qed.

Lemma points_ge t j : length t ≤ j → points t j = [].
Proof.
  intros Hj. unfold points. rewrite list_lookup_total_alt.
  by rewrite lookup_ge_None_2.
Qed.

Lemma wf_app_inv t t' : wf (t ++ t') → wf t.
Proof.
  intros [H1 H2]. split.
  - intros j p E. pose proof (parent_of_lt_length _ _ _ E).
    apply H1. by rewrite parent_of_app_l.
  - intros j Hj. rewrite <-(parent_of_app_l t t') by lia. apply H2.
    rewrite length_app. lia.
Qed.

Lemma ancestors_app_l t t' j : wf (t ++ t') → j < length t → ancestors (t ++ t') j = ancestors t j.
Proof.
  intros Hwf. pose proof (wf_app_inv _ _ Hwf) as Hwf'.
  induction (lt_wf j) as [j _ IH]. intros Hj.
  rewrite (ancestors_unfold _ j Hwf), (ancestors_unfold _ j Hwf').
  rewrite parent_of_app_l by done.
  destruct (parent_of t j) as [p|] eqn:E; [|done].
  pose proof (wf_parent_lt _ Hwf' _ _ E). rewrite IH by lia. done.
Qed.

Lemma depth_app_l t t' j : wf (t ++ t') → j < length t → depth (t ++ t') j = depth t j.
Proof. intros. unfold depth. by rewrite ancestors_app_l. Qed.

(** Appending nodes whose parents exist keeps the store a tree. *)
Lemma wf_app t new :
  wf t → 0 < length t →
  Forall (λ n, ∃ p, parent n = Some p ∧ p < length t) new →
  wf (t ++ new).
Proof.
  intros [H1 H2] Hne Hnew. split.
  - intros j p. unfold parent_of.
    destruct (decide (j < length t)) as [Hj|Hj].
    + rewrite lookup_app_l by done. apply H1.
    + rewrite lookup_app_r by lia.
      destruct (new !! (j - length t)) as [n|] eqn:E; [|done]. simpl.
      rewrite Forall_lookup in Hnew. destruct (Hnew _ _ E) as (q & Hq & ?).
      rewrite Hq. intros [= <-]. lia.
  - intros j. rewrite length_app. intros Hj. unfold parent_of.
    destruct (decide (j < length t)) as [Hjt|Hjt].
    + rewrite lookup_app_l by done. apply H2. lia.
    + rewrite lookup_app_r by lia.
      destruct (lookup_lt_is_Some_2 new (j - length t)) as [n E]; [lia|].
      rewrite E. simpl. rewrite Forall_lookup in Hnew.
      destruct (Hnew _ _ E) as (q & Hq & ?). by rewrite Hq.
Qed.

End shape.

Section invariant.
Implicit Types (t : list Node) (i j p a b k : nat).

Lemma nest_ancestor t j a :
  tree_inv t → a ∈ ancestors t j → a ≠ 0 → points t j ⊆ points t a.
Proof.
  intros Hinv. pose proof (inv_wf _ Hinv) as Hwf.
  induction (lt_wf j) as [j _ IH]. intros Ha Ha0.
  pose proof (ancestors_lt_length _ _ _ Hwf Ha) as Hj.
  pose proof (ancestors_lt _ _ _ Hwf Ha) as Haj.
  destruct (wf_parent_some _ Hwf j) as [p E]; [lia|].
  pose proof (wf_parent_lt _ Hwf _ _ E) as Hp.
  destruct (ancestors_parent_inv _ _ _ _ Hwf E Ha) as [->|Hap].
  - by apply (inv_nest _ Hinv).
  - pose proof (ancestors_lt _ _ _ Hwf Hap).
    etrans; [apply (inv_nest _ Hinv j p E); lia|]. by apply IH.
Qed.

Lemma unrelated_disjoint_lt t i j :
  tree_inv t → i < j → i ∉ ancestors t j → points t i ## points t j.
Proof.
  intros Hinv. pose proof (inv_wf _ Hinv) as Hwf. revert i.
  induction (lt_wf j) as [j _ IH]. intros i Hij Hi.
  destruct (decide (j < length t)) as [Hj|Hj]; last first.
  { rewrite (points_ge t j) by lia. intros x _ ?%elem_of_nil. done. }
  destruct (decide (i = 0)) as [->|Hi0].
  { destruct Hi. apply root_ancestor; [done|lia]. }
  destruct (wf_parent_some _ Hwf j) as [p E]; [lia|].
  pose proof (wf_parent_lt _ Hwf _ _ E) as Hp.
  pose proof (parent_ancestor _ _ _ Hwf E) as Hpj.
  assert (p ≠ i) as Hpi by (by intros ->).
  assert (i ∉ ancestors t p) as Hip.
  { intros ?. apply Hi. by eapply ancestors_trans. }
  destruct (decide (p ∈ ancestors t i)) as [Hpa|Hpa].
  - destruct (ancestor_child _ _ _ Hwf Hpa) as (c & Hc & Hci).
    assert (c ≠ j).
    { destruct Hci as [->|?%ancestors_lt]; [lia| |done]. lia. }
    assert (points t i ⊆ points t c) as Hsub.
    { destruct Hci as [->|Hci]; [done|]. apply nest_ancestor; [done..|].
      pose proof (wf_parent_lt _ Hwf _ _ Hc). lia. }
    pose proof (inv_siblings _ Hinv c j p) as Hd.
    intros x Hx. apply Hd; auto.
  - assert (p ≠ 0) as Hp0.
    { intros ->. apply Hpa, root_ancestor; [done|lia]. }
    pose proof (inv_nest _ Hinv j p E Hp0) as Hsub.
    destruct (decide (i < p)) as [Hlt|Hge].
    + intros x Hx Hxj. eapply (IH p Hp i); eauto.
    + intros x Hx Hxj. eapply (IH i Hij p); [lia|done|by apply Hsub|done].
Qed.

(** Two nodes neither of which is above the other hold different points. *)
Lemma unrelated_disjoint t i j :
  tree_inv t → i ≠ j → i ∉ ancestors t j → j ∉ ancestors t i →
  points t i ## points t j.
Proof.
  intros Hinv Hij Hi Hj. destruct (decide (i < j)).
  - by apply unrelated_disjoint_lt.
  - intros x Hx Hxj. eapply (unrelated_disjoint_lt t j i); [done|lia|done..].
Qed.
End invariant.

(** ** Overlap resolution as a function on trees *)

Section resolve.
Context `{SetOrder}.
Implicit Types (t : list Node) (i j p a b c d k : nat).

Lemma subtract_same_shape c a t : same_shape t (subtract c a t).
Proof.
  unfold subtract. split.
  - by rewrite length_alter.
  - intros j. unfold parent_of. destruct (decide (a = j)) as [->|].
    + rewrite list_lookup_alter_eq. by destruct (t !! j).
    + by rewrite list_lookup_alter_ne.
  - intros j. destruct (decide (a = j)) as [->|].
    + rewrite list_lookup_alter_eq. by destruct (t !! j).
    + by rewrite list_lookup_alter_ne.
Qed.

Lemma points_lookup t j n : t !! j = Some n → points t j = clustered_points n.
Proof. intros E. unfold points. by rewrite list_lookup_total_alt, E. Qed.

Lemma elem_of_points_subtract c a t j x :
  x ∈ points (subtract c a t) j ↔ x ∈ points t j ∧ (j = a → x ∉ points t c).
Proof.
  destruct (decide (j = a)) as [->|Hne].
  - destruct (t !! a) as [n|] eqn:E.
    + rewrite (points_lookup t a n E).
      rewrite (points_lookup _ a (set_clustered_points
        (set_difference (clustered_points n) (points t c)) n)).
      * simpl. rewrite elem_of_set_difference. intuition.
      * unfold subtract. by rewrite list_lookup_alter_eq, E.
    + apply lookup_ge_None_1 in E.
      rewrite !points_ge by (unfold subtract; rewrite ?length_alter; done).
      split; [by intros ?%elem_of_nil|by intros [?%elem_of_nil _]].
  - unfold points at 1, subtract. rewrite list_lookup_total_alter_ne by done.
    fold (points t j). intuition.
Qed.

Lemma subtract_fold c ancs t :
  c ∉ ancs →
  let t' := foldl (λ t a, subtract c a t) t ancs in
  same_shape t t' ∧
  ∀ j x, x ∈ points t' j ↔ x ∈ points t j ∧ (j ∈ ancs → x ∉ points t c).
Proof.
  revert t. induction ancs as [|a ancs IH]; intros t Hc; simpl.
  { split; [done|]. intros j x. split; [|by intros [? _]].
    intros ?. split; [done|]. by intros ?%elem_of_nil. }
  apply not_elem_of_cons in Hc as [Hca Hc].
  destruct (IH (subtract c a t) Hc) as [Hs Hp]. split.
  { eapply same_shape_trans; [apply subtract_same_shape|done]. }
  intros j x. rewrite Hp, !elem_of_points_subtract, elem_of_cons.
  intuition (subst; auto).
Qed.

Lemma resolve_node_spec c t :
  wf t →
  same_shape t (resolve_node c t) ∧
  ∀ j x, x ∈ points (resolve_node c t) j ↔
         x ∈ points t j ∧ (j ∈ ancestors t c → x ∉ points t c).
Proof.
  intros Hwf. apply subtract_fold. by apply ancestors_irrefl.
Qed.

Lemma resolve_snoc nodes c t : resolve (nodes ++ [c]) t = resolve_node c (resolve nodes t).
Proof. unfold resolve. by rewrite foldl_app. Qed.

(** What holds after any part of the pass. *)
Lemma resolve_inv nodes t :
  wf t →
  let t' := resolve nodes t in
  same_shape t t' ∧
  (∀ j, points t' j ⊆ points t j) ∧
  (∀ j x, x ∈ points t j → x ∉ points t' j →
          ∃ d, j ∈ ancestors t d ∧ x ∈ points t d) ∧
  (∀ d a, d ∈ nodes → a ∈ ancestors t d → points t' d ## points t' a).
Proof.
  intros Hwf. induction nodes as [|c nodes IH] using rev_ind; simpl.
  { split; [done|]. split; [done|]. split; [done|]. by intros d a ?%elem_of_nil. }
  rewrite resolve_snoc. destruct IH as (Hs & H1 & H2 & H3).
  pose proof (same_shape_wf _ _ Hs Hwf) as Hwf'.
  destruct (resolve_node_spec c (resolve nodes t) Hwf') as [Hs' Hp].
  rewrite <-(same_shape_ancestors t) in Hp by done.
  split; [by eapply same_shape_trans|]. split; [|split].
  - intros j x [Hx _]%Hp. by apply H1.
  - intros j x Hx Hnx.
    destruct (decide (x ∈ points (resolve nodes t) j)) as [Hin|Hnin]; [|eauto].
    exists c. rewrite Hp in Hnx.
    destruct (decide (j ∈ ancestors t c)) as [Hj|Hj]; [|tauto].
    split; [done|]. apply H1.
    destruct (decide (x ∈ points (resolve nodes t) c)); tauto.
  - intros d a [Hd| ->%list_elem_of_singleton]%elem_of_app Ha x [Hxd Hxd']%Hp [Hxa Hxa']%Hp.
    + by eapply H3.
    + by apply Hxa'.
Qed.

(** Once every node below the root has been visited, a node keeps exactly
    the points that none of its descendants held. *)
Lemma resolve_spec nodes t :
  wf t → (∀ d, 0 < d < length t → d ∈ nodes) →
  ∀ j x, x ∈ points (resolve nodes t) j ↔
         x ∈ points t j ∧ ∀ d, j ∈ ancestors t d → x ∉ points t d.
Proof.
  intros Hwf Hall j x. destruct (resolve_inv nodes t Hwf) as (Hs & H1 & H2 & H3).
  split.
  - intros Hx. split; [by apply H1|]. intros d.
    remember (length t - d) as m eqn:Hm. revert d Hm.
    induction (lt_wf m) as [m _ IH]. intros d -> Hj Hxd.
    pose proof (ancestors_lt _ _ _ Hwf Hj).
    pose proof (ancestors_lt_length _ _ _ Hwf Hj).
    destruct (decide (x ∈ points (resolve nodes t) d)) as [Hin|Hnin].
    + eapply (H3 d j); [apply Hall; lia|done..].
    + destruct (H2 d x Hxd Hnin) as (d' & Hd' & Hxd').
      pose proof (ancestors_lt _ _ _ Hwf Hd').
      pose proof (ancestors_lt_length _ _ _ Hwf Hd').
      apply (IH (length t - d')) with d'; [lia|done| |done].
      by eapply ancestors_trans.
  - intros [Hx Hn]. destruct (decide (x ∈ points (resolve nodes t) j)) as [|Hnin]; [done|].
    destruct (H2 j x Hx Hnin) as (d & Hd & Hxd). by destruct (Hn d).
Qed.
End resolve.

(** ** Reasoning about methods *)

Section hoare.
Context {F : Type}.
Implicit Types (σ : @state F).

Lemma wp_mono {A} (m : @M F A) σ Qr Qe (Qr' : A → state → Prop) Qe' :
  wp m σ Qr Qe →
  (∀ a σ', Qr a σ' → Qr' a σ') → (∀ e σ', Qe e σ' → Qe' e σ') →
  wp m σ Qr' Qe'.
Proof. unfold wp. destruct (m σ); auto. Qed.

Lemma wp_ret {A} (a : A) σ (Qr : A → state → Prop) Qe : Qr a σ → wp (mret a) σ Qr Qe.
Proof. done. Qed.

Lemma wp_bind {A B} (m : @M F A) (f : A → @M F B) σ (Qr : B → state → Prop) Qe :
  wp m σ (λ a σ', wp (f a) σ' Qr Qe) Qe → wp (m ≫= f) σ Qr Qe.
Proof. unfold wp, mbind, M_bind. by destruct (m σ). Qed.

Lemma wp_get_self σ (Qr : VariousDBSCAN → state → Prop) Qe :
  Qr (self σ) σ → wp get_self σ Qr Qe.
Proof. done. Qed.

Lemma wp_update_self f σ (Qr : unit → state → Prop) Qe :
  Qr () (mkState (f (self σ)) (calls σ)) → wp (update_self f) σ Qr Qe.
Proof. done. Qed.

Lemma wp_record_call c σ (Qr : unit → state → Prop) Qe :
  Qr () (mkState (self σ) (c :: calls σ)) → wp (record_call c) σ Qr Qe.
Proof. done. Qed.

Lemma wp_lift {A} (r : exn + A) σ (Qr : A → state → Prop) Qe :
  match r with inl e => Qe e σ | inr a => Qr a σ end → wp (lift r) σ Qr Qe.
Proof. unfold wp, lift. by destruct r. Qed.

Lemma wp_for_each {A} (I : list A → state → Prop) (xs : list A) body σ Qe :
  I [] σ →
  (∀ done x rest σ, xs = done ++ x :: rest → I done σ →
     wp (body x) σ (λ _, I (done ++ [x])) Qe) →
  wp (for_each xs body) σ (λ _, I xs) Qe.
Proof.
  intros HI Hbody.
  assert (∀ done rest σ, xs = done ++ rest → I done σ →
    wp (for_each rest body) σ (λ _, I xs) Qe) as Hgen.
  { intros done rest. revert done. induction rest as [|x rest IH]; intros done σ' E Hd.
    - simpl. apply wp_ret. by rewrite E, app_nil_r.
    - simpl. apply wp_bind. eapply wp_mono; [by eapply Hbody| |done].
      intros [] σ'' Hd'. simpl in Hd'. apply (IH (done ++ [x])); [|done].
      by rewrite <-(assoc_L (++)). }
  by apply (Hgen [] xs).
Qed.

Lemma terminates_ret {A} (a : A) σ : terminates (mret a) σ.
Proof. done. Qed.

Lemma terminates_bind {A B} (m : @M F A) (f : A → @M F B) σ :
  terminates m σ → (∀ a σ', m σ = Return a σ' → terminates (f a) σ') →
  terminates (m ≫= f) σ.
Proof.
  unfold terminates, mbind, M_bind. intros Hm Hf. destruct (m σ); eauto.
Qed.

Lemma terminates_for_each {A} (xs : list A) body σ :
  (∀ x σ, terminates (body x) σ) → terminates (for_each xs body) σ.
Proof.
  intros Hb. revert σ. induction xs as [|x xs IH]; intros σ; simpl; [done|].
  apply terminates_bind; auto.
Qed.
End hoare.

(** ** One level of tree growth *)

Section pure.
Lemma comprehension_inr {A B} (f : A → exn + B) xs ys :
  comprehension f xs = inr ys → Forall2 (λ x y, f x = inr y) xs ys.
Proof.
  revert ys. induction xs as [|x xs IH]; intros ys; simpl.
  - intros [= <-]. constructor.
  - destruct (f x) as [e|y] eqn:E; [done|].
    destruct (comprehension f xs) as [e|ys'] eqn:E'; [done|].
    intros [= <-]. constructor; auto.
Qed.

Lemma comprehension_total {A B} (f : A → exn + B) xs :
  Forall (λ x, ∃ y, f x = inr y) xs → ∃ ys, comprehension f xs = inr ys.
Proof.
  induction 1 as [|x xs [y Hy] _ [ys IH]]; simpl; [by eexists|].
  rewrite Hy, IH. by eexists.
Qed.

Lemma getitem_inr {A} (xs : list A) k x : getitem xs k = inr x ↔ xs !! k = Some x.
Proof. unfold getitem. destruct (xs !! k); naive_solver. Qed.

Lemma elem_of_where_eq labels i k : k ∈ where_eq labels i ↔ labels !! k = Some i.
Proof.
  unfold where_eq. rewrite list_elem_of_filter, elem_of_seq.
  split; [by intros [? _]|]. intros E. split; [done|].
  apply lookup_lt_Some in E. lia.
Qed.

Lemma elem_of_range n i : i ∈ range n ↔ (0 ≤ i < n)%Z.
Proof.
  unfold range. rewrite list_elem_of_fmap. setoid_rewrite elem_of_seq. split.
  - intros (k & -> & Hk). lia.
  - intros Hi. exists (Z.to_nat i). lia.
Qed.

Lemma NoDup_range n : NoDup (range n).
Proof. unfold range. apply NoDup_fmap; [apply _|apply NoDup_seq]. Qed.

Lemma py_max_inr xs top :
  py_max xs = inr top → top ∈ xs ∧ Forall (λ x, (x ≤ top)%Z) xs.
Proof.
  destruct xs as [|x xs]; [done|]. simpl. intros [= <-].
  revert x. induction xs as [|y xs IH]; intros x; simpl.
  - split; [by left|]. by constructor.
  - destruct (IH (Z.max x y)) as [Hin Hle]. split.
    + apply elem_of_cons in Hin as [Hin|Hin]; [|by do 2 right].
      rewrite Hin. destruct (Z.max_spec x y) as [[_ ->]|[_ ->]]; [right|]; by left.
    + apply Forall_cons in Hle as [H1 H2].
      repeat constructor; [lia..|done].
Qed.
End pure.

Section children.
Context `{!SetOrder}.

Lemma child_points_elem pts labels i l x :
  child_points pts labels i = inr l →
  x ∈ l ↔ ∃ k, labels !! k = Some i ∧ pts !! k = Some x.
Proof.
  intros Hc%comprehension_inr. split.
  - intros Hx. destruct (list_elem_of_lookup_1 _ _ Hx) as [m Hm].
    destruct (Forall2_lookup_r _ _ _ _ _ Hc Hm) as (k & Hk & Hg).
    exists k. split; [|by apply getitem_inr].
    by apply elem_of_where_eq, elem_of_set_list, list_elem_of_lookup_2 with m.
  - intros (k & Hl & Hp).
    assert (k ∈ set_list (where_eq labels i)) as Hk.
    { by apply elem_of_set_list, elem_of_where_eq. }
    destruct (list_elem_of_lookup_1 _ _ Hk) as [m Hm].
    destruct (Forall2_lookup_l _ _ _ _ _ Hc Hm) as (y & Hy & Hg).
    apply getitem_inr in Hg. assert (y = x) as -> by congruence.
    by eapply list_elem_of_lookup_2.
Qed.

Lemma child_points_NoDup pts labels i l :
  NoDup pts → child_points pts labels i = inr l → NoDup l.
Proof.
  intros Hnd Hc%comprehension_inr.
  pose proof (set_list_NoDup (where_eq labels i)) as Hks.
  induction Hc as [|k y ks ys Hg Hc IH]; [constructor|].
  apply NoDup_cons in Hks as [Hk Hks]. constructor; [|by apply IH].
  intros Hy. destruct (list_elem_of_lookup_1 _ _ Hy) as [m Hm].
  destruct (Forall2_lookup_r _ _ _ _ _ Hc Hm) as (k' & Hk' & Hg').
  apply getitem_inr in Hg. apply getitem_inr in Hg'.
  assert (k = k') as <- by (by apply (NoDup_lookup pts k k' y)).
  apply Hk. by eapply list_elem_of_lookup_2.
Qed.

Lemma grown_lookup pts labels b ids children m n :
  grown pts labels b ids children → children !! m = Some n →
  ∃ i l, ids !! m = Some i ∧ child_points pts labels i = inr l
         ∧ n = mkNode (str i) l (Some b).
Proof.
  intros Hg Hm. destruct (Forall2_lookup_r _ _ _ _ _ Hg Hm) as (i & Hi & l & Hl & ->).
  eauto.
Qed.

Lemma grown_subseteq pts labels b ids children n :
  grown pts labels b ids children → n ∈ children →
  parent n = Some b ∧ clustered_points n ⊆ pts.
Proof.
  intros Hg [m Hm]%list_elem_of_lookup_1.
  destruct (grown_lookup _ _ _ _ _ _ _ Hg Hm) as (i & l & _ & Hl & ->).
  split; [done|]. simpl. intros x Hx.
  apply (child_points_elem _ _ _ _ x Hl) in Hx as (k & _ & Hk).
  by eapply list_elem_of_lookup_2.
Qed.

Lemma grown_disjoint pts labels b ids children m1 m2 n1 n2 :
  NoDup pts → NoDup ids → grown pts labels b ids children →
  m1 ≠ m2 → children !! m1 = Some n1 → children !! m2 = Some n2 →
  clustered_points n1 ## clustered_points n2.
Proof.
  intros Hnd His Hg Hne H1 H2.
  destruct (grown_lookup _ _ _ _ _ _ _ Hg H1) as (i1 & l1 & Hi1 & Hl1 & ->).
  destruct (grown_lookup _ _ _ _ _ _ _ Hg H2) as (i2 & l2 & Hi2 & Hl2 & ->).
  simpl. intros x Hx1 Hx2.
  apply (child_points_elem _ _ _ _ x Hl1) in Hx1 as (k1 & Hk1 & Hp1).
  apply (child_points_elem _ _ _ _ x Hl2) in Hx2 as (k2 & Hk2 & Hp2).
  assert (k1 = k2) as -> by (by apply (NoDup_lookup pts k1 k2 x)).
  assert (i1 = i2) as -> by congruence.
  apply Hne. by apply (NoDup_lookup ids m1 m2 i2).
Qed.
End children.

Section growth.
Context `{!SetOrder} {F : Type}.
Context (dbscan : list (list F) → F → Z → exn + list Z).
Implicit Types (σ : @state F) (t : list Node).

Lemma grow_state_nil σ : grow_state [] 0 [] σ = σ.
Proof.
  destruct σ as [[] ?]. unfold grow_state, set_dbscan_performed,
    set_progressive_clustering. simpl. by rewrite app_nil_r, Nat.add_0_r.
Qed.

Lemma grow_state_grow_state c1 n1 cs1 c2 n2 cs2 σ :
  grow_state c2 n2 cs2 (grow_state c1 n1 cs1 σ)
  = grow_state (c1 ++ c2) (n1 + n2) (cs2 ++ cs1) σ.
Proof.
  unfold grow_state, set_dbscan_performed, set_progressive_clustering. simpl.
  by rewrite !(assoc_L (++)), Nat.add_assoc.
Qed.

Lemma grown_nil points_idx labels parent_node : grown points_idx labels parent_node [] [].
Proof. constructor. Qed.

Lemma run_dbscan_on_node_spec points_idx new_eps parent_node σ :
  let c := mkCall points_idx new_eps parent_node in
  wp (run_dbscan_on_node dbscan points_idx new_eps parent_node) σ
    (λ _ σ', ∃ d labels top children,
       submatrix (distance_matrix (self σ)) points_idx = inr d
       ∧ dbscan d new_eps (min_points (self σ)) = inr labels
       ∧ py_max labels = inr top
       ∧ grown points_idx labels parent_node (range (top + 1)) children
       ∧ σ' = grow_state children 1 [c] σ)
    (λ _ σ', ∃ labels ids children n cs,
       NoDup ids ∧ grown points_idx labels parent_node ids children
       ∧ n ≤ length cs ∧ (cs = [] ∨ cs = [c])
       ∧ σ' = grow_state children n cs σ).
Proof.
  intros c. unfold run_dbscan_on_node.
  apply wp_bind, wp_get_self, wp_bind, wp_lift.
  destruct (submatrix _ _) as [e|d] eqn:Ed.
  { exists [], [], [], 0, []. rewrite grow_state_nil.
    split_and!; auto using NoDup_nil_2, grown_nil. }
  apply wp_bind, wp_record_call, wp_bind, wp_lift.
  destruct (dbscan d new_eps _) as [e|labels] eqn:El; simpl.
  { exists [], [], [], 0, [c].
    split_and!; auto using NoDup_nil_2, grown_nil; [simpl; lia|].
    destruct σ as [[] ?]. unfold grow_state, set_dbscan_performed,
      set_progressive_clustering. simpl. by rewrite ?app_nil_r, ?Nat.add_0_r. }
  apply wp_bind, wp_update_self, wp_bind, wp_lift. simpl.
  assert (∀ u : VariousDBSCAN, mkState
      (set_dbscan_performed (dbscan_performed u + 1) u)
      (c :: calls σ) = grow_state [] 1 [c] (mkState u (calls σ))) as Hstart.
  { intros []. unfold grow_state, set_dbscan_performed,
      set_progressive_clustering. simpl. by rewrite app_nil_r. }
  destruct (py_max labels) as [e|top] eqn:Et.
  { exists labels, [], [], 1, [c].
    split_and!; auto using NoDup_nil_2, grown_nil. }
  eapply wp_mono.
  - apply (wp_for_each (λ done σ', ∃ children,
      grown points_idx labels parent_node done children
      ∧ σ' = grow_state children 1 [c] σ)
      _ _ _
      (λ _ σ', ∃ ids children, NoDup ids
        ∧ grown points_idx labels parent_node ids children
        ∧ σ' = grow_state children 1 [c] σ)).
    + exists []. split; [apply grown_nil|]. rewrite Hstart. by destruct σ.
    + intros done i rest σ1 Hrange (children & Hg & ->).
      assert (NoDup done) as Hnd.
      { pose proof (NoDup_range (top + 1)) as Hr. rewrite Hrange in Hr.
        by apply NoDup_app in Hr as [? _]. }
      apply wp_bind, wp_lift.
      destruct (comprehension _ _) as [e|l] eqn:Ec; [by eauto|].
      apply wp_update_self. simpl.
      exists (children ++ [mkNode (str i) l (Some parent_node)]). split.
      * apply Forall2_app; [done|]. repeat constructor. eauto.
      * unfold grow_state, set_dbscan_performed, set_progressive_clustering.
        simpl. by rewrite (assoc_L (++)).
  - intros [] σ' (children & Hg & ->). by exists d, labels, top, children.
  - intros e σ' (ids & children & Hnd & Hg & ->).
    exists labels, ids, children, 1, [c]. split_and!; auto.
Qed.
End growth.

Section grow_inv.
Context `{!SetOrder}.
Implicit Types (t : list Node).

Lemma points_app_r t new m n :
  new !! m = Some n → points (t ++ new) (length t + m) = clustered_points n.
Proof.
  intros E. apply points_lookup. rewrite lookup_app_r by lia.
  by replace (length t + m - length t) with m by lia.
Qed.

Lemma parent_of_app_r t new m n :
  new !! m = Some n → parent_of (t ++ new) (length t + m) = parent n.
Proof.
  intros E. unfold parent_of. rewrite lookup_app_r by lia.
  replace (length t + m - length t) with m by lia. by rewrite E.
Qed.

Lemma tree_inv_grow t pts labels b ids children :
  tree_inv t → b < length t → (∀ j, parent_of t j ≠ Some b) →
  NoDup pts → (b ≠ 0 → pts ⊆ points t b) →
  NoDup ids → grown pts labels b ids children →
  tree_inv (t ++ children).
Proof.
  intros Hinv Hb Hleaf Hpts Hsub Hids Hg.
  assert (∀ j, j < length (t ++ children) →
    j < length t ∨ ∃ m n, j = length t + m ∧ children !! m = Some n) as Hcase.
  { intros j. rewrite length_app. intros Hj.
    destruct (decide (j < length t)) as [|Hge]; [by left|right].
    destruct (lookup_lt_is_Some_2 children (j - length t)) as [n Hn]; [lia|].
    exists (j - length t), n. split; [lia|done]. }
  assert (wf (t ++ children)) as Hwf.
  { apply wf_app; [apply (inv_wf _ Hinv)|apply (inv_root _ Hinv)|]. apply Forall_forall. intros n Hn.
    destruct (grown_subseteq _ _ _ _ _ _ Hg Hn) as [? _]. eauto. }
  split.
  - done.
  - rewrite length_app. pose proof (inv_root _ Hinv). lia.
  - intros j. destruct (decide (j < length (t ++ children))) as [Hj|Hj].
    + destruct (Hcase j Hj) as [?|(m & n & -> & Hn)].
      * rewrite points_app_l by done. apply (inv_NoDup _ Hinv).
      * rewrite (points_app_r _ _ _ _ Hn).
        destruct (grown_lookup _ _ _ _ _ _ _ Hg Hn) as (i & l & _ & Hl & ->).
        simpl. by eapply child_points_NoDup.
    + rewrite points_ge by lia. constructor.
  - intros j p Hp Hp0. pose proof (parent_of_lt_length _ _ _ Hp) as Hj.
    pose proof (wf_parent_lt _ Hwf _ _ Hp) as Hpj.
    destruct (Hcase j Hj) as [?|(m & n & -> & Hn)].
    + rewrite parent_of_app_l in Hp by done.
      rewrite !points_app_l by lia. by apply (inv_nest _ Hinv).
    + rewrite (parent_of_app_r _ _ _ _ Hn) in Hp.
      rewrite (points_app_r _ _ _ _ Hn).
      destruct (grown_subseteq _ _ _ _ _ n Hg) as [Hpn Hsn].
      { by eapply list_elem_of_lookup_2. }
      assert (p = b) as -> by congruence.
      rewrite points_app_l by done. etrans; [done|]. by apply Hsub.
  - intros j1 j2 p Hne Hp1 Hp2.
    pose proof (parent_of_lt_length _ _ _ Hp1) as Hj1.
    pose proof (parent_of_lt_length _ _ _ Hp2) as Hj2.
    destruct (Hcase j1 Hj1) as [?|(m1 & n1 & -> & Hn1)];
      destruct (Hcase j2 Hj2) as [?|(m2 & n2 & -> & Hn2)].
    + rewrite parent_of_app_l in Hp1, Hp2 by done.
      rewrite !points_app_l by done. by eapply (inv_siblings _ Hinv).
    + rewrite parent_of_app_l in Hp1 by done.
      rewrite (parent_of_app_r _ _ _ _ Hn2) in Hp2.
      destruct (grown_subseteq _ _ _ _ _ n2 Hg) as [Hpn _].
      { by eapply list_elem_of_lookup_2. }
      destruct (Hleaf j1). congruence.
    + rewrite parent_of_app_l in Hp2 by done.
      rewrite (parent_of_app_r _ _ _ _ Hn1) in Hp1.
      destruct (grown_subseteq _ _ _ _ _ n1 Hg) as [Hpn _].
      { by eapply list_elem_of_lookup_2. }
      destruct (Hleaf j2). congruence.
    + rewrite (points_app_r _ _ _ _ Hn1), (points_app_r _ _ _ _ Hn2).
      eapply (grown_disjoint pts labels b ids children m1 m2); eauto.
Qed.
End grow_inv.

(** ** Growing the tree of a new instance *)

Section fresh_run.
Context `{!SetOrder} {F : Type}.
Context (dbscan : list (list F) → F → Z → exn + list Z).
Implicit Types (σ : @state F) (t : list Node) (c : @call F).

Local Abbreviation tree σ := (progressive_clustering (self σ)).

Lemma tree_inv_root : tree_inv [mkNode "" [] None].
Proof.
  assert (∀ j p, parent_of [mkNode "" [] None] j = Some p → False) as Hp.
  { intros [|[|j]] p; done. }
  split.
  - split; [intros j p E; by destruct (Hp j p)|]. simpl. lia.
  - simpl. lia.
  - intros [|[|j]]; constructor.
  - intros j p E. by destruct (Hp j p).
  - intros j1 j2 p _ E. by destruct (Hp j1 p).
Qed.

Lemma grown_to_fresh σ0 : fresh σ0 → grown_to σ0 0 σ0.
Proof.
  intros Hf. unfold fresh in Hf. exists [], 0, []. rewrite grow_state_nil, !Hf.
  split_and!; auto using tree_inv_root.
  intros [|j]; simpl; [done|lia].
Qed.

Lemma call_ok_mono σ0 t t' d d' c :
  call_ok σ0 t d c → d ≤ d' →
  (∀ j, j < length t → j < length t' ∧ depth t' j = depth t j) →
  call_ok σ0 t' d' c.
Proof.
  intros (Hp & Hd & He) Hdd Ht. destruct (Ht _ Hp) as [Hp' Hd'].
  unfold call_ok. rewrite Hd'. split_and!; [done|lia|done].
Qed.

Lemma grown_to_mono σ0 d d' σ : grown_to σ0 d σ → d ≤ d' → grown_to σ0 d' σ.
Proof.
  intros (children & n & cs & -> & Hn & Hinv & Hd & Hcs) Hdd.
  exists children, n, cs. split_and!; [done..| |].
  - intros j Hj. specialize (Hd j Hj). lia.
  - eapply Forall_impl; [done|]. intros c Hc.
    eapply call_ok_mono; [done..|]. auto.
Qed.

(** One call of [run_dbscan_on_node] on a leaf of depth [d]. *)
Lemma grown_to_step σ0 d σ b pts e labels ids children n cs :
  grown_to σ0 (S d) σ →
  b < length (tree σ) → depth (tree σ) b = d →
  (∀ j, parent_of (tree σ) j ≠ Some b) →
  NoDup pts → (b ≠ 0 → pts ⊆ points (tree σ) b) →
  e = Nat.iter d (update_epsilon_func (self σ0)) (epsilon (self σ0)) →
  NoDup ids → grown pts labels b ids children →
  n ≤ length cs → (cs = [] ∨ cs = [mkCall pts e b]) →
  grown_to σ0 (S d) (grow_state children n cs σ)
  ∧ ∀ j, j < length (tree σ) + length children →
      (j < length (tree σ) → depth (tree σ ++ children) j = depth (tree σ) j)
      ∧ (length (tree σ) ≤ j → parent_of (tree σ ++ children) j = Some b).
Proof.
  intros (children0 & n0 & cs0 & -> & Hn0 & Hinv & Hd & Hcs0)
    Hb Hdb Hleaf Hpts Hsub He Hids Hg Hn Hcs.
  remember (tree (grow_state children0 n0 cs0 σ0)) as t eqn:Ht.
  pose proof (tree_inv_grow t pts labels b ids children
    Hinv Hb Hleaf Hpts Hsub Hids Hg) as Hinv'.
  pose proof (inv_wf _ Hinv') as Hwf'.
  assert (∀ j, length t ≤ j → j < length t + length children →
    parent_of (t ++ children) j = Some b) as Hnew.
  { intros j Hj1 Hj2.
    destruct (lookup_lt_is_Some_2 children (j - length t)) as [m Hm]; [lia|].
    replace j with (length t + (j - length t)) by lia.
    rewrite (parent_of_app_r _ _ _ _ Hm).
    apply (grown_subseteq _ _ _ _ _ m Hg). by eapply list_elem_of_lookup_2. }
  split; [|intros j Hj; split; [intros; by apply depth_app_l|auto]].
  rewrite grow_state_grow_state.
  exists (children0 ++ children), (n0 + n), (cs ++ cs0).
  assert (tree (grow_state (children0 ++ children) (n0 + n) (cs ++ cs0) σ0)
          = t ++ children) as ->.
  { rewrite Ht. simpl. by rewrite (assoc_L (++)). }
  clear Ht.
  split_and!; [done| |done| |].
  - rewrite length_app. lia.
  - intros j. rewrite length_app. intros Hj.
    destruct (decide (j < length t)) as [Hjt|Hjt].
    + rewrite depth_app_l by done. auto.
    + rewrite (depth_parent _ j b) by auto with lia.
      rewrite depth_app_l by done. rewrite Hdb. done.
  - apply Forall_app. split.
    + destruct Hcs as [->| ->]; [constructor|].
      constructor; [|constructor]. unfold call_ok. split_and!; simpl.
      * rewrite length_app. lia.
      * rewrite depth_app_l by done. lia.
      * rewrite depth_app_l by done. by rewrite Hdb.
    + eapply Forall_impl; [done|]. intros c Hc.
      eapply call_ok_mono; [done..|]. intros j Hj.
      rewrite length_app, depth_app_l by done. split; [lia|done].
Qed.
End fresh_run.

Section fresh_loop.
Context `{!SetOrder} {F : Type}.
Context (dbscan : list (list F) → F → Z → exn + list Z).
Implicit Types (σ : @state F) (t : list Node) (c : @call F).

Local Abbreviation tree σ := (progressive_clustering (self σ)).

Lemma run_dbscan_on_node_grows points_idx new_eps parent_node σ :
  let R := λ σ', ∃ labels ids children n cs,
       NoDup ids ∧ grown points_idx labels parent_node ids children
       ∧ n ≤ length cs
       ∧ (cs = [] ∨ cs = [mkCall points_idx new_eps parent_node])
       ∧ σ' = grow_state children n cs σ in
  wp (run_dbscan_on_node dbscan points_idx new_eps parent_node) σ
    (λ _, R) (λ _, R).
Proof.
  intros R. eapply wp_mono; [apply run_dbscan_on_node_spec| |done].
  intros [] σ' (d & labels & top & children & _ & _ & _ & Hg & ->).
  exists labels, (range (top + 1)), children, 1, [mkCall points_idx new_eps parent_node].
  split_and!; auto using NoDup_range.
Qed.

Lemma grown_to_update σ0 d σ :
  grown_to σ0 d σ → update_epsilon_func (self σ) = update_epsilon_func (self σ0).
Proof. by intros (? & ? & ? & -> & _). Qed.

Lemma fit_loop_grown σ0 fuel max_depth d e σ :
  grown_to σ0 d σ → 1 ≤ d →
  e = Nat.iter (d - 1) (update_epsilon_func (self σ0)) (epsilon (self σ0)) →
  let Q := λ σ', ∃ d', bounded max_depth d d' ∧ grown_to σ0 d' σ' in
  wp (fit_loop dbscan fuel max_depth d e) σ (λ _, Q) (λ _, Q).
Proof.
  revert d e σ. induction fuel as [|fuel IH]; intros d e σ Hg Hd He Q; [done|].
  simpl. destruct (reaches d max_depth) eqn:Hr.
  { apply wp_ret. exists d. split; [|done]. split; [done|]. intros; lia. }
  assert (bounded max_depth d (S d)) as Hbd.
  { split; [lia|]. intros k ->. simpl in Hr. lia. }
  apply wp_bind, wp_get_self.
  set (next_nodes := filter _ _).
  destruct (decide (length next_nodes = 0)) as [|_].
  { apply wp_ret. exists d. split; [|done]. split; [done|]. intros; lia. }
  pose proof Hg as (_ & _ & _ & _ & _ & Hinv & Hdepth & _).
  pose proof (inv_wf _ Hinv) as Hwf.
  assert (NoDup next_nodes) as Hnd.
  { apply NoDup_filter, NoDup_descendants, Hwf. }
  assert (e' : update_epsilon_func (self σ) e
    = Nat.iter d (update_epsilon_func (self σ0)) (epsilon (self σ0))).
  { rewrite (grown_to_update _ _ _ Hg), He. clear -Hd.
    destruct d as [|d]; [lia|]. simpl. by rewrite Nat.sub_0_r. }
  apply wp_bind.
  eapply wp_mono; [apply (wp_for_each (λ done σ',
      grown_to σ0 (S d) σ'
      ∧ (∃ extra, tree σ' = tree σ ++ extra)
      ∧ (∀ j b, parent_of (tree σ') j = Some b → depth (tree σ') b = d → b ∈ done))
      _ _ _ (λ _, Q))| |done].
  - split_and!.
    + eapply grown_to_mono; [done|lia].
    + exists []. by rewrite app_nil_r.
    + intros j b Hp Hb. pose proof (parent_of_lt_length _ _ _ Hp) as Hj.
      specialize (Hdepth j Hj). rewrite (depth_parent _ _ _ Hwf Hp) in Hdepth. lia.
  - intros done b rest σ1 Hnext (Hg1 & [extra Hext] & Hdone).
    pose proof Hg1 as (_ & _ & _ & _ & _ & Hinv1 & _ & _).
    pose proof (inv_wf _ Hinv1) as Hwf1.
    assert (b ∈ next_nodes) as Hb.
    { rewrite Hnext. apply elem_of_app. right. by left. }
    apply list_elem_of_filter in Hb as [Hdb Hb].
    apply elem_of_descendants_root in Hb; [|done].
    assert (b < length (tree σ1)) as Hb1.
    { rewrite Hext, length_app. lia. }
    assert (depth (tree σ1) b = d) as Hdb1.
    { rewrite Hext in Hwf1 |- *. rewrite depth_app_l; [done..|lia]. }
    assert (∀ j, parent_of (tree σ1) j ≠ Some b) as Hleaf.
    { intros j Hj. specialize (Hdone j b Hj Hdb1).
      rewrite Hnext in Hnd. apply NoDup_app in Hnd as (_ & Hnd & _).
      apply (Hnd b); [done|by left]. }
    apply wp_bind, wp_get_self.
    eapply wp_mono; [apply run_dbscan_on_node_grows|..].
    + intros [] σ2 (labels & ids & children & n & cs & Hids & Hgr & Hn & Hcs & ->).
      destruct (grown_to_step σ0 d σ1 b _ _ labels ids children n cs
        Hg1 Hb1 Hdb1 Hleaf (inv_NoDup _ Hinv1 b) (λ _, reflexivity _)
        e' Hids Hgr Hn Hcs) as [Hg2 Hnew].
      split_and!; [done|..].
      * exists (extra ++ children). simpl. by rewrite Hext, (assoc_L (++)).
      * simpl. intros j b' Hp Hb'.
        pose proof (parent_of_lt_length _ _ _ Hp) as Hj.
        rewrite length_app in Hj. destruct (Hnew j Hj) as [Ho Hn'].
        destruct (decide (j < length (tree σ1))) as [Hlt|Hge].
        -- apply elem_of_app. left. rewrite parent_of_app_l in Hp by done.
           apply (Hdone j b' Hp).
           pose proof (wf_parent_lt _ Hwf1 _ _ Hp).
           destruct (Hnew b') as [Hdb' _]; [lia|]. rewrite <-Hdb' by lia. done.
        -- rewrite Hn' in Hp by lia. injection Hp as <-.
           apply elem_of_app. right. by left.
    + intros _ σ2 (labels & ids & children & n & cs & Hids & Hgr & Hn & Hcs & ->).
      destruct (grown_to_step σ0 d σ1 b _ _ labels ids children n cs
        Hg1 Hb1 Hdb1 Hleaf (inv_NoDup _ Hinv1 b) (λ _, reflexivity _)
        e' Hids Hgr Hn Hcs) as [Hg2 _].
      by exists (S d).
  - intros [] σ1 (Hg1 & _ & _). simpl.
    eapply wp_mono; [apply (IH (d + 1)); [by rewrite Nat.add_1_r|lia| ]|..].
    + rewrite e'. by replace (d + 1 - 1) with d by lia.
    + intros [] σ2 (d' & [Hd1 Hd2] & Hg2). exists d'. split; [|done].
      destruct Hbd as [_ Hbd]. split; [lia|]. intros k Hk.
      specialize (Hd2 k Hk). specialize (Hbd k Hk). lia.
    + intros _ σ2 (d' & [Hd1 Hd2] & Hg2). exists d'. split; [|done].
      destruct Hbd as [_ Hbd]. split; [lia|]. intros k Hk.
      specialize (Hd2 k Hk). specialize (Hbd k Hk). lia.
Qed.
End fresh_loop.

(** ** Sorting, and the last part of [fit] *)

Section sorted.
Context (key : nat → Z).

Lemma insert_by_Permutation x l : insert_by key x l ≡ₚ x :: l.
Proof.
  induction l as [|y l IH]; simpl; [done|].
  destruct (key x <=? key y)%Z; [done|]. rewrite IH. apply Permutation_swap.
Qed.

Lemma sorted_Permutation xs : sorted key xs ≡ₚ xs.
Proof.
  induction xs as [|x xs IH]; simpl; [done|].
  by rewrite insert_by_Permutation, IH.
Qed.

Lemma insert_by_StronglySorted x l :
  StronglySorted (λ a b, (key a ≤ key b)%Z) l →
  StronglySorted (λ a b, (key a ≤ key b)%Z) (insert_by key x l).
Proof.
  induction 1 as [|y l Hl IH Hy]; simpl.
  { repeat constructor. }
  destruct (Z.leb_spec (key x) (key y)) as [Hle|Hgt].
  - constructor; [by constructor|]. constructor; [done|].
    eapply Forall_impl; [done|]. simpl. intros; lia.
  - constructor; [done|]. rewrite insert_by_Permutation.
    constructor; [lia|done].
Qed.

Lemma sorted_StronglySorted xs :
  StronglySorted (λ a b, (key a ≤ key b)%Z) (sorted key xs).
Proof.
  induction xs as [|x xs IH]; simpl; [constructor|].
  by apply insert_by_StronglySorted.
Qed.

Lemma elem_of_sorted xs x : x ∈ sorted key xs ↔ x ∈ xs.
Proof. by rewrite sorted_Permutation. Qed.

Lemma NoDup_sorted xs : NoDup xs → NoDup (sorted key xs).
Proof. by rewrite sorted_Permutation. Qed.
End sorted.

Lemma StronglySorted_filter {A} (R : relation A) (P : A → Prop)
    `{∀ x, Decision (P x)} l :
  StronglySorted R l → StronglySorted R (filter P l).
Proof.
  induction 1 as [|x l Hl IH Hx]; [constructor|].
  rewrite filter_cons. destruct (decide (P x)); [|done].
  constructor; [done|]. rewrite Forall_forall in Hx |- *.
  intros y [_ Hy]%list_elem_of_filter. by apply Hx.
Qed.

Section finish.
Context `{!SetOrder} {F : Type}.
Context (dbscan : list (list F) → F → Z → exn + list Z).
Implicit Types (σ : @state F) (t : list Node) (s : @VariousDBSCAN F).

Local Abbreviation tree σ := (progressive_clustering (self σ)).

Lemma set_progressive_clustering_twice t t' s :
  set_progressive_clustering t (set_progressive_clustering t' s)
  = set_progressive_clustering t s.
Proof. done. Qed.

Lemma set_progressive_clustering_id s :
  set_progressive_clustering (progressive_clustering s) s = s.
Proof. by destruct s. Qed.

Lemma subtract_loop_eq c ancs σ :
  for_each ancs (λ parent_node,
    update_self (λ s,
      let t := progressive_clustering s in
      set_progressive_clustering
        (alter (λ p,
           set_clustered_points
             (set_difference (clustered_points p)
                (clustered_points (t !!! c))) p)
           parent_node t) s)) σ
  = Return ()
      (mkState
         (set_progressive_clustering
            (foldl (λ t a, subtract c a t) (tree σ) ancs) (self σ))
         (calls σ)).
Proof.
  revert σ. induction ancs as [|a ancs IH]; intros σ; simpl.
  - rewrite set_progressive_clustering_id. by destruct σ.
  - unfold mbind, M_bind, update_self at 1. by rewrite IH.
Qed.

Lemma remove_in_order_eq nodes σ :
  remove_in_order nodes σ
  = Return ()
      (mkState (set_progressive_clustering (resolve nodes (tree σ)) (self σ))
         (calls σ)).
Proof.
  unfold remove_in_order. revert σ.
  induction nodes as [|c nodes IH]; intros σ; simpl.
  - rewrite set_progressive_clustering_id. by destruct σ.
  - unfold mbind, M_bind, get_self at 1. rewrite subtract_loop_eq.
    by rewrite IH.
Qed.

Lemma fit_eq fuel max_depth σ :
  fit dbscan fuel max_depth σ =
    match grow dbscan fuel max_depth σ with
    | Return _ σ1 => Return (result σ1) (finish σ1)
    | Raise e σ1 => Raise e σ1
    | OutOfFuel => OutOfFuel
    end.
Proof.
  unfold fit, grow, mbind, M_bind, get_self.
  destruct (run_dbscan_on_node _ _ _ _ _) as [[] σ1|e σ1|]; [|done..].
  destruct (fit_loop _ _ _ _ _ _) as [[] σ2|e σ2|]; [|done..].
  unfold remove_child_cluster_points_from_parents, mbind, M_bind, get_self.
  rewrite remove_in_order_eq. done.
Qed.
End finish.

(** ** Runs from any state *)

Section any_run.
Context `{!SetOrder} {F : Type}.
Context (dbscan : list (list F) → F → Z → exn + list Z).
Implicit Types (σ : @state F) (t : list Node) (s : @VariousDBSCAN F).

Local Abbreviation tree σ := (progressive_clustering (self σ)).

Lemma grew_refl b σ : grew b σ σ.
Proof. exists [], 0, []. rewrite grow_state_nil. by destruct b. Qed.

Lemma grew_trans b σ1 σ2 σ3 : grew b σ1 σ2 → grew b σ2 σ3 → grew b σ1 σ3.
Proof.
  intros (c1 & n1 & cs1 & -> & H1) (c2 & n2 & cs2 & -> & H2).
  rewrite grow_state_grow_state. exists (c1 ++ c2), (n1 + n2), (cs2 ++ cs1).
  split; [done|]. rewrite length_app. destruct b; lia.
Qed.

Lemma grew_weaken σ σ' : grew true σ σ' → grew false σ σ'.
Proof. intros (c & n & cs & -> & ->). by exists c, (length cs), cs. Qed.

Lemma run_dbscan_on_node_grew points_idx new_eps parent_node σ :
  wp (run_dbscan_on_node dbscan points_idx new_eps parent_node) σ
    (λ _, grew true σ) (λ _, grew false σ).
Proof.
  eapply wp_mono; [apply run_dbscan_on_node_spec|..].
  - intros [] σ' (_ & _ & _ & children & _ & _ & _ & _ & ->).
    by exists children, 1, [mkCall points_idx new_eps parent_node].
  - intros _ σ' (_ & _ & children & n & cs & _ & _ & Hn & _ & ->).
    by exists children, n, cs.
Qed.

Lemma fit_loop_grew fuel max_depth d e σ :
  wp (fit_loop dbscan fuel max_depth d e) σ
    (λ _, grew true σ) (λ _, grew false σ).
Proof.
  revert d e σ. induction fuel as [|fuel IH]; intros d e σ; [done|].
  simpl. destruct (reaches d max_depth); [apply wp_ret, grew_refl|].
  apply wp_bind, wp_get_self. destruct (decide _); [apply wp_ret, grew_refl|].
  apply wp_bind.
  eapply wp_mono; [apply (wp_for_each (λ _, grew true σ) _ _ _
    (λ _, grew false σ))|..].
  - apply grew_refl.
  - intros _ b _ σ1 _ Hg. apply wp_bind, wp_get_self.
    eapply wp_mono; [apply run_dbscan_on_node_grew|..]; simpl.
    + intros. by eapply grew_trans.
    + intros. eapply grew_trans; [by apply grew_weaken|done].
  - intros [] σ1 Hg. simpl. eapply wp_mono; [apply IH|..]; simpl.
    + intros. by eapply grew_trans.
    + intros. eapply grew_trans; [by apply grew_weaken|done].
  - done.
Qed.

Lemma grow_grew fuel max_depth σ :
  wp (grow dbscan fuel max_depth) σ (λ _, grew true σ) (λ _, grew false σ).
Proof.
  unfold grow. apply wp_bind, wp_get_self, wp_bind.
  eapply wp_mono; [apply run_dbscan_on_node_grew|..]; simpl; [|done].
  intros [] σ1 Hg. eapply wp_mono; [apply fit_loop_grew|..]; simpl.
  - intros. by eapply grew_trans.
  - intros. eapply grew_trans; [by apply grew_weaken|done].
Qed.

(** The loop ends when the depth is bounded. *)
Lemma run_dbscan_on_node_terminates points_idx new_eps parent_node σ :
  terminates (run_dbscan_on_node dbscan points_idx new_eps parent_node) σ.
Proof.
  assert (∀ A (r : exn + A) σ, terminates (lift r) σ) as Hlift.
  { intros A r σ1. unfold terminates, lift. by destruct r. }
  unfold run_dbscan_on_node.
  apply terminates_bind; [done|]. intros s σ1 _.
  apply terminates_bind; [apply Hlift|]. intros d σ2 _.
  apply terminates_bind; [done|]. intros [] σ3 _.
  apply terminates_bind; [apply Hlift|]. intros labels σ4 _.
  apply terminates_bind; [done|]. intros [] σ5 _.
  apply terminates_bind; [apply Hlift|]. intros top σ6 _.
  apply terminates_for_each. intros i σ7.
  apply terminates_bind; [apply Hlift|done].
Qed.

Lemma fit_loop_terminates fuel k d e σ :
  0 < fuel → Z.to_nat k < fuel + d →
  terminates (fit_loop dbscan fuel (Fin k) d e) σ.
Proof.
  revert d e σ. induction fuel as [|fuel IH]; intros d e σ Hf Hk; [lia|].
  simpl. destruct (Z.leb_spec k (Z.of_nat d)) as [Hr|Hr]; [done|].
  apply terminates_bind; [done|]. intros s σ' _.
  destruct (decide _); [done|].
  apply terminates_bind.
  - apply terminates_for_each. intros b σ1.
    apply terminates_bind; [done|]. intros. apply run_dbscan_on_node_terminates.
  - intros [] σ1 _. apply IH; lia.
Qed.

Lemma grow_terminates fuel k σ :
  0 < fuel → Z.to_nat k ≤ fuel → terminates (grow dbscan fuel (Fin k)) σ.
Proof.
  intros Hf Hk. unfold grow. apply terminates_bind; [done|]. intros s σ' _.
  apply terminates_bind; [apply run_dbscan_on_node_terminates|].
  intros [] σ1 _. apply fit_loop_terminates; lia.
Qed.
End any_run.

(** ** Runs of [fit] on a new instance *)

Section fresh_fit.
Context `{!SetOrder} {F : Type}.
Context (half : F → F).
Context (dbscan : list (list F) → F → Z → exn + list Z).
Implicit Types (σ : @state F) (t : list Node) (s : @VariousDBSCAN F).

Local Abbreviation tree σ := (progressive_clustering (self σ)).

Lemma init_inr dm eps mp upd s :
  __init__ half dm eps mp upd = inr s →
  fresh (start s)
  ∧ epsilon s = eps
  ∧ update_epsilon_func s = default half upd.
Proof.
  unfold __init__. destruct (_ && _); [|done]. intros [= <-].
  split_and!; [done..|]. by destruct upd.
Qed.

Lemma grow_fresh fuel max_depth σ0 :
  fresh σ0 →
  let Q := λ σ1, ∃ d', bounded max_depth 1 d' ∧ grown_to σ0 d' σ1 in
  wp (grow dbscan fuel max_depth) σ0 (λ _, Q) (λ _, Q).
Proof.
  intros Hf Q. pose proof (grown_to_fresh _ Hf) as Hg0.
  assert (grown_to σ0 1 σ0) as Hg1 by (eapply grown_to_mono; [done|lia]).
  assert (bounded max_depth 1 1) as Hb by (split; [done|intros; lia]).
  unfold grow. apply wp_bind, wp_get_self, wp_bind.
  assert (∀ σ1, (∃ labels ids children n cs,
       NoDup ids ∧ grown (seq 0 (n_points (self σ0))) labels 0 ids children
       ∧ n ≤ length cs
       ∧ (cs = [] ∨ cs = [mkCall (seq 0 (n_points (self σ0))) (epsilon (self σ0)) 0])
       ∧ σ1 = grow_state children n cs σ0) → grown_to σ0 1 σ1) as Hstep.
  { intros σ1 (labels & ids & children & n & cs & Hids & Hgr & Hn & Hcs & ->).
    apply (grown_to_step σ0 0 σ0 0 (seq 0 (n_points (self σ0)))
      (epsilon (self σ0)) labels ids children n cs); try done.
    - rewrite Hf. simpl. lia.
    - by rewrite Hf.
    - rewrite Hf. by intros [|[|j]].
    - apply NoDup_seq. }
  eapply wp_mono; [apply run_dbscan_on_node_grows|..]; simpl.
  - intros [] σ1 Hσ1%Hstep.
    eapply wp_mono; [by apply (fit_loop_grown dbscan σ0)|done..].
  - intros _ σ1 Hσ1%Hstep. by exists 1.
Qed.

(** Where a run of [fit] on a new instance ends. *)
Lemma fit_fresh_final fuel max_depth σ0 σ' :
  fresh σ0 →
  final_state (fit dbscan fuel max_depth σ0) = Some σ' →
  ∃ d' σ1, bounded max_depth 1 d' ∧ grown_to σ0 d' σ1
    ∧ same_shape (tree σ1) (tree σ') ∧ calls σ' = calls σ1
    ∧ (∀ r, fit dbscan fuel max_depth σ0 = Return r σ' →
         σ' = finish σ1 ∧ r = result σ1).
Proof.
  intros Hf. rewrite fit_eq. pose proof (grow_fresh fuel max_depth σ0 Hf) as Hw.
  unfold wp in Hw. destruct (grow _ _ _ _) as [[] σ1|e σ1|]; simpl; [| |done].
  - intros [= <-]. destruct Hw as (d' & Hb & Hg). exists d', σ1.
    split_and!; [done..| |done|by intros r [= -> ]].
    pose proof Hg as (_ & _ & _ & _ & _ & Hinv & _).
    apply (resolve_inv _ _ (inv_wf _ Hinv)).
  - intros [= <-]. destruct Hw as (d' & Hb & Hg). exists d', σ1.
    split_and!; [done..|]. by intros r.
Qed.
End fresh_fit.

Section touched.
Context `{!SetOrder}.
Implicit Types (t : list Node) (i j p a b c d k : nat).

Lemma points_subtract_ne c a t j : j ≠ a → points (subtract c a t) j = points t j.
Proof.
  intros Hne. unfold points, subtract. by rewrite list_lookup_total_alter_ne.
Qed.

Lemma points_subtract_NoDup c a t : NoDup (points (subtract c a t) a).
Proof.
  destruct (t !! a) as [n|] eqn:E.
  - rewrite (points_lookup _ a (set_clustered_points
      (set_difference (clustered_points n) (points t c)) n)).
    + apply set_difference_NoDup.
    + unfold subtract. by rewrite list_lookup_alter_eq, E.
  - apply lookup_ge_None_1 in E. rewrite points_ge; [constructor|].
    unfold subtract. by rewrite length_alter.
Qed.

Lemma subtract_fold_touched c ancs t j :
  let t' := foldl (λ t a, subtract c a t) t ancs in
  (j ∉ ancs → points t' j = points t j)
  ∧ (NoDup (points t j) ∨ j ∈ ancs → NoDup (points t' j)).
Proof.
  revert t. induction ancs as [|a ancs IH]; intros t; simpl.
  { split; [done|]. intros [?|?%elem_of_nil]; done. }
  destruct (IH (subtract c a t)) as [IH1 IH2]. split.
  - intros [Hja Hj]%not_elem_of_cons. by rewrite IH1, points_subtract_ne.
  - intros Hj. apply IH2. destruct (decide (j = a)) as [->|Hne].
    + left. apply points_subtract_NoDup.
    + rewrite points_subtract_ne by done.
      destruct Hj as [?|[?|?]%elem_of_cons]; auto. done.
Qed.

(** A node is rewritten, as a list without repetition, as soon as one of its
    descendants is visited, and is left as it was until then. *)
Lemma resolve_touched nodes t j :
  wf t →
  let t' := resolve nodes t in
  (Forall (λ d, j ∉ ancestors t d) nodes → points t' j = points t j)
  ∧ (Exists (λ d, j ∈ ancestors t d) nodes → NoDup (points t' j)).
Proof.
  intros Hwf. cbv zeta. induction nodes as [|c nodes IH] using rev_ind.
  { split; [intros _; reflexivity|]. by intros ?%Exists_nil. }
  rewrite resolve_snoc. destruct IH as [IH1 IH2].
  destruct (resolve_inv nodes t Hwf) as (Hs & _).
  pose proof (subtract_fold_touched c (ancestors (resolve nodes t) c)
    (resolve nodes t) j) as [H1 H2].
  fold (resolve_node c (resolve nodes t)) in H1, H2.
  rewrite <-(same_shape_ancestors t (resolve nodes t) c Hs) in H1, H2. split.
  - intros [Hn Hc]%Forall_app. rewrite Forall_singleton in Hc.
    rewrite H1 by done. by apply IH1.
  - intros [He|Hc%Exists_cons]%Exists_app.
    + apply H2. left. by apply IH2.
    + apply H2. right. destruct Hc as [?|?%Exists_nil]; done.
Qed.
End touched.

(** ** Facts about runs of [fit] *)

Section runs_of_fit.
Context `{!SetOrder} {F : Type}.
Context (half : F → F).
Context (dbscan : list (list F) → F → Z → exn + list Z).
Implicit Types (σ : @state F) (t : list Node) (s : @VariousDBSCAN F).

Local Abbreviation tree σ := (progressive_clustering (self σ)).

Lemma fit_return fuel max_depth σ r σ' :
  fit dbscan fuel max_depth σ = Return r σ' →
  ∃ σ1, grew true σ σ1 ∧ σ' = finish σ1 ∧ r = result σ1.
Proof.
  rewrite fit_eq. pose proof (grow_grew dbscan fuel max_depth σ) as Hw.
  unfold wp in Hw. destruct (grow _ _ _ _) as [[] σ1|e σ1|]; [|done..].
  intros [= <- <-]. eauto.
Qed.

Lemma grew_min_points b σ σ' : grew b σ σ' → min_points (self σ') = min_points (self σ).
Proof. by intros (? & ? & ? & -> & _). Qed.

Lemma StronglySorted_impl {A} (R R' : relation A) l :
  (∀ x y, R x y → R' x y) → StronglySorted R l → StronglySorted R' l.
Proof.
  intros HR. induction 1 as [|x l Hl IH Hx]; constructor; [done|].
  eapply Forall_impl; eauto.
Qed.

(** The calls of a run on a new instance: each is made on a node above the
    deepest level reached, with the radius of that node's depth. *)
Lemma fit_fresh_calls dm eps mp upd s0 fuel max_depth σ' :
  __init__ half dm eps mp upd = inr s0 →
  final_state (fit dbscan fuel max_depth (start s0)) = Some σ' →
  ∃ d', bounded max_depth 1 d'
    ∧ (∀ j, j < length (tree σ') → depth (tree σ') j ≤ d')
    ∧ ∀ c, c ∈ calls σ' →
        call_parent c < length (tree σ')
        ∧ depth (tree σ') (call_parent c) < d'
        ∧ call_eps c = Nat.iter (depth (tree σ') (call_parent c)) (default half upd) eps.
Proof.
  intros (Hf & He & Hu)%init_inr Hfin.
  destruct (fit_fresh_final dbscan fuel max_depth (start s0) σ' Hf Hfin) as
    (d' & σ1 & Hb & Hg & Hs & Hc & _).
  exists d'. split; [done|].
  destruct Hg as (children & n & cs & -> & _ & _ & Hd & Hcs).
  rewrite Hc. simpl in *. rewrite app_nil_r.
  rewrite <-(shape_length _ _ Hs). split.
  - intros j Hj. rewrite <-(same_shape_depth _ _ j Hs). auto.
  - intros c Hcin. rewrite Forall_forall in Hcs.
    destruct (Hcs c Hcin) as (H1 & H2 & H3).
    rewrite <-(same_shape_depth _ _ _ Hs). by rewrite <-He, <-Hu.
Qed.

Lemma length_range n : length (range n) = Z.to_nat n.
Proof. unfold range. by rewrite length_fmap, length_seq. Qed.

Lemma range_lookup n m i : range n !! m = Some i → i = Z.of_nat m.
Proof.
  unfold range. rewrite list_lookup_fmap.
  destruct (seq 0 (Z.to_nat n) !! m) as [k|] eqn:E; [|done].
  apply lookup_seq in E as [-> _]. by intros [= <-].
Qed.

Lemma child_points_valid pts labels i l k :
  child_points pts labels i = inr l → labels !! k = Some i → is_Some (pts !! k).
Proof.
  intros Hc%comprehension_inr Hk.
  assert (k ∈ set_list (where_eq labels i)) as Hin.
  { by apply elem_of_set_list, elem_of_where_eq. }
  destruct (list_elem_of_lookup_1 _ _ Hin) as [m Hm].
  destruct (Forall2_lookup_l _ _ _ _ _ Hc Hm) as (y & _ & Hy).
  apply getitem_inr in Hy. eauto.
Qed.

Lemma for_each_returns {A} (xs : list A) (body : A → @M F unit) σ :
  (∀ x σ, x ∈ xs → ∃ σ', body x σ = Return () σ') →
  ∃ σ', for_each xs body σ = Return () σ'.
Proof.
  revert σ. induction xs as [|x xs IH]; intros σ Hb; simpl; [by eexists|].
  destruct (Hb x σ) as [σ1 E]; [by left|].
  unfold mbind, M_bind. rewrite E. apply IH. intros y σ2 Hy. apply Hb. by right.
Qed.

Lemma same_shape_sym t1 t2 : same_shape t1 t2 → same_shape t2 t1.
Proof. intros []. by split. Qed.

Lemma resolve_equiv nodes1 nodes2 t :
  wf t → nodes1 ≡ₚ descendants t 0 → nodes2 ≡ₚ descendants t 0 →
  tree_equiv (resolve nodes1 t) (resolve nodes2 t).
Proof.
  intros Hwf Hn1 Hn2.
  destruct (resolve_inv nodes1 t Hwf) as (Hs1 & _).
  destruct (resolve_inv nodes2 t Hwf) as (Hs2 & _).
  split.
  { eapply same_shape_trans; [by apply same_shape_sym|done]. }
  intros j.
  assert (∀ nodes, nodes ≡ₚ descendants t 0 → ∀ d, 0 < d < length t → d ∈ nodes) as Hall.
  { intros nodes Hn d Hd. rewrite Hn. by apply elem_of_descendants_root. }
  destruct (resolve_touched nodes1 t j Hwf) as [Hu1 Ht1].
  destruct (resolve_touched nodes2 t j Hwf) as [Hu2 Ht2].
  destruct (decide (Exists (λ d, j ∈ ancestors t d) (descendants t 0))) as [He|He].
  - apply NoDup_Permutation.
    + apply Ht1. by rewrite Hn1.
    + apply Ht2. by rewrite Hn2.
    + intros x. rewrite !resolve_spec by auto. done.
  - apply not_Exists_Forall in He; [|apply _].
    rewrite Hu1, Hu2; [done|by rewrite Hn2|by rewrite Hn1].
Qed.

Lemma subtract_idempotent c a t :
  c ≠ a → tree_equiv (subtract c a (subtract c a t)) (subtract c a t).
Proof.
  intros Hne. split.
  { apply same_shape_sym, subtract_same_shape. }
  intros j. destruct (decide (j = a)) as [->|Hj].
  - apply NoDup_Permutation; [apply points_subtract_NoDup..|].
    intros x. rewrite !elem_of_points_subtract. intuition.
  - by rewrite points_subtract_ne.
Qed.

Lemma resolve_same_shape nodes t : same_shape t (resolve nodes t).
Proof.
  unfold resolve. revert t. induction nodes as [|c nodes IH]; intros t; simpl.
  { apply same_shape_refl. }
  eapply same_shape_trans; [|apply IH].
  unfold resolve_node. generalize (ancestors t c) as ancs. intros ancs.
  revert t. induction ancs as [|a ancs IHa]; intros t; simpl.
  { apply same_shape_refl. }
  eapply same_shape_trans; [apply subtract_same_shape|apply IHa].
Qed.

Lemma for_each_ext {A} (xs : list A) (body body' : A → @M F unit) σ :
  (∀ x σ, body x σ = body' x σ) → for_each xs body σ = for_each xs body' σ.
Proof.
  intros Hb. revert σ. induction xs as [|x xs IH]; intros σ; simpl; [done|].
  unfold mbind, M_bind. rewrite Hb. destruct (body' x σ); auto.
Qed.

Lemma bind_ext {A B} (m m' : @M F A) (f f' : A → @M F B) σ :
  m σ = m' σ → (∀ a σ', f a σ' = f' a σ') → (m ≫= f) σ = (m' ≫= f') σ.
Proof.
  intros Hm Hf. unfold mbind, M_bind. rewrite Hm. destruct (m' σ); auto.
Qed.

Section ext.
Context (dbscan' : list (list F) → F → Z → exn + list Z).
Context (Hext : ∀ d e m, dbscan' d e m = dbscan d e m).

Lemma run_dbscan_on_node_ext points_idx new_eps parent_node σ :
  run_dbscan_on_node dbscan' points_idx new_eps parent_node σ
  = run_dbscan_on_node dbscan points_idx new_eps parent_node σ.
Proof.
  unfold run_dbscan_on_node, mbind, M_bind, get_self, lift.
  destruct (submatrix _ _); [done|]. simpl. by rewrite Hext.
Qed.

Lemma fit_loop_ext fuel max_depth d e σ :
  fit_loop dbscan' fuel max_depth d e σ = fit_loop dbscan fuel max_depth d e σ.
Proof.
  revert d e σ. induction fuel as [|fuel IH]; intros d e σ; simpl; [reflexivity|].
  destruct (reaches d max_depth); [done|].
  apply bind_ext; [done|]. intros s σ1. destruct (decide _); [done|].
  apply bind_ext; [|intros; apply IH].
  apply for_each_ext. intros b σ2. apply bind_ext; [done|].
  intros; apply run_dbscan_on_node_ext.
Qed.

Lemma fit_ext fuel max_depth σ :
  fit dbscan' fuel max_depth σ = fit dbscan fuel max_depth σ.
Proof.
  rewrite !fit_eq. unfold grow, mbind, M_bind, get_self.
  rewrite run_dbscan_on_node_ext. destruct (run_dbscan_on_node _ _ _ _ _); [|done..].
  by rewrite fit_loop_ext.
Qed.
End ext.

(** The first call of a run is the one on the whole point set, made for the
    root with the original radius. *)
Lemma grow_calls fuel max_depth σ :
  wp (grow dbscan fuel max_depth) σ
    (λ _ σ1, ∃ children cs,
       σ1 = grow_state children (S (length cs))
              (cs ++ [mkCall (seq 0 (n_points (self σ))) (epsilon (self σ)) 0]) σ)
    (λ _ _, True).
Proof.
  unfold grow. apply wp_bind, wp_get_self, wp_bind.
  eapply wp_mono; [apply run_dbscan_on_node_spec| |done].
  intros [] σ1 (_ & _ & _ & children & _ & _ & _ & _ & ->). simpl.
  eapply wp_mono; [apply fit_loop_grew| |done].
  intros [] σ2 (c2 & n2 & cs2 & -> & ->). rewrite grow_state_grow_state.
  by exists (children ++ c2), cs2.
Qed.

Lemma fit_return_calls fuel max_depth σ r σ' :
  fit dbscan fuel max_depth σ = Return r σ' →
  ∃ children cs,
    calls σ' = cs ++ mkCall (seq 0 (n_points (self σ))) (epsilon (self σ)) 0 :: calls σ
    ∧ dbscan_performed (self σ') = dbscan_performed (self σ) + 1 + length cs
    ∧ same_shape (tree σ ++ children) (tree σ').
Proof.
  rewrite fit_eq. pose proof (grow_calls fuel max_depth σ) as Hw.
  unfold wp in Hw. destruct (grow _ _ _ _) as [[] σ1|e σ1|]; [|done..].
  intros [= <- <-]. destruct Hw as (children & cs & ->).
  exists children, cs. simpl. split_and!.
  - by rewrite <-(assoc_L (++)).
  - lia.
  - apply resolve_same_shape.
Qed.

End runs_of_fit.

(** ** One level of tree growth, continued *)

Section pure_more.
Lemma comprehension_inl {A B} (f : A → exn + B) xs e :
  comprehension f xs = inl e → ∃ x, x ∈ xs ∧ f x = inl e.
Proof.
  induction xs as [|x xs IH]; simpl; [done|].
  destruct (f x) as [e'|y] eqn:E.
  - intros [= ->]. exists x. split; [by left|done].
  - destruct (comprehension f xs) as [e'|ys]; [|done].
    intros [= ->]. destruct IH as (x' & ? & ?); [done|]. exists x'. split; [by right|done].
Qed.

Lemma getitem_inl {A} (xs : list A) k e :
  getitem xs k = inl e → e = IndexError ∧ length xs ≤ k.
Proof.
  unfold getitem. destruct (xs !! k) eqn:E; [done|]. intros [= <-].
  split; [done|]. by apply lookup_ge_None_1.
Qed.

Lemma comprehension_length {A B} (f : A → exn + B) xs ys :
  comprehension f xs = inr ys → length ys = length xs.
Proof. intros Hc%comprehension_inr. symmetry. by eapply Forall2_length. Qed.

Lemma comprehension_lookup {A B} (f : A → exn + B) xs ys k x :
  comprehension f xs = inr ys → xs !! k = Some x →
  ∃ y, ys !! k = Some y ∧ f x = inr y.
Proof.
  intros Hc%comprehension_inr Hk.
  destruct (Forall2_lookup_l _ _ _ _ _ Hc Hk) as (y & ? & ?). eauto.
Qed.
End pure_more.

Section submatrix_facts.
Context {F : Type}.
Implicit Types (d m : list (list F)) (pts : list nat).

Lemma submatrix_inr d pts m :
  submatrix d pts = inr m →
  length m = length pts
  ∧ ∀ a i, pts !! a = Some i →
      ∃ row row', d !! i = Some row ∧ m !! a = Some row'
        ∧ length row' = length pts
        ∧ ∀ b j, pts !! b = Some j → is_Some (row !! j) ∧ row' !! b = row !! j.
Proof.
  unfold submatrix. destruct (comprehension (getitem d) pts) as [e|rows] eqn:Er; [done|].
  intros Hm. split.
  { by rewrite (comprehension_length _ _ _ Hm), (comprehension_length _ _ _ Er). }
  intros a i Ha.
  destruct (comprehension_lookup _ _ _ _ _ Er Ha) as (row & Hrow & Hg).
  destruct (comprehension_lookup _ _ _ _ _ Hm Hrow) as (row' & Hrow' & Hc).
  apply getitem_inr in Hg. exists row, row'. split_and!; [done..| |].
  { apply (comprehension_length _ _ _ Hc). }
  intros b j Hb. destruct (comprehension_lookup _ _ _ _ _ Hc Hb) as (x & Hx & Hgx).
  apply getitem_inr in Hgx. by rewrite Hx, Hgx.
Qed.

Lemma submatrix_inl d pts e :
  submatrix d pts = inl e →
  e = IndexError
  ∧ ∃ i, i ∈ pts ∧ ∀ row, d !! i = Some row → ∃ j, j ∈ pts ∧ length row ≤ j.
Proof.
  unfold submatrix. destruct (comprehension (getitem d) pts) as [e'|rows] eqn:Er.
  - intros [= ->]. destruct (comprehension_inl _ _ _ Er) as (i & Hi & [-> Hlen]%getitem_inl).
    split; [done|]. exists i. split; [done|]. intros row Hrow%lookup_lt_Some. lia.
  - intros (row & Hrow & (j & Hj & [-> Hlen]%getitem_inl)%comprehension_inl)%comprehension_inl.
    split; [done|]. apply list_elem_of_lookup_1 in Hrow as [a Ha].
    apply comprehension_inr in Er.
    destruct (Forall2_lookup_r _ _ _ _ _ Er Ha) as (i & Hi & Hg%getitem_inr).
    exists i. split; [by eapply list_elem_of_lookup_2|].
    intros row' Hrow'. assert (row' = row) as -> by congruence. eauto.
Qed.

Lemma submatrix_total d pts :
  (∀ i, i ∈ pts → ∃ row, d !! i = Some row ∧ ∀ j, j ∈ pts → j < length row) →
  ∃ m, submatrix d pts = inr m.
Proof.
  intros Hok. destruct (submatrix d pts) as [e|m] eqn:E; [|by eexists].
  destruct (submatrix_inl _ _ _ E) as (_ & i & Hi & Hbad).
  destruct (Hok i Hi) as (row & Hrow & Hlen).
  destruct (Hbad row Hrow) as (j & Hj & ?). specialize (Hlen j Hj). lia.
Qed.
End submatrix_facts.

Section more_children.
Context `{!SetOrder}.

Lemma child_points_inl pts labels i e :
  child_points pts labels i = inl e →
  e = IndexError ∧ ∃ k, labels !! k = Some i ∧ length pts ≤ k.
Proof.
  intros (k & Hk%elem_of_set_list%elem_of_where_eq & [-> Hlen]%getitem_inl)%comprehension_inl.
  eauto.
Qed.
End more_children.

Section call_failures.
Context `{!SetOrder} {F : Type}.
Context (dbscan : list (list F) → F → Z → exn + list Z).
Implicit Types (σ : @state F) (t : list Node).

Local Abbreviation tree σ := (progressive_clustering (self σ)).

(** The loop of [run_dbscan_on_node] over the labels [ids], from the state
    in which the call was counted. *)
Lemma children_loop points_idx labels parent_node (c : @call F) ids σ :
  wp (for_each ids (λ cluster_i,
        let local_idx := set_list (where_eq labels cluster_i) in
        original_idx ← lift (comprehension (getitem points_idx) local_idx);
        new_node (str cluster_i) original_idx parent_node))
     (grow_state [] 1 [c] σ)
     (λ _ σ', ∃ children,
        grown points_idx labels parent_node ids children
        ∧ σ' = grow_state children 1 [c] σ)
     (λ e σ', ∃ done i rest children,
        ids = done ++ i :: rest
        ∧ grown points_idx labels parent_node done children
        ∧ child_points points_idx labels i = inl e
        ∧ σ' = grow_state children 1 [c] σ).
Proof.
  eapply wp_mono; [|intros a σ' Ha; exact Ha|intros e σ' He; exact He].
  apply (wp_for_each (λ done σ', ∃ children,
      grown points_idx labels parent_node done children
      ∧ σ' = grow_state children 1 [c] σ)).
  - exists []. split; [apply grown_nil|done].
  - intros done i rest σ1 Hids (children & Hg & ->).
    apply wp_bind, wp_lift.
    destruct (comprehension _ _) as [e|l] eqn:Ec.
    { exists done, i, rest, children. done. }
    apply wp_update_self. simpl.
    exists (children ++ [mkNode (str i) l (Some parent_node)]). split.
    + apply Forall2_app; [done|]. repeat constructor. eauto.
    + unfold grow_state, set_dbscan_performed, set_progressive_clustering.
      simpl. by rewrite (assoc_L (++)).
Qed.

Lemma run_dbscan_on_node_unfold points_idx new_eps parent_node σ :
  run_dbscan_on_node dbscan points_idx new_eps parent_node σ =
  let c := mkCall points_idx new_eps parent_node in
  match submatrix (distance_matrix (self σ)) points_idx with
  | inl e => Raise e σ
  | inr d =>
      match dbscan d new_eps (min_points (self σ)) with
      | inl e => Raise e (mkState (self σ) (c :: calls σ))
      | inr labels =>
          match py_max labels with
          | inl e => Raise e (grow_state [] 1 [c] σ)
          | inr top =>
              for_each (range (top + 1)) (λ cluster_i,
                let local_idx := set_list (where_eq labels cluster_i) in
                original_idx ← lift (comprehension (getitem points_idx) local_idx);
                new_node (str cluster_i) original_idx parent_node)
                (grow_state [] 1 [c] σ)
          end
      end
  end.
Proof.
  assert (∀ (u : @VariousDBSCAN F) (c : @call F) cs, mkState
      (set_dbscan_performed (dbscan_performed u + 1) u)
      (c :: cs) = grow_state [] 1 [c] (mkState u cs)) as Hstart.
  { intros [] ??. unfold grow_state, set_dbscan_performed,
      set_progressive_clustering. simpl. by rewrite app_nil_r. }
  unfold run_dbscan_on_node, mbind, M_bind, get_self, lift, record_call, update_self.
  destruct (submatrix _ _) as [e|d]; [done|]. simpl.
  destruct (dbscan d new_eps _) as [e|labels]; [done|]. simpl.
  rewrite Hstart. destruct σ as [s cs]. simpl.
  destruct (py_max labels) as [e|top]; done.
Qed.
End call_failures.

(** ** Overlap resolution, continued *)

Section resolution_more.
Context `{!SetOrder}.
Implicit Types (t : list Node) (i j p a b c d k : nat).

(** A node below [a] holds points of one child of [a] only. *)
Lemma descendant_in_child t a d :
  tree_inv t → a ∈ ancestors t d →
  ∃ c, parent_of t c = Some a ∧ points t d ⊆ points t c.
Proof.
  intros Hinv Ha. pose proof (inv_wf _ Hinv) as Hwf.
  destruct (ancestor_child _ _ _ Hwf Ha) as (c & Hc & Hcd).
  exists c. split; [done|]. destruct Hcd as [->|Hcd]; [done|].
  apply nest_ancestor; [done..|]. pose proof (wf_parent_lt _ Hwf _ _ Hc). lia.
Qed.

Lemma no_child_no_descendant t a d :
  wf t → children_of t a = [] → a ∉ ancestors t d.
Proof.
  intros Hwf Hleaf Ha. destruct (ancestor_child _ _ _ Hwf Ha) as (c & Hc & _).
  apply elem_of_children_of in Hc. rewrite Hleaf in Hc. by apply elem_of_nil in Hc.
Qed.

Lemma resolve_children nodes t :
  tree_inv t → (∀ d, 0 < d < length t → d ∈ nodes) →
  ∀ a x, x ∈ points (resolve nodes t) a ↔
         x ∈ points t a ∧ ∀ c, parent_of t c = Some a → x ∉ points t c.
Proof.
  intros Hinv Hall a x. pose proof (inv_wf _ Hinv) as Hwf.
  rewrite resolve_spec by done. split; intros [Hx Hn]; (split; [done|]).
  - intros c Hc. apply Hn. by apply parent_ancestor.
  - intros d Hd Hxd. destruct (descendant_in_child t a d Hinv Hd) as (c & Hc & Hsub).
    apply (Hn c Hc). by apply Hsub.
Qed.

Lemma resolve_disjoint nodes t :
  tree_inv t → (∀ d, 0 < d < length t → d ∈ nodes) →
  ∀ i j, i ≠ j → points (resolve nodes t) i ## points (resolve nodes t) j.
Proof.
  intros Hinv Hall i j Hij x Hi Hj. pose proof (inv_wf _ Hinv) as Hwf.
  destruct (resolve_inv nodes t Hwf) as (Hs & H1 & _ & H3).
  assert (∀ a d, a ∈ ancestors t d →
    points (resolve nodes t) d ## points (resolve nodes t) a) as Hrel.
  { intros a d Ha. apply H3; [|done]. apply Hall.
    pose proof (ancestors_lt _ _ _ Hwf Ha).
    pose proof (ancestors_lt_length _ _ _ Hwf Ha). lia. }
  destruct (decide (i ∈ ancestors t j)) as [Ha|Ha].
  { by apply (Hrel i j Ha x). }
  destruct (decide (j ∈ ancestors t i)) as [Hb|Hb].
  { by apply (Hrel j i Hb x). }
  apply (unrelated_disjoint t i j Hinv Hij Ha Hb x); by apply H1.
Qed.

(** A point of a node is, after the pass, in the node or in a node below. *)
Lemma resolve_conserves nodes t a x :
  wf t → x ∈ points t a →
  ∃ b, (b = a ∨ a ∈ ancestors t b) ∧ x ∈ points (resolve nodes t) b.
Proof.
  intros Hwf. destruct (resolve_inv nodes t Hwf) as (_ & _ & H2 & _).
  remember (length t - a) as m eqn:Hm. revert a Hm.
  induction (lt_wf m) as [m _ IH]. intros a -> Hx.
  destruct (decide (x ∈ points (resolve nodes t) a)) as [Hin|Hnin].
  { exists a. by split; [left|]. }
  destruct (H2 a x Hx Hnin) as (d & Hd & Hxd).
  pose proof (ancestors_lt _ _ _ Hwf Hd).
  pose proof (ancestors_lt_length _ _ _ Hwf Hd).
  destruct (IH (length t - d)) with (a := d) as (b & Hb & Hxb); [lia|done..|].
  exists b. split; [|done]. right. destruct Hb as [->|Hb]; [done|].
  by eapply ancestors_trans.
Qed.

Lemma resolve_NoDup nodes t j :
  wf t → NoDup (points t j) → NoDup (points (resolve nodes t) j).
Proof.
  intros Hwf Hnd. destruct (resolve_touched nodes t j Hwf) as [H1 H2].
  destruct (decide (Exists (λ d, j ∈ ancestors t d) nodes)) as [He|He].
  - by apply H2.
  - apply not_Exists_Forall in He; [|apply _]. cbv zeta in H1. by rewrite H1.
Qed.

Lemma deepest_first_all t : wf t → ∀ d, 0 < d < length t → d ∈ deepest_first t.
Proof.
  intros Hwf d Hd. apply elem_of_sorted. by apply elem_of_descendants_root.
Qed.
End resolution_more.

Section remove_eq.
Context `{!SetOrder} {F : Type}.
Implicit Types (σ : @state F).
Local Abbreviation tree σ := (progressive_clustering (self σ)).

Lemma remove_child_cluster_points_from_parents_eq σ :
  remove_child_cluster_points_from_parents σ
  = Return () (mkState (set_progressive_clustering
       (resolve (deepest_first (tree σ)) (tree σ)) (self σ)) (calls σ)).
Proof.
  unfold remove_child_cluster_points_from_parents, mbind, M_bind, get_self.
  apply remove_in_order_eq.
Qed.
End remove_eq.

(** ** Indices of the matrix *)

Section valid.
Context `{!SetOrder}.
Implicit Types (t : list Node).

Lemma valid_points_root n : valid_points n [mkNode "" [] None].
Proof.
  intros [|[|j]]; (split; [constructor|]); by intros x ?%elem_of_nil.
Qed.

Lemma valid_points_app n t pts labels b ids children :
  valid_points n t → NoDup pts → (∀ x, x ∈ pts → x < n) →
  grown pts labels b ids children →
  valid_points n (t ++ children).
Proof.
  intros Hv Hnd Hlt Hg j.
  destruct (decide (j < length t)) as [Hj|Hj].
  { rewrite points_app_l by done. apply Hv. }
  destruct (children !! (j - length t)) as [nd|] eqn:E.
  - replace j with (length t + (j - length t)) by lia.
    rewrite (points_app_r _ _ _ _ E).
    destruct (grown_lookup _ _ _ _ _ _ _ Hg E) as (i & l & _ & Hl & ->). simpl.
    split; [by eapply child_points_NoDup|].
    intros x (k & _ & Hk)%(child_points_elem _ _ _ _ x Hl).
    apply Hlt. by eapply list_elem_of_lookup_2.
  - apply lookup_ge_None_1 in E. rewrite points_ge by (rewrite length_app; lia).
    split; [constructor|]. by intros x ?%elem_of_nil.
Qed.

Lemma valid_points_subtract n c a t :
  valid_points n t → valid_points n (subtract c a t).
Proof.
  intros Hv j. destruct (decide (j = a)) as [->|Hne].
  - split; [apply points_subtract_NoDup|].
    intros x [Hx _]%elem_of_points_subtract. by apply (Hv a).
  - rewrite points_subtract_ne by done. apply Hv.
Qed.

Lemma valid_points_resolve n nodes t :
  valid_points n t → valid_points n (resolve nodes t).
Proof.
  unfold resolve. revert t. induction nodes as [|c nodes IH]; intros t Hv; simpl; [done|].
  apply IH. unfold resolve_node. generalize (ancestors t c). intros ancs.
  revert t Hv. induction ancs as [|a ancs IHa]; intros t Hv; simpl; [done|].
  by apply IHa, valid_points_subtract.
Qed.
End valid.

Section valid_runs.
Context `{!SetOrder} {F : Type}.
Context (half : F → F).
Context (dbscan : list (list F) → F → Z → exn + list Z).
Implicit Types (σ : @state F) (t : list Node).

Local Abbreviation tree σ := (progressive_clustering (self σ)).

Lemma wp_and {A} (m : @M F A) σ Qr Qe (Qr' : A → state → Prop) Qe' :
  wp m σ Qr Qe → wp m σ Qr' Qe' →
  wp m σ (λ a σ', Qr a σ' ∧ Qr' a σ') (λ e σ', Qe e σ' ∧ Qe' e σ').
Proof. unfold wp. by destruct (m σ). Qed.

Lemma run_dbscan_on_node_valid n points_idx new_eps parent_node σ :
  valid_points n (tree σ) → NoDup points_idx → (∀ x, x ∈ points_idx → x < n) →
  wp (run_dbscan_on_node dbscan points_idx new_eps parent_node) σ
    (λ _ σ', valid_points n (tree σ')) (λ _ σ', valid_points n (tree σ')).
Proof.
  intros Hv Hnd Hlt.
  eapply wp_mono; [apply run_dbscan_on_node_grows|..]; simpl.
  - intros [] σ' (labels & ids & children & m & cs & _ & Hg & _ & _ & ->).
    simpl. by eapply valid_points_app.
  - intros _ σ' (labels & ids & children & m & cs & _ & Hg & _ & _ & ->).
    simpl. by eapply valid_points_app.
Qed.

Lemma fit_loop_valid n fuel max_depth d e σ :
  valid_points n (tree σ) →
  wp (fit_loop dbscan fuel max_depth d e) σ
    (λ _ σ', valid_points n (tree σ')) (λ _ σ', valid_points n (tree σ')).
Proof.
  revert d e σ. induction fuel as [|fuel IH]; intros d e σ Hv; [done|].
  simpl. destruct (reaches d max_depth); [by apply wp_ret|].
  apply wp_bind, wp_get_self. destruct (decide _); [by apply wp_ret|].
  apply wp_bind.
  eapply wp_mono; [apply (wp_for_each (λ _ σ', valid_points n (tree σ')) _ _ _
    (λ _ σ', valid_points n (tree σ')))|..].
  - done.
  - intros _ b _ σ1 _ Hv1. apply wp_bind, wp_get_self.
    apply run_dbscan_on_node_valid; [done|apply Hv1..].
  - intros [] σ1 Hv1. simpl. by apply IH.
  - done.
Qed.

Lemma grow_valid fuel max_depth σ :
  valid_points (n_points (self σ)) (tree σ) →
  wp (grow dbscan fuel max_depth) σ
    (λ _ σ', valid_points (n_points (self σ)) (tree σ'))
    (λ _ σ', valid_points (n_points (self σ)) (tree σ')).
Proof.
  intros Hv. unfold grow. apply wp_bind, wp_get_self, wp_bind.
  eapply wp_mono; [apply run_dbscan_on_node_valid|..]; simpl.
  - done.
  - apply NoDup_seq.
  - intros x Hx%elem_of_seq. lia.
  - intros [] σ1 Hv1. by apply fit_loop_valid.
  - done.
Qed.

Lemma fit_valid fuel max_depth σ r σ' :
  valid_points (n_points (self σ)) (tree σ) →
  fit dbscan fuel max_depth σ = Return r σ' →
  valid_points (n_points (self σ)) (tree σ')
  ∧ Forall (λ cluster, NoDup cluster ∧ ∀ x, x ∈ cluster → x < n_points (self σ)) r.
Proof.
  intros Hv. rewrite fit_eq. pose proof (grow_valid fuel max_depth σ Hv) as Hw.
  unfold wp in Hw. destruct (grow _ _ _ _) as [[] σ1|e σ1|]; [|done..].
  intros [= <- <-].
  assert (valid_points (n_points (self σ)) (tree (finish σ1))) as Hv'.
  { simpl. by apply valid_points_resolve. }
  split; [done|]. apply Forall_forall.
  intros cluster (node & -> & _)%list_elem_of_fmap. apply Hv'.
Qed.
End valid_runs.

(** ** Where exceptions come from *)

Section failures.
Context `{!SetOrder} {F : Type}.
Context (dbscan : list (list F) → F → Z → exn + list Z).
Implicit Types (σ : @state F) (t : list Node) (s : @VariousDBSCAN F).

Local Abbreviation tree σ := (progressive_clustering (self σ)).

Lemma run_dbscan_on_node_raised points_idx new_eps parent_node σ :
  wp (run_dbscan_on_node dbscan points_idx new_eps parent_node) σ
    (λ _ _, True) (λ e σ', raised_by dbscan (self σ) (calls σ') e).
Proof.
  unfold wp. rewrite run_dbscan_on_node_unfold. cbv zeta.
  destruct (submatrix _ _) as [e|d] eqn:Ed.
  { left. by apply submatrix_inl in Ed as [-> _]. }
  destruct (dbscan d new_eps _) as [e|labels] eqn:El.
  { right. right. by eexists _, _, d. }
  destruct (py_max labels) as [e|top] eqn:Et.
  { right. left. destruct labels; [|done]. by injection Et as <-. }
  pose proof (children_loop points_idx labels parent_node
    (mkCall points_idx new_eps parent_node) (range (top + 1)) σ) as Hw.
  unfold wp in Hw. destruct (for_each _ _ _) as [[] σ'|e σ'|]; [done| |done].
  destruct Hw as (_ & i & _ & _ & _ & _ & [-> _]%child_points_inl & _). by left.
Qed.

Lemma grew_fields b σ σ' :
  grew b σ σ' →
  distance_matrix (self σ') = distance_matrix (self σ)
  ∧ epsilon (self σ') = epsilon (self σ)
  ∧ min_points (self σ') = min_points (self σ)
  ∧ n_points (self σ') = n_points (self σ)
  ∧ update_epsilon_func (self σ') = update_epsilon_func (self σ)
  ∧ clusters (self σ') = clusters (self σ).
Proof. by intros (? & ? & ? & -> & _). Qed.

Lemma run_dbscan_on_node_grew_raised points_idx new_eps parent_node σ0 σ :
  grew true σ0 σ →
  wp (run_dbscan_on_node dbscan points_idx new_eps parent_node) σ
    (λ _ σ', grew true σ0 σ')
    (λ e σ', grew false σ0 σ' ∧ raised_by dbscan (self σ0) (calls σ') e).
Proof.
  intros Hg. destruct (grew_fields _ _ _ Hg) as (Hdm & _ & Hmp & _).
  eapply wp_mono; [apply wp_and; [apply run_dbscan_on_node_grew|
    apply run_dbscan_on_node_raised]|..]; simpl.
  - intros _ σ' [Hg' _]. by eapply grew_trans.
  - intros e σ' [Hg' Hr]. split.
    + eapply grew_trans; [by apply grew_weaken|done].
    + unfold raised_by in *. by rewrite <-Hdm, <-Hmp.
Qed.

Lemma fit_loop_grew_raised fuel max_depth d e σ0 σ :
  grew true σ0 σ →
  wp (fit_loop dbscan fuel max_depth d e) σ
    (λ _ σ', grew true σ0 σ')
    (λ e σ', grew false σ0 σ' ∧ raised_by dbscan (self σ0) (calls σ') e).
Proof.
  revert d e σ. induction fuel as [|fuel IH]; intros d e σ Hg; [done|].
  simpl. destruct (reaches d max_depth); [by apply wp_ret|].
  apply wp_bind, wp_get_self. destruct (decide _); [by apply wp_ret|].
  apply wp_bind.
  eapply wp_mono; [apply (wp_for_each (λ _ σ', grew true σ0 σ') _ _ _
    (λ e σ', grew false σ0 σ' ∧ raised_by dbscan (self σ0) (calls σ') e))|..].
  - done.
  - intros _ b _ σ1 _ Hg1. apply wp_bind, wp_get_self.
    by apply run_dbscan_on_node_grew_raised.
  - intros [] σ1 Hg1. simpl. by apply IH.
  - done.
Qed.

Lemma grow_grew_raised fuel max_depth σ :
  wp (grow dbscan fuel max_depth) σ
    (λ _ σ', grew true σ σ')
    (λ e σ', grew false σ σ' ∧ raised_by dbscan (self σ) (calls σ') e).
Proof.
  unfold grow. apply wp_bind, wp_get_self, wp_bind.
  eapply wp_mono; [apply run_dbscan_on_node_grew_raised, grew_refl|..]; simpl.
  - intros [] σ1 Hg1. by apply fit_loop_grew_raised.
  - done.
Qed.
End failures.

(** ** Lists, sorting and the children of a node *)

Section lists.
Context {A : Type}.

Lemma filter_ext_in (P Q : A → Prop) `{∀ x, Decision (P x), ∀ x, Decision (Q x)} (l : list A) :
  (∀ x, x ∈ l → P x ↔ Q x) → filter P l = filter Q l.
Proof.
  induction l as [|x l IH]; intros Hl; [done|].
  rewrite !filter_cons, IH by (intros; apply Hl; by right).
  destruct (decide (P x)) as [HP|HP], (decide (Q x)) as [HQ|HQ]; try done.
  - destruct HQ. apply Hl; [by left|done].
  - destruct HP. apply Hl; [by left|done].
Qed.

Lemma filter_all (P : A → Prop) `{∀ x, Decision (P x)} (l : list A) :
  Forall P l → filter P l = l.
Proof.
  induction 1 as [|x l Hx Hl IH]; [done|]. by rewrite filter_cons_True, IH.
Qed.

Lemma filter_none (P : A → Prop) `{∀ x, Decision (P x)} (l : list A) :
  Forall (λ x, ¬ P x) l → filter P l = [].
Proof.
  induction 1 as [|x l Hx Hl IH]; [done|]. by rewrite filter_cons_False.
Qed.

Lemma filter_comm (P Q : A → Prop) `{∀ x, Decision (P x), ∀ x, Decision (Q x)} (l : list A) :
  filter P (filter Q l) = filter Q (filter P l).
Proof.
  induction l as [|x l IH]; [done|]. rewrite !filter_cons.
  destruct (decide (Q x)), (decide (P x)); rewrite ?filter_cons;
    repeat case_decide; try done; by rewrite IH.
Qed.

Lemma fmap_filter {B} (f : A → B) (P : B → Prop) `{∀ y, Decision (P y)} (l : list A) :
  f <$> filter (λ x, P (f x)) l = filter P (f <$> l).
Proof.
  induction l as [|x l IH]; [done|]. rewrite fmap_cons, !filter_cons.
  destruct (decide (P (f x))); by rewrite ?fmap_cons, IH.
Qed.

Lemma StronglySorted_all (R : relation A) (l : list A) :
  (∀ x y, x ∈ l → y ∈ l → R x y) → StronglySorted R l.
Proof.
  induction l as [|x l IH]; intros HR; constructor.
  - apply IH. intros y z ??. apply HR; by right.
  - apply Forall_forall. intros y ?. apply HR; [by left|by right].
Qed.
End lists.

Section sorted_more.
Context (key : nat → Z).

(** A list that is in order is left as it is. *)
Lemma sorted_id xs :
  StronglySorted (λ a b, (key a ≤ key b)%Z) xs → sorted key xs = xs.
Proof.
  induction 1 as [|x xs Hxs IH Hx]; [done|]. simpl. rewrite IH.
  destruct Hx as [|y l Hy _]; [done|]. simpl.
  by destruct (Z.leb_spec (key x) (key y)); [|lia].
Qed.

(** The sort is stable: elements with the same key keep their order. *)
Lemma insert_by_filter_key k x l :
  filter (λ y, key y = k) (insert_by key x l) = filter (λ y, key y = k) (x :: l).
Proof.
  induction l as [|y l IH]; [done|]. simpl.
  destruct (Z.leb_spec (key x) (key y)) as [|Hlt]; [done|].
  rewrite filter_cons, IH, !filter_cons.
  destruct (decide (key y = k)), (decide (key x = k)); try done. lia.
Qed.

Lemma sorted_filter_key k xs :
  filter (λ y, key y = k) (sorted key xs) = filter (λ y, key y = k) xs.
Proof.
  induction xs as [|x xs IH]; [done|]. simpl.
  by rewrite insert_by_filter_key, !filter_cons, IH.
Qed.
End sorted_more.

Section tree_more.
Implicit Types (t : list Node) (i j p a b c d k : nat).

Lemma children_of_app t new a b :
  Forall (λ n, parent n = Some b) new →
  children_of (t ++ new) a
  = children_of t a ++ (if decide (a = b) then seq (length t) (length new) else []).
Proof.
  intros Hnew. unfold children_of. rewrite length_app, seq_app, filter_app. f_equal.
  - apply filter_ext_in. intros j Hj%elem_of_seq.
    by rewrite parent_of_app_l by lia.
  - assert (∀ j, j ∈ seq (0 + length t) (length new) →
      parent_of (t ++ new) j = Some b) as Hb.
    { intros j Hj%elem_of_seq.
      destruct (lookup_lt_is_Some_2 new (j - length t)) as [n Hn]; [lia|].
      replace j with (length t + (j - length t)) by lia.
      rewrite (parent_of_app_r _ _ _ _ Hn).
      rewrite Forall_forall in Hnew. apply Hnew. by eapply list_elem_of_lookup_2. }
    destruct (decide (a = b)) as [->|Hne].
    + apply filter_all, Forall_forall. intros j Hj. by apply Hb.
    + apply filter_none, Forall_forall. intros j Hj. rewrite Hb by done. congruence.
Qed.

Lemma lookup_total_new t new :
  (λ j, (t ++ new) !!! j) <$> seq (length t) (length new) = new.
Proof.
  apply list_eq. intros i. rewrite list_lookup_fmap.
  destruct (decide (i < length new)) as [Hi|Hi].
  - rewrite lookup_seq_lt by done. simpl.
    destruct (lookup_lt_is_Some_2 new i Hi) as [n Hn]. rewrite Hn. f_equal.
    apply list_lookup_total_correct. rewrite lookup_app_r by lia.
    by replace (length t + i - length t) with i by lia.
  - rewrite lookup_seq_ge by lia. simpl. symmetry. apply lookup_ge_None_2. lia.
Qed.

(** The tree of the root and nodes attached to it. *)
Lemma flat_tree children :
  let t := [mkNode "" [] None] ++ children in
  Forall (λ n, parent n = Some 0) children →
  wf t
  ∧ descendants t 0 = seq 1 (length children)
  ∧ (∀ j, j ≠ 0 → children_of t j = [])
  ∧ (∀ j, 0 < j < length t → depth t j = 1).
Proof.
  intros t Hc.
  assert (wf t) as Hwf.
  { apply wf_app; [apply tree_inv_root|simpl; lia|].
    eapply Forall_impl; [done|]. simpl. intros n ->. exists 0. split; [done|lia]. }
  assert (∀ j, j ≠ 0 → children_of t j = []) as Hleaf.
  { intros j Hj. unfold t. rewrite (children_of_app _ _ _ 0 Hc).
    by rewrite decide_False. }
  split_and!; [done| |done|].
  - assert (children_of t 0 = seq 1 (length children)) as Hroot.
    { unfold t. rewrite (children_of_app _ _ _ 0 Hc), decide_True by done. done. }
    assert (length t = S (length children)) as Hlen.
    { unfold t. by rewrite length_app. }
    unfold descendants. rewrite Hlen.
    change (preorder (S (length children)) t 0)
      with (children_of t 0 ≫= λ c, c :: preorder (length children) t c).
    rewrite Hroot. generalize (length children). intros m.
    assert (∀ l, Forall (λ c, c ≠ 0) l →
      l ≫= (λ c, c :: preorder m t c) = l) as Hbind.
    { induction 1 as [|c l Hc0 Hl IH]; [done|]. rewrite bind_cons, IH.
      destruct m as [|m]; [done|].
      change (preorder (S m) t c) with (children_of t c ≫= λ c, c :: preorder m t c).
      by rewrite Hleaf. }
    apply Hbind, Forall_forall. intros c Hc0%elem_of_seq. lia.
  - intros j Hj. destruct (wf_parent_some _ Hwf j Hj) as [p Hp].
    assert (p = 0) as ->.
    { destruct (decide (p = 0)) as [|Hne]; [done|].
      apply elem_of_children_of in Hp. rewrite Hleaf in Hp by done.
      by apply elem_of_nil in Hp. }
    rewrite (depth_parent _ _ _ Hwf Hp), (depth_root _ 0 Hwf); done.
Qed.
End tree_more.

(** ** The calls of a run and what they leave in the tree *)

Section visits.
Context `{!SetOrder} {F : Type}.
Context (dbscan : list (list F) → F → Z → exn + list Z).
Implicit Types (σ : @state F) (t : list Node) (c : @call F) (s : @VariousDBSCAN F).

Local Abbreviation tree σ := (progressive_clustering (self σ)).

Lemma children_of_leaf t b : (∀ j, parent_of t j ≠ Some b) → children_of t b = [].
Proof.
  intros Hleaf. unfold children_of. apply filter_none, Forall_forall.
  intros j _. apply Hleaf.
Qed.

Lemma children_of_lt t a j : j ∈ children_of t a → j < length t.
Proof. intros Hj%elem_of_children_of. by eapply parent_of_lt_length. Qed.

Lemma call_done_app s t new b c :
  call_done dbscan s t c → call_parent c < length t → call_parent c ≠ b →
  Forall (λ n, parent n = Some b) new →
  call_done dbscan s (t ++ new) c.
Proof.
  intros (d & labels & top & children & Hd & Hl & Ht & Hg & Hch & Hpts) Ha Hne Hnew.
  exists d, labels, top, children. split_and!; [done..| |].
  - rewrite (children_of_app _ _ _ b Hnew), decide_False, app_nil_r by done.
    rewrite <-Hch. apply Forall_fmap_ext, Forall_forall.
    intros j Hj%children_of_lt. by rewrite lookup_total_app_l.
  - rewrite Hpts. destruct (decide _); [done|]. by rewrite points_app_l.
Qed.

Lemma grown_to_fields σ0 d σ :
  grown_to σ0 d σ →
  distance_matrix (self σ) = distance_matrix (self σ0)
  ∧ min_points (self σ) = min_points (self σ0)
  ∧ n_points (self σ) = n_points (self σ0).
Proof. by intros (? & ? & ? & -> & _). Qed.

(** One call that returns, on a leaf [b] of depth [d]. *)
Lemma visited_step σ0 d done σ b e dd labels top children :
  let pts := if decide (b = 0) then seq 0 (n_points (self σ0))
             else points (tree σ) b in
  visited dbscan σ0 d done σ →
  b < length (tree σ) → depth (tree σ) b = d → b ∉ done →
  (∀ j, j ∈ done → j < length (tree σ)) →
  (∀ j, parent_of (tree σ) j ≠ Some b) →
  submatrix (distance_matrix (self σ0)) pts = inr dd →
  dbscan dd e (min_points (self σ0)) = inr labels →
  py_max labels = inr top →
  grown pts labels b (range (top + 1)) children →
  wf (tree σ ++ children) →
  visited dbscan σ0 d (done ++ [b]) (grow_state children 1 [mkCall pts e b] σ).
Proof.
  intros pts (cs & Hcalls & Hcount & Hnd & Hcov & Hdone)
    Hb Hdb Hbdone Hdlt Hleaf Hdd Hl Ht Hg Hwf'.
  set (t := tree σ) in *.
  assert (Forall (λ n, parent n = Some b) children) as Hpar.
  { apply Forall_forall. intros n Hn. by apply (grown_subseteq _ _ _ _ _ n Hg). }
  assert (∀ j, length t ≤ j → j < length (t ++ children) →
    depth (t ++ children) j = S d) as Hnew.
  { intros j Hj1 Hj2. rewrite length_app in Hj2.
    destruct (lookup_lt_is_Some_2 children (j - length t)) as [n Hn]; [lia|].
    assert (parent_of (t ++ children) j = Some b) as Hp.
    { replace j with (length t + (j - length t)) by lia.
      rewrite (parent_of_app_r _ _ _ _ Hn).
      rewrite Forall_forall in Hpar. apply Hpar. by eapply list_elem_of_lookup_2. }
    rewrite (depth_parent _ _ _ Hwf' Hp), depth_app_l by done. by rewrite Hdb. }
  assert (b ∉ call_parent <$> cs) as Hbcs.
  { intros [_ [?|?]]%Hcov; [lia|done]. }
  exists (mkCall pts e b :: cs). split_and!.
  - simpl. by rewrite Hcalls.
  - simpl. lia.
  - rewrite fmap_cons. by constructor.
  - intros j. rewrite fmap_cons, elem_of_cons, Hcov. simpl. fold t.
    rewrite length_app, elem_of_app, list_elem_of_singleton. split.
    + intros [->|[Hj Hor]].
      * split; [lia|]. by right; right.
      * split; [lia|]. rewrite depth_app_l by done. tauto.
    + intros [Hj Hor]. destruct (decide (j = b)) as [|Hjb]; [by left|]. right.
      destruct (decide (j < length t)) as [Hlt|Hge].
      * split; [done|]. rewrite depth_app_l in Hor by done. tauto.
      * rewrite Hnew in Hor by (rewrite ?length_app; lia).
        destruct Hor as [?|[Hd%Hdlt|?]]; [lia|lia|done].
  - constructor.
    + exists dd, labels, top, children. simpl. fold t. split_and!; [done..| |].
      * rewrite (children_of_app _ _ _ b Hpar), decide_True by done.
        rewrite (children_of_leaf _ _ Hleaf). simpl. apply lookup_total_new.
      * unfold pts. destruct (decide (b = 0)); [done|]. by rewrite points_app_l.
    + rewrite Forall_forall in Hdone |- *. intros c Hc. simpl. fold t.
      assert (call_parent c ∈ call_parent <$> cs) as Hin.
      { apply list_elem_of_fmap. eauto. }
      apply (call_done_app _ _ _ b); [by apply Hdone| |by intros <-|done].
      by apply Hcov in Hin as [? _].
Qed.

Lemma depth_0 t : wf t → depth t 0 = 0.
Proof.
  intros Hwf. apply depth_root; [done|].
  destruct (parent_of t 0) as [p|] eqn:E; [|done].
  pose proof (wf_parent_lt _ Hwf _ _ E). lia.
Qed.

(** The round of depth [d] is over. *)
Lemma visited_next σ0 d done σ :
  visited dbscan σ0 d done σ →
  (∀ j, j < length (tree σ) → j ∈ done ↔ depth (tree σ) j = d) →
  visited dbscan σ0 (S d) [] σ.
Proof.
  intros (cs & Hcalls & Hcount & Hnd & Hcov & Hdone) Hiff.
  exists cs. split_and!; [done..| |done].
  intros j. rewrite Hcov. split.
  - intros [Hj [?|Hd%Hiff]]; (split; [done|left; lia]) || done.
  - intros [Hj [Hd|?%elem_of_nil]]; [|done]. split; [done|].
    destruct (decide (depth (tree σ) j = d)) as [Hd'|]; [|left; lia].
    right. by apply Hiff.
Qed.
End visits.

Section visits_loop.
Context `{!SetOrder} {F : Type}.
Context (dbscan : list (list F) → F → Z → exn + list Z).
Implicit Types (σ : @state F) (t : list Node) (c : @call F) (s : @VariousDBSCAN F).

Local Abbreviation tree σ := (progressive_clustering (self σ)).

Lemma next_nodes_spec t d j :
  wf t → 1 ≤ d →
  j ∈ filter (λ node, depth t node = d) (descendants t 0)
  ↔ j < length t ∧ depth t j = d.
Proof.
  intros Hwf Hd. rewrite list_elem_of_filter, elem_of_descendants_root by done. split.
  - intros [? ?]. split; [lia|done].
  - intros [Hj Hdj]. split; [done|]. split; [|done].
    destruct j; [|lia]. rewrite depth_0 in Hdj by done. lia.
Qed.

(** One round of the loop: the calls on the nodes of depth [d]. *)
Lemma round_visited σ0 d e σ :
  grown_to σ0 d σ → visited dbscan σ0 d [] σ → 1 ≤ d →
  e = Nat.iter d (update_epsilon_func (self σ0)) (epsilon (self σ0)) →
  wp (for_each
        (filter (λ node, depth (tree σ) node = d) (descendants (tree σ) 0))
        (λ bottom_node,
           s ← get_self;
           run_dbscan_on_node dbscan
             (clustered_points (progressive_clustering s !!! bottom_node))
             e bottom_node)) σ
    (λ _ σ', grown_to σ0 (S d) σ' ∧ visited dbscan σ0 (S d) [] σ')
    (λ _ _, True).
Proof.
  intros Hg Hv Hd e'. set (next_nodes := filter _ _).
  pose proof Hg as (_ & _ & _ & _ & _ & Hinv & Hdepth & _).
  pose proof (inv_wf _ Hinv) as Hwf.
  pose proof (λ j, next_nodes_spec (tree σ) d j Hwf Hd) as Hnn. fold next_nodes in Hnn.
  assert (NoDup next_nodes) as Hnd.
  { apply NoDup_filter, NoDup_descendants, Hwf. }
  eapply wp_mono; [apply (wp_for_each (λ done σ',
      grown_to σ0 (S d) σ'
      ∧ (∃ extra, tree σ' = tree σ ++ extra)
      ∧ (∀ j b, parent_of (tree σ') j = Some b → depth (tree σ') b = d → b ∈ done)
      ∧ visited dbscan σ0 d done σ'
      ∧ (∀ j, length (tree σ) ≤ j → j < length (tree σ') →
           depth (tree σ') j = S d))
      _ _ _ (λ _ _, True))| |done].
  - split_and!.
    + eapply grown_to_mono; [done|lia].
    + exists []. by rewrite app_nil_r.
    + intros j b Hp Hb. pose proof (parent_of_lt_length _ _ _ Hp) as Hj.
      specialize (Hdepth j Hj). rewrite (depth_parent _ _ _ Hwf Hp) in Hdepth. lia.
    + done.
    + intros; lia.
  - intros done b rest σ1 Hnext (Hg1 & [extra Hext] & Hdone & Hv1 & Hnew1).
    pose proof Hg1 as (_ & _ & _ & _ & _ & Hinv1 & _ & _).
    pose proof (inv_wf _ Hinv1) as Hwf1.
    assert (b ∈ next_nodes) as Hb.
    { rewrite Hnext. apply elem_of_app. right. by left. }
    apply Hnn in Hb as [Hb Hdb].
    assert (b < length (tree σ1)) as Hb1.
    { rewrite Hext, length_app. lia. }
    assert (depth (tree σ1) b = d) as Hdb1.
    { rewrite Hext in Hwf1 |- *. rewrite depth_app_l; [done..|lia]. }
    assert (b ∉ done) as Hbdone.
    { rewrite Hnext in Hnd. apply NoDup_app in Hnd as (_ & Hnd & _).
      intros Hin. apply (Hnd b Hin). by left. }
    assert (∀ j, j ∈ done → j < length (tree σ1)) as Hdlt.
    { intros j Hj. assert (j ∈ next_nodes) as [? _]%Hnn.
      { rewrite Hnext. apply elem_of_app. by left. }
      rewrite Hext, length_app. lia. }
    assert (b ≠ 0) as Hb0.
    { intros ->. rewrite depth_0 in Hdb by done. lia. }
    assert (∀ j, parent_of (tree σ1) j ≠ Some b) as Hleaf.
    { intros j Hj. by specialize (Hdone j b Hj Hdb1). }
    apply wp_bind, wp_get_self.
    eapply wp_mono; [apply run_dbscan_on_node_spec| |done].
    intros [] σ2 (dd & labels & top & children & Hdd & Hl & Ht & Hgr & ->).
    destruct (grown_to_fields _ _ _ Hg1) as (Hdm & Hmp & _).
    rewrite Hdm in Hdd. rewrite Hmp in Hl.
    set (c := mkCall _ _ _).
    destruct (grown_to_step σ0 d σ1 b _ _ labels (range (top + 1)) children 1 [c]
      Hg1 Hb1 Hdb1 Hleaf (inv_NoDup _ Hinv1 b) (λ _, reflexivity _)
      e' (NoDup_range _) Hgr (le_n 1) (or_intror eq_refl)) as [Hg2 Hnew].
    pose proof Hg2 as (_ & _ & _ & _ & _ & Hinv2 & _ & _).
    pose proof (inv_wf _ Hinv2) as Hwf2. simpl in Hwf2.
    split_and!; [done|..].
    + exists (extra ++ children). simpl. by rewrite Hext, (assoc_L (++)).
    + simpl. intros j b' Hp Hb'.
      pose proof (parent_of_lt_length _ _ _ Hp) as Hj.
      rewrite length_app in Hj. destruct (Hnew j Hj) as [Ho Hn'].
      destruct (decide (j < length (tree σ1))) as [Hlt|Hge].
      * apply elem_of_app. left. rewrite parent_of_app_l in Hp by done.
        apply (Hdone j b' Hp).
        pose proof (wf_parent_lt _ Hwf1 _ _ Hp).
        destruct (Hnew b') as [Hdb' _]; [lia|]. rewrite <-Hdb' by lia. done.
      * rewrite Hn' in Hp by lia. injection Hp as <-.
        apply elem_of_app. right. by left.
    + pose proof (visited_step dbscan σ0 d done σ1 b e dd labels top children) as Hstep.
      rewrite decide_False in Hstep by done. by apply Hstep.
    + simpl. intros j Hj1 Hj2. rewrite length_app in Hj2.
      destruct (Hnew j Hj2) as [Ho Hn'].
      destruct (decide (j < length (tree σ1))) as [Hlt|Hge].
      * rewrite Ho by done. by apply Hnew1.
      * rewrite (depth_parent _ j b) by auto with lia.
        rewrite depth_app_l by done. by rewrite Hdb1.
  - intros [] σ1 (Hg1 & [extra Hext] & _ & Hv1 & Hnew1). simpl.
    pose proof Hg1 as (_ & _ & _ & _ & _ & Hinv1 & Hdepth1 & _).
    pose proof (inv_wf _ Hinv1) as Hwf1. split; [done|].
    apply (visited_next _ _ _ next_nodes); [done|]. intros j Hj.
    rewrite Hnn. destruct (decide (j < length (tree σ))) as [Hlt|Hge].
    + rewrite Hext in Hwf1 |- *. rewrite depth_app_l by done. tauto.
    + rewrite Hnew1 by lia. split; [lia|]. lia.
Qed.

Lemma fit_loop_visited σ0 fuel max_depth d e σ :
  grown_to σ0 d σ → visited dbscan σ0 d [] σ → 1 ≤ d →
  e = Nat.iter (d - 1) (update_epsilon_func (self σ0)) (epsilon (self σ0)) →
  wp (fit_loop dbscan fuel max_depth d e) σ
    (λ _ σ', ∃ d', bounded max_depth d d' ∧ grown_to σ0 d' σ'
       ∧ visited dbscan σ0 d' [] σ' ∧ stops_at max_depth d' σ')
    (λ _ _, True).
Proof.
  revert d e σ. induction fuel as [|fuel IH]; intros d e σ Hg Hv Hd He; [done|].
  simpl. destruct (reaches d max_depth) eqn:Hr.
  { apply wp_ret. exists d. split_and!; [split; [done|intros; lia]|done..|by left]. }
  assert (bounded max_depth d (S d)) as Hbd.
  { split; [lia|]. intros k ->. simpl in Hr. lia. }
  apply wp_bind, wp_get_self.
  set (next_nodes := filter _ _).
  pose proof Hg as (_ & _ & _ & _ & _ & Hinv & Hdepth & _).
  pose proof (inv_wf _ Hinv) as Hwf.
  pose proof (λ j, next_nodes_spec (tree σ) d j Hwf Hd) as Hnn. fold next_nodes in Hnn.
  destruct (decide (length next_nodes = 0)) as [Hnil|_].
  { apply wp_ret. exists d. split_and!; [split; [done|intros; lia]|done..|right].
    intros j Hj. specialize (Hdepth j Hj).
    destruct (decide (depth (tree σ) j = d)) as [Hdj|]; [|lia].
    assert (j ∈ next_nodes) as Hin by (by apply Hnn).
    destruct next_nodes; [by apply elem_of_nil in Hin|done]. }
  assert (e' : update_epsilon_func (self σ) e
    = Nat.iter d (update_epsilon_func (self σ0)) (epsilon (self σ0))).
  { rewrite (grown_to_update _ _ _ Hg), He. clear -Hd.
    destruct d as [|d]; [lia|]. simpl. by rewrite Nat.sub_0_r. }
  apply wp_bind.
  eapply wp_mono; [by apply (round_visited σ0 d)| |done].
  intros [] σ1 [Hg1 Hv1]. simpl.
  eapply wp_mono; [apply (IH (d + 1)); [by rewrite Nat.add_1_r|
    by rewrite Nat.add_1_r|lia| ]|..].
  - rewrite e'. by replace (d + 1 - 1) with d by lia.
  - intros [] σ2 (d' & [Hd1 Hd2] & Hg2 & Hv3 & Hs). exists d'.
    split_and!; [|done..].
    destruct Hbd as [_ Hbd]. split; [lia|]. intros k Hk.
    specialize (Hd2 k Hk). specialize (Hbd k Hk). lia.
  - done.
Qed.
End visits_loop.

Section new_instance.
Context `{!SetOrder} {F : Type}.
Context (half : F → F).
Context (dbscan : list (list F) → F → Z → exn + list Z).
Implicit Types (σ : @state F) (t : list Node) (s : @VariousDBSCAN F).

Local Abbreviation tree σ := (progressive_clustering (self σ)).

Lemma init_fields dm eps mp upd s0 :
  __init__ half dm eps mp upd = inr s0 →
  s0 = mkVariousDBSCAN dm eps (int_value mp) (length dm) [mkNode "" [] None] None
         (default half upd) 0.
Proof.
  unfold __init__. destruct (_ && _); [|done]. intros [= <-]. by destruct upd.
Qed.

Lemma range_nonpos n : (n ≤ 0)%Z → range n = [].
Proof. intros Hn. unfold range. by replace (Z.to_nat n) with 0 by lia. Qed.

(** The result when the loop of [fit] is not entered. *)
Lemma fit_first_call_only fuel max_depth σ σ1 :
  run_dbscan_on_node dbscan (seq 0 (n_points (self σ))) (epsilon (self σ)) 0 σ
    = Return () σ1 →
  fit_loop dbscan fuel max_depth 1 (epsilon (self σ)) σ1 = Return () σ1 →
  fit dbscan fuel max_depth σ = Return (result σ1) (finish σ1).
Proof.
  intros Hrun Hloop. rewrite fit_eq. unfold grow, mbind, M_bind, get_self.
  by rewrite Hrun, Hloop.
Qed.
End new_instance.

Section visits_fit.
Context `{!SetOrder} {F : Type}.
Context (half : F → F).
Context (dbscan : list (list F) → F → Z → exn + list Z).
Implicit Types (σ : @state F) (t : list Node) (c : @call F) (s : @VariousDBSCAN F).

Local Abbreviation tree σ := (progressive_clustering (self σ)).

Lemma visited_fresh σ0 : visited dbscan σ0 0 [] σ0.
Proof.
  exists []. split_and!; [done|simpl; lia|constructor| |constructor].
  intros j. simpl. split; [by intros ?%elem_of_nil|].
  intros [_ [?|?%elem_of_nil]]; [lia|done].
Qed.

(** The call on the whole point set, on a new instance. *)
Lemma first_call_visited σ0 :
  fresh σ0 →
  wp (run_dbscan_on_node dbscan (seq 0 (n_points (self σ0))) (epsilon (self σ0)) 0) σ0
    (λ _ σ1, grown_to σ0 1 σ1 ∧ visited dbscan σ0 1 [] σ1)
    (λ _ _, True).
Proof.
  intros Hf. pose proof (grown_to_fresh _ Hf) as Hg0.
  assert (grown_to σ0 1 σ0) as Hg1 by (eapply grown_to_mono; [done|lia]).
  unfold fresh in Hf.
  eapply wp_mono; [apply run_dbscan_on_node_spec| |done].
  intros [] σa (dd & labels & top & children & Hdd & Hl & Ht & Hgr & ->).
  set (c := mkCall _ _ _).
  assert (0 < length (tree σ0)) as Hlen by (rewrite Hf; simpl; lia).
  assert (depth (tree σ0) 0 = 0) as Hd0 by (by rewrite Hf).
  assert (∀ j, parent_of (tree σ0) j ≠ Some 0) as Hleaf.
  { rewrite Hf. by intros [|[|j]]. }
  destruct (grown_to_step σ0 0 σ0 0 (seq 0 (n_points (self σ0)))
    (epsilon (self σ0)) labels (range (top + 1)) children 1 [c]
    Hg1 Hlen Hd0 Hleaf (NoDup_seq _ _) (λ H, False_ind _ (H eq_refl))
    eq_refl (NoDup_range _) Hgr (le_n 1) (or_intror eq_refl)) as [Hg2 Hnew].
  pose proof Hg2 as (_ & _ & _ & _ & _ & Hinv2 & _ & _).
  pose proof (inv_wf _ Hinv2) as Hwf2. simpl in Hwf2.
  pose proof (visited_step dbscan σ0 0 [] σ0 0 (epsilon (self σ0))
    dd labels top children) as Hstep.
  rewrite decide_True in Hstep by done. cbv zeta in Hstep.
  specialize (Hstep (visited_fresh σ0) Hlen Hd0).
  split; [done|].
  apply (visited_next _ _ _ ([] ++ [0])).
  - apply Hstep; try done. by intros ?%elem_of_nil. by intros j ?%elem_of_nil.
  - simpl. intros j Hj. rewrite list_elem_of_singleton.
    rewrite length_app in Hj. destruct (Hnew j Hj) as [Ho Hn].
    destruct (decide (j < length (tree σ0))) as [Hlt|Hge].
    + rewrite Hf in Hlt. simpl in Hlt. assert (j = 0) as -> by lia.
      rewrite Ho by lia. done.
    + rewrite (depth_parent _ j 0) by auto with lia. rewrite Hf in Hge.
      simpl in Hge. split; [lia|done].
Qed.

Lemma grow_visited fuel max_depth σ0 :
  fresh σ0 →
  wp (grow dbscan fuel max_depth) σ0
    (λ _ σ1, ∃ d', bounded max_depth 1 d' ∧ grown_to σ0 d' σ1
       ∧ visited dbscan σ0 d' [] σ1 ∧ stops_at max_depth d' σ1)
    (λ _ _, True).
Proof.
  intros Hf. unfold grow. apply wp_bind, wp_get_self, wp_bind.
  eapply wp_mono; [by apply first_call_visited| |done].
  intros [] σa [Hg Hv]. simpl.
  eapply wp_mono; [by apply (fit_loop_visited dbscan σ0)|done..].
Qed.

(** The state in which [fit] returns on a new instance, from the one in
    which the tree was complete. *)
Lemma fit_fresh_visited dm eps mp upd s0 fuel max_depth r σ' :
  __init__ half dm eps mp upd = inr s0 →
  fit dbscan fuel max_depth (start s0) = Return r σ' →
  ∃ d' σ1, bounded max_depth 1 d' ∧ grown_to (start s0) d' σ1
    ∧ visited dbscan (start s0) d' [] σ1 ∧ stops_at max_depth d' σ1
    ∧ σ' = finish σ1 ∧ r = result σ1
    ∧ (∃ children, tree σ1 = [mkNode "" [] None] ++ children).
Proof.
  intros Hinit. pose proof (init_fields half _ _ _ _ _ Hinit) as Hs0.
  rewrite fit_eq. pose proof (grow_visited fuel max_depth (start s0)) as Hw.
  unfold wp in Hw. destruct (grow _ _ _ _) as [[] σ1|e σ1|]; [|done..].
  intros [= <- <-]. destruct Hw as (d' & Hb & Hg & Hv & Hs); [by rewrite Hs0|].
  exists d', σ1. split_and!; [done..|].
  clear Hv Hs. destruct Hg as (children & n & cs & -> & _). exists children.
  by rewrite Hs0.
Qed.

(** The children of the node of a call hold the points to which the
    primitive gave a cluster. *)
Lemma call_done_children s t c :
  call_done dbscan s t c →
  ∃ d labels,
    submatrix (distance_matrix s) (call_points c) = inr d
    ∧ dbscan d (call_eps c) (min_points s) = inr labels
    ∧ call_points c =
        (if decide (call_parent c = 0) then seq 0 (n_points s)
         else points t (call_parent c))
    ∧ ∀ x, (∃ j, parent_of t j = Some (call_parent c) ∧ x ∈ points t j)
           ↔ ∃ k l, call_points c !! k = Some x ∧ labels !! k = Some l
                    ∧ (0 ≤ l)%Z.
Proof.
  intros (d & labels & top & children & Hd & Hl & Ht & Hg & Hch & Hpts).
  exists d, labels. split_and!; [done..|]. intros x. split.
  - intros (j & Hj%elem_of_children_of & Hx).
    assert (t !!! j ∈ children) as [m Hm]%list_elem_of_lookup_1.
    { rewrite <-Hch. apply list_elem_of_fmap. eauto. }
    destruct (grown_lookup _ _ _ _ _ _ _ Hg Hm) as (i & l & Hi & Hc & Hn).
    unfold points in Hx. rewrite Hn in Hx. simpl in Hx.
    apply (child_points_elem _ _ _ _ x Hc) in Hx as (k & Hk & Hkx).
    exists k, i. split_and!; [done..|].
    apply list_elem_of_lookup_2, elem_of_range in Hi. lia.
  - intros (k & l & Hkx & Hk & Hl0).
    apply py_max_inr in Ht as [_ Hle]. rewrite Forall_forall in Hle.
    assert (l ∈ range (top + 1)) as [m Hm]%list_elem_of_lookup_1.
    { apply elem_of_range. split; [done|].
      specialize (Hle l (list_elem_of_lookup_2 _ _ _ Hk)). lia. }
    destruct (Forall2_lookup_l _ _ _ _ _ Hg Hm) as (n & Hn & pl & Hc & ->).
    assert (mkNode (str l) pl (Some (call_parent c)) ∈
      (λ j, t !!! j) <$> children_of t (call_parent c)) as Hin.
    { rewrite Hch. by eapply list_elem_of_lookup_2. }
    apply list_elem_of_fmap in Hin as (j & Hj & Hjc%elem_of_children_of).
    exists j. split; [done|]. unfold points. rewrite <-Hj. simpl.
    apply (child_points_elem _ _ _ _ x Hc). eauto.
Qed.
End visits_fit.

Section names.
Context `{!SetOrder} {F : Type}.
Context (dbscan : list (list F) → F → Z → exn + list Z).
Implicit Types (t : list Node) (c : @call F) (s : @VariousDBSCAN F).

Lemma str_inj i j : (0 ≤ i)%Z → (0 ≤ j)%Z → str i = str j → i = j.
Proof.
  intros Hi Hj Hs. unfold str in Hs.
  assert (N.to_uint (Z.to_N i) = N.to_uint (Z.to_N j)) as Hu.
  { apply (f_equal NilEmpty.uint_of_string) in Hs.
    rewrite !NilEmpty.usu in Hs. congruence. }
  apply DecimalN.Unsigned.to_uint_inj in Hu. lia.
Qed.

Lemma call_done_name s t c m j :
  call_done dbscan s t c → children_of t (call_parent c) !! m = Some j →
  name (t !!! j) = str (Z.of_nat m).
Proof.
  intros (d & labels & top & children & _ & _ & _ & Hgr & Hch & _) Hm.
  assert (children !! m = Some (t !!! j)) as Hn.
  { by rewrite <-Hch, list_lookup_fmap, Hm. }
  destruct (grown_lookup _ _ _ _ _ _ _ Hgr Hn) as (i & l & Hi & _ & ->).
  by apply range_lookup in Hi as ->.
Qed.

Lemma depth_0_inv t j : wf t → j < length t → depth t j = 0 → j = 0.
Proof.
  intros Hwf Hj Hd. destruct (decide (j = 0)) as [|Hne]; [done|].
  destruct (wf_parent_some _ Hwf j) as [p Hp]; [lia|].
  rewrite (depth_parent _ _ _ Hwf Hp) in Hd. lia.
Qed.
End names.

(** ** Overlap resolution, run again *)

Section twice.
Context `{!SetOrder}.
Implicit Types (t : list Node).

(** The pass run again on its own result changes no node's set of points. *)
Lemma resolve_twice t :
  wf t →
  let t1 := resolve (deepest_first t) t in
  tree_equiv t1 (resolve (deepest_first t1) t1).
Proof.
  intros Hwf t1.
  destruct (resolve_inv (deepest_first t) t Hwf) as (Hs & _ & _ & H3). fold t1 in Hs, H3.
  pose proof (same_shape_wf _ _ Hs Hwf) as Hwf1.
  split; [apply resolve_same_shape|]. intros j.
  destruct (resolve_touched (deepest_first t1) t1 j Hwf1) as [Hu Ht].
  destruct (decide (Exists (λ d, j ∈ ancestors t1 d) (deepest_first t1))) as [He|He];
    last first.
  { apply not_Exists_Forall in He; [|apply _]. cbv zeta in Hu. by rewrite Hu. }
  apply NoDup_Permutation.
  - apply (resolve_touched (deepest_first t) t j Hwf).
    apply Exists_exists in He as (d & Hd & Hj). apply Exists_exists. exists d.
    rewrite (same_shape_ancestors t t1 d Hs). split; [|done].
    apply elem_of_sorted. rewrite (same_shape_descendants t t1 0 Hs).
    by apply elem_of_sorted in Hd.
  - by apply Ht.
  - intros x. rewrite (resolve_spec (deepest_first t1) t1 Hwf1 (deepest_first_all _ Hwf1)).
    split; [|by intros [? _]]. intros Hx. split; [done|]. intros d Hd Hxd.
    rewrite <-(same_shape_ancestors t t1 d Hs) in Hd.
    apply (H3 d j) with x; [|done..]. apply deepest_first_all; [done|].
    pose proof (ancestors_lt _ _ _ Hwf Hd).
    pose proof (ancestors_lt_length _ _ _ Hwf Hd). lia.
Qed.
End twice.

(** ** Runs that end, and runs that do not *)

Section quiet.
Context `{!SetOrder} {F : Type}.
Context (dbscan : list (list F) → F → Z → exn + list Z).
Implicit Types (σ : @state F) (t : list Node) (c : @call F) (s : @VariousDBSCAN F).

Local Abbreviation tree σ := (progressive_clustering (self σ)).

(** A node has an ancestor, or is itself, at each depth up to its own. *)
Lemma node_at_depth t j k :
  wf t → j < length t → k ≤ depth t j →
  ∃ a, a < length t ∧ depth t a = k.
Proof.
  intros Hwf Hj Hk. destruct (decide (k = depth t j)) as [->|Hne]; [by exists j|].
  destruct (lookup_lt_is_Some_2 (ancestors t j) k) as [a Ha]; [unfold depth in *; lia|].
  exists a. split.
  - pose proof (ancestors_lt _ _ _ Hwf (list_elem_of_lookup_2 _ _ _ Ha)). lia.
  - unfold depth at 1. rewrite (ancestors_lookup_take _ _ _ _ Hwf Ha).
    rewrite length_take. apply lookup_lt_Some in Ha. lia.
Qed.

(** Below the level at which the primitive finds nothing, the tree has no
    node. *)
Lemma quiet_no_deeper σ0 d σ k :
  grown_to σ0 d σ → visited dbscan σ0 d [] σ → calls σ0 = [] →
  quiet_at dbscan (self σ0)
    (Nat.iter k (update_epsilon_func (self σ0)) (epsilon (self σ0))) →
  ∀ j, j < length (tree σ) → depth (tree σ) j ≤ k.
Proof.
  intros Hg (cs & Hcalls & _ & _ & Hcov & Hdone) Hnil Hq j Hj.
  destruct Hg as (children & n & cs' & -> & _ & Hinv & Hdepth & Hok).
  pose proof (inv_wf _ Hinv) as Hwf.
  assert (cs' = cs) as ->.
  { simpl in Hcalls. rewrite Hnil, !app_nil_r in Hcalls. done. }
  set (t := tree (grow_state children n cs σ0)) in *.
  destruct (decide (depth t j ≤ k)) as [|Hgt]; [done|]. exfalso.
  destruct (node_at_depth t j (S k) Hwf Hj) as (a & Ha & Hda); [lia|].
  destruct (wf_parent_some _ Hwf a) as [p Hp].
  { split; [|done]. destruct a; [|lia]. rewrite depth_0 in Hda; done. }
  pose proof (depth_parent _ _ _ Hwf Hp) as Hdp.
  pose proof (wf_parent_lt _ Hwf _ _ Hp) as Hpa.
  assert (p ∈ call_parent <$> cs) as (c & -> & Hc)%list_elem_of_fmap.
  { apply Hcov. split; [lia|]. left. specialize (Hdepth a Ha). lia. }
  rewrite Forall_forall in Hok, Hdone.
  destruct (Hok c Hc) as (_ & _ & Heps).
  destruct (Hdone c Hc) as (dd & labels & top & chn & _ & Hl & Ht & Hgr & Hch & _).
  assert (depth t (call_parent c) = k) as Hk by lia.
  rewrite Heps, Hk in Hl. specialize (Hq dd labels Hl).
  apply py_max_inr in Ht as [Hin _]. rewrite Forall_forall in Hq.
  specialize (Hq top Hin).
  assert (chn = []) as ->.
  { apply Forall2_length in Hgr. rewrite range_nonpos in Hgr by lia.
    by destruct chn. }
  apply fmap_nil_inv in Hch. apply elem_of_children_of in Hp.
  rewrite Hch in Hp. by apply elem_of_nil in Hp.
Qed.

Lemma fit_loop_ends σ0 fuel d e σ k :
  grown_to σ0 d σ → visited dbscan σ0 d [] σ → calls σ0 = [] →
  quiet_at dbscan (self σ0)
    (Nat.iter k (update_epsilon_func (self σ0)) (epsilon (self σ0))) →
  1 ≤ d ≤ k + 1 →
  e = Nat.iter (d - 1) (update_epsilon_func (self σ0)) (epsilon (self σ0)) →
  k + 1 < fuel + d →
  terminates (fit_loop dbscan fuel Inf d e) σ.
Proof.
  revert d e σ. induction fuel as [|fuel IH];
    intros d e σ Hg Hv Hnil Hq [Hd Hdk1] He Hfuel; [lia|].
  simpl. apply terminates_bind; [done|]. intros s σ' [= <- <-].
  set (next_nodes := filter _ _).
  destruct (decide (length next_nodes = 0)) as [|Hne]; [done|].
  pose proof Hg as (_ & _ & _ & _ & _ & Hinv & _ & _).
  pose proof (inv_wf _ Hinv) as Hwf.
  assert (d ≤ k) as Hdk.
  { destruct (decide (d ≤ k)) as [|Hgt]; [done|]. exfalso.
    assert (∀ j, j ∉ next_nodes) as Hnone.
    { intros j [Hj Hdj]%next_nodes_spec; [|done..].
      pose proof (quiet_no_deeper _ _ _ _ Hg Hv Hnil Hq j Hj). lia. }
    destruct next_nodes as [|j l]; [done|]. destruct (Hnone j). by left. }
  assert (e' : update_epsilon_func (self σ) e
    = Nat.iter d (update_epsilon_func (self σ0)) (epsilon (self σ0))).
  { rewrite (grown_to_update _ _ _ Hg), He. clear -Hd.
    destruct d as [|d]; [lia|]. simpl. by rewrite Nat.sub_0_r. }
  apply terminates_bind.
  - apply terminates_for_each. intros b σ1.
    apply terminates_bind; [done|]. intros. apply run_dbscan_on_node_terminates.
  - intros [] σ1 Hloop.
    pose proof (round_visited dbscan σ0 d _ σ Hg Hv Hd e') as Hw.
    unfold wp in Hw. fold next_nodes in Hw. rewrite Hloop in Hw.
    destruct Hw as [Hg1 Hv1].
    apply IH; [by rewrite Nat.add_1_r|by rewrite Nat.add_1_r|done..|lia| |lia].
    rewrite e'. by replace (d + 1 - 1) with d by lia.
Qed.
End quiet.

Section divergence.
Context `{!SetOrder} {F : Type}.
Context (dbscan : list (list F) → F → Z → exn + list Z).
Context (Hprim : always_clusters dbscan).
Implicit Types (σ : @state F) (t : list Node) (c : @call F) (s : @VariousDBSCAN F).

Local Abbreviation tree σ := (progressive_clustering (self σ)).

Lemma for_each_returns_inv {A} (I : list A → @state F → Prop) xs body σ :
  I [] σ →
  (∀ done x rest σ, xs = done ++ x :: rest → I done σ →
     ∃ σ', body x σ = Return () σ' ∧ I (done ++ [x]) σ') →
  ∃ σ', for_each xs body σ = Return () σ' ∧ I xs σ'.
Proof.
  intros HI Hbody.
  assert (∀ done rest σ, xs = done ++ rest → I done σ →
    ∃ σ', for_each rest body σ = Return () σ' ∧ I xs σ') as Hgen.
  { intros done rest. revert done. induction rest as [|x rest IH]; intros done σ1 E Hd.
    - exists σ1. split; [done|]. by rewrite E, app_nil_r.
    - destruct (Hbody done x rest σ1 E Hd) as (σ2 & Hx & Hd').
      destruct (IH (done ++ [x]) σ2) as (σ3 & Hrest & H3); [|done|].
      { by rewrite <-(assoc_L (++)). }
      exists σ3. split; [|done]. simpl. unfold mbind, M_bind. by rewrite Hx. }
  by apply (Hgen [] xs).
Qed.

(** A call on points of the matrix, not none, returns and attaches
    children that are not empty. *)
Lemma call_attaches σ points_idx new_eps b :
  square (distance_matrix (self σ)) →
  points_idx ≠ [] →
  (∀ x, x ∈ points_idx → x < length (distance_matrix (self σ))) →
  ∃ children,
    run_dbscan_on_node dbscan points_idx new_eps b σ
      = Return () (grow_state children 1 [mkCall points_idx new_eps b] σ)
    ∧ children ≠ []
    ∧ Forall (λ n, parent n = Some b ∧ clustered_points n ≠ []
                   ∧ clustered_points n ⊆ points_idx) children.
Proof.
  intros Hsq Hne Hlt.
  destruct (submatrix_total (distance_matrix (self σ)) points_idx) as [d Hd].
  { intros i Hi. destruct (lookup_lt_is_Some_2 (distance_matrix (self σ)) i)
      as [row Hrow]; [by apply Hlt|].
    exists row. split; [done|]. intros j Hj.
    rewrite (Hsq row) by (by eapply list_elem_of_lookup_2). by apply Hlt. }
  pose proof (submatrix_inr _ _ _ Hd) as [Hlen _].
  destruct (Hprim d new_eps (min_points (self σ))) as
    (labels & top & Hl & Hll & Ht & Htop & Hocc).
  { intros ->. by destruct points_idx. }
  pose proof (children_loop points_idx labels b (mkCall points_idx new_eps b)
    (range (top + 1)) σ) as Hw.
  rewrite run_dbscan_on_node_unfold. cbv zeta. rewrite Hd, Hl, Ht.
  unfold wp in Hw. destruct (for_each _ _ _) as [[] σ'|e σ'|] eqn:Hloop.
  - destruct Hw as (children & Hg & ->). exists children. split_and!; [done| |].
    + intros ->. apply Forall2_length in Hg. rewrite length_range in Hg.
      simpl in Hg. lia.
    + apply Forall_forall. intros n Hn.
      destruct (grown_subseteq _ _ _ _ _ n Hg Hn) as [Hp Hsub].
      split_and!; [done| |done].
      apply list_elem_of_lookup_1 in Hn as [m Hm].
      destruct (grown_lookup _ _ _ _ _ _ _ Hg Hm) as (i & l & Hi & Hc & ->).
      simpl. apply list_elem_of_lookup_2, elem_of_range in Hi.
      destruct (list_elem_of_lookup_1 labels i) as [k Hk]; [apply Hocc; lia|].
      destruct (child_points_valid _ _ _ _ _ Hc Hk) as [x Hx].
      intros Hnil. assert (x ∈ l) as Hin; [|rewrite Hnil in Hin; by apply elem_of_nil in Hin].
      apply (child_points_elem _ _ _ _ x Hc). eauto.
  - destruct Hw as (_ & i & _ & _ & _ & _ & (_ & k & Hk & Hge)%child_points_inl & _).
    apply lookup_lt_Some in Hk. lia.
  - exfalso. revert Hloop. generalize (grow_state [] 1 [mkCall points_idx new_eps b] σ).
    generalize (range (top + 1)). intros ids. induction ids as [|i ids IH]; intros σ1; [done|].
    simpl. unfold mbind at 1, M_bind.
    destruct ((lift _ ≫= _) σ1) as [[] σ2|e σ2|] eqn:E; [apply IH|done|].
    unfold mbind, M_bind, lift in E. by destruct (comprehension _ _).
Qed.

Lemma all_occupied_app n t b children :
  all_occupied n t → b < length t →
  Forall (λ nd, parent nd = Some b ∧ clustered_points nd ≠ []
                ∧ ∀ x, x ∈ clustered_points nd → x < n) children →
  all_occupied n (t ++ children).
Proof.
  intros (Hwf & Hlen & Hocc) Hb Hch. split_and!.
  - apply wf_app; [done..|]. eapply Forall_impl; [done|].
    simpl. intros nd (Hp & _). eauto.
  - rewrite length_app. lia.
  - intros j. rewrite length_app. intros Hj.
    destruct (decide (j < length t)) as [Hlt|Hge].
    { rewrite points_app_l by done. apply Hocc. lia. }
    destruct (lookup_lt_is_Some_2 children (j - length t)) as [nd Hnd]; [lia|].
    replace j with (length t + (j - length t)) by lia.
    rewrite (points_app_r _ _ _ _ Hnd). rewrite Forall_forall in Hch.
    destruct (Hch nd) as (_ & ? & ?); [by eapply list_elem_of_lookup_2|done].
Qed.
End divergence.

Section divergence_loop.
Context `{!SetOrder} {F : Type}.
Context (dbscan : list (list F) → F → Z → exn + list Z).
Context (Hprim : always_clusters dbscan).
Implicit Types (σ : @state F) (t : list Node) (c : @call F) (s : @VariousDBSCAN F).

Local Abbreviation tree σ := (progressive_clustering (self σ)).

Lemma bind_return {A B} (m : @M F A) (f : A → @M F B) σ a σ' :
  m σ = Return a σ' → (m ≫= f) σ = f a σ'.
Proof. unfold mbind, M_bind. by intros ->. Qed.

(** A call on a node that is not empty gives the tree a deeper node. *)
Lemma call_deepens σ b new_eps points_idx :
  let n := length (distance_matrix (self σ)) in
  square (distance_matrix (self σ)) → all_occupied n (tree σ) →
  b < length (tree σ) → points_idx ≠ [] → (∀ x, x ∈ points_idx → x < n) →
  ∃ σ', run_dbscan_on_node dbscan points_idx new_eps b σ = Return () σ'
    ∧ distance_matrix (self σ') = distance_matrix (self σ)
    ∧ all_occupied n (tree σ')
    ∧ (∃ extra, tree σ' = tree σ ++ extra)
    ∧ ∃ j, j < length (tree σ') ∧ depth (tree σ') j = S (depth (tree σ) b).
Proof.
  intros n Hsq Hocc Hb Hne Hlt.
  destruct (call_attaches dbscan Hprim σ points_idx new_eps b Hsq Hne Hlt)
    as (children & Hrun & Hch & Hall).
  eexists. split; [exact Hrun|]. simpl.
  assert (all_occupied n (tree σ ++ children)) as Hocc'.
  { apply (all_occupied_app _ _ b); [done..|].
    eapply Forall_impl; [done|]. simpl. intros nd (? & ? & Hsub).
    split_and!; [done..|]. intros x Hx. by apply Hlt, Hsub. }
  split_and!; [done|done|by exists children|].
  destruct children as [|nd children]; [done|].
  apply Forall_cons in Hall as [(Hp & _) _].
  exists (length (tree σ)). split; [rewrite length_app; simpl; lia|].
  destruct Hocc' as (Hwf' & _).
  assert (parent_of (tree σ ++ nd :: children) (length (tree σ)) = Some b) as Hpar.
  { pose proof (parent_of_app_r (tree σ) (nd :: children) 0 nd eq_refl) as Hx.
    rewrite Nat.add_0_r in Hx. by rewrite Hx. }
  rewrite (depth_parent _ _ _ Hwf' Hpar). by rewrite depth_app_l.
Qed.

Lemma fit_loop_diverges fuel d e σ :
  let n := length (distance_matrix (self σ)) in
  square (distance_matrix (self σ)) → all_occupied n (tree σ) → 1 ≤ d →
  (∃ j, j < length (tree σ) ∧ depth (tree σ) j = d) →
  fit_loop dbscan fuel Inf d e σ = OutOfFuel.
Proof.
  revert d e σ. induction fuel as [|fuel IH]; intros d e σ n Hsq Hocc Hd (j & Hj & Hdj);
    [done|].
  simpl. rewrite (bind_return get_self _ σ (self σ) σ eq_refl).
  set (next_nodes := filter _ _).
  pose proof Hocc as (Hwf & _ & Hpts).
  assert (∀ b, b ∈ next_nodes ↔ 0 < b < length (tree σ) ∧ depth (tree σ) b = d) as Hnn.
  { intros b. unfold next_nodes.
    rewrite list_elem_of_filter, elem_of_descendants_root by done. tauto. }
  assert (j ∈ next_nodes) as Hjn.
  { apply Hnn. split; [|done]. split; [|done].
    destruct j; [|lia]. rewrite depth_0 in Hdj by done. lia. }
  destruct (decide (length next_nodes = 0)) as [Hnil|_].
  { destruct next_nodes; [by apply elem_of_nil in Hjn|done]. }
  destruct (for_each_returns_inv (λ done σ1,
      distance_matrix (self σ1) = distance_matrix (self σ)
      ∧ all_occupied n (tree σ1)
      ∧ (∃ extra, tree σ1 = tree σ ++ extra)
      ∧ (done ≠ [] → ∃ j, j < length (tree σ1) ∧ depth (tree σ1) j = S d))
    next_nodes
    (λ bottom_node,
       s ← get_self;
       run_dbscan_on_node dbscan
         (clustered_points (progressive_clustering s !!! bottom_node))
         (update_epsilon_func (self σ) e) bottom_node) σ)
    as (σ1 & Hloop & Hdm & Hocc1 & _ & Hdeep).
  - split_and!; [done|done|by exists []; rewrite app_nil_r|done].
  - intros done b rest σ1 Hnext (Hdm & Hocc1 & [extra Hext] & _).
    assert (b ∈ next_nodes) as [Hb Hdb]%Hnn.
    { rewrite Hnext. apply elem_of_app. right. by left. }
    pose proof Hocc1 as (Hwf1 & _ & _).
    assert (points (tree σ1) b = points (tree σ) b) as Hpb.
    { rewrite Hext. apply points_app_l. lia. }
    assert (depth (tree σ1) b = d) as Hdb1.
    { rewrite Hext in Hwf1 |- *. rewrite depth_app_l; [done..|lia]. }
    destruct (Hpts b Hb) as [Hne Hlt].
    destruct (call_deepens σ1 b (update_epsilon_func (self σ) e)
      (points (tree σ1) b)) as (σ2 & Hrun & Hdm2 & Hocc2 & [extra2 Hext2] & Hj2).
    + by rewrite Hdm.
    + by rewrite Hdm.
    + rewrite Hext, length_app. lia.
    + by rewrite Hpb.
    + rewrite Hpb, Hdm. exact Hlt.
    + exists σ2. rewrite (bind_return get_self _ σ1 (self σ1) σ1 eq_refl).
      split; [exact Hrun|].
      rewrite Hdm in Hocc2. split_and!; [congruence|done| |].
      * exists (extra ++ extra2). by rewrite Hext2, Hext, (assoc_L (++)).
      * intros _. by rewrite <-Hdb1.
  - rewrite (bind_return _ _ _ _ _ Hloop). apply IH.
    + by rewrite Hdm.
    + by rewrite Hdm.
    + lia.
    + rewrite Nat.add_1_r. apply Hdeep. intros Hnil. rewrite Hnil in Hjn.
      by apply elem_of_nil in Hjn.
Qed.

End divergence_loop.

(** * The claims *)

Section claims.
Context `{!SetOrder} {F : Type}.
Context (half : F → F).
Context (dbscan : list (list F) → F → Z → exn + list Z).
Implicit Types (σ : @state F) (t : list Node) (s : @VariousDBSCAN F).

Local Abbreviation tree σ := (progressive_clustering (self σ)).

(** C1: on a new instance, the clusters that [fit] returns are pairwise
    disjoint; in the tree it leaves, no two nodes share a point, so a node
    shares none with its descendants and a point belongs to at most one
    node. *)
Theorem fit_disjoint dm eps mp upd s0 fuel max_depth r σ' :
  __init__ half dm eps mp upd = inr s0 →
  fit dbscan fuel max_depth (start s0) = Return r σ' →
  (∀ i j a b, i ≠ j → r !! i = Some a → r !! j = Some b → a ## b)
  ∧ (∀ a d, a ∈ ancestors (tree σ') d → points (tree σ') a ## points (tree σ') d)
  ∧ (∀ i j, i ≠ j → points (tree σ') i ## points (tree σ') j).
Proof.
  intros (Hf & _)%init_inr Hfit.
  destruct (fit_fresh_final dbscan fuel max_depth (start s0) σ') as
    (d' & σ1 & _ & Hg & _ & _ & Hret); [done|by rewrite Hfit|].
  destruct (Hret r Hfit) as [-> ->]. clear Hret Hfit.
  destruct Hg as (_ & _ & _ & _ & _ & Hinv & _).
  pose proof (inv_wf _ Hinv) as Hwf.
  destruct (resolve_inv (deepest_first (tree σ1)) (tree σ1) Hwf)
    as (Hs & H1 & _ & H3).
  pose proof (same_shape_wf _ _ Hs Hwf) as Hwf'.
  set (t' := resolve (deepest_first (tree σ1)) (tree σ1)) in *.
  change (tree (finish σ1)) with t'.
  assert (∀ a d, a ∈ ancestors (tree σ1) d → points t' d ## points t' a) as Hrel.
  { intros a d Ha. apply H3; [|done]. apply elem_of_sorted.
    apply elem_of_descendants_root; [done|].
    pose proof (ancestors_lt _ _ _ Hwf Ha).
    pose proof (ancestors_lt_length _ _ _ Hwf Ha). lia. }
  assert (∀ i j, i ≠ j → points t' i ## points t' j) as Hall.
  { intros i j Hij x Hi Hj.
    destruct (decide (i ∈ ancestors (tree σ1) j)) as [Ha|Ha].
    { by apply (Hrel i j Ha x). }
    destruct (decide (j ∈ ancestors (tree σ1) i)) as [Hb|Hb].
    { by apply (Hrel j i Hb x). }
    apply (unrelated_disjoint (tree σ1) i j Hinv Hij Ha Hb x); by apply H1. }
  split_and!; [| |done].
  - intros i j a b Hij Ha Hb. unfold result in Ha, Hb.
    apply list_lookup_fmap_Some in Ha as (ni & -> & Hi).
    apply list_lookup_fmap_Some in Hb as (nj & -> & Hj).
    apply Hall. intros ->. apply Hij.
    eapply NoDup_lookup; [|done..].
    apply NoDup_filter, NoDup_sorted, NoDup_descendants. done.
  - intros a d Ha. apply Hall. intros ->.
    rewrite <-(same_shape_ancestors (tree σ1)) in Ha by done.
    by apply ancestors_irrefl in Ha.
Qed.

(** C2: every cluster that [fit] returns has at least [min_points] points;
    the result lists the points of exactly the nodes below the root that
    hold that many after overlap resolution, and the others are left out. *)
Theorem fit_size_floor fuel max_depth σ r σ' :
  fit dbscan fuel max_depth σ = Return r σ' →
  Forall (λ cluster, (min_points (self σ) ≤ Z.of_nat (length cluster))%Z) r
  ∧ r = points (tree σ') <$> selected (self σ')
  ∧ ∀ node, node ∈ selected (self σ') ↔
      node ∈ descendants (tree σ') 0
      ∧ (min_points (self σ) ≤ Z.of_nat (length (points (tree σ') node)))%Z.
Proof.
  intros (σ1 & Hg & -> & ->)%fit_return.
  rewrite <-(grew_min_points _ _ _ Hg).
  assert (∀ node, node ∈ selected (resolved σ1) ↔
      node ∈ descendants (progressive_clustering (resolved σ1)) 0
      ∧ (min_points (self σ1) ≤ Z.of_nat (length
           (points (progressive_clustering (resolved σ1)) node)))%Z) as Hsel.
  { intros node. unfold selected. rewrite list_elem_of_filter, elem_of_sorted.
    rewrite Is_true_true, Z.leb_le. unfold points. simpl. tauto. }
  split_and!; [|done|done].
  apply Forall_forall. intros cluster (node & -> & Hn%Hsel)%list_elem_of_fmap.
  apply Hn.
Qed.

(** C3: the result of [fit] lists the points of the selected nodes, and
    these come in order of non-increasing depth. *)
Theorem fit_depth_ordering fuel max_depth σ r σ' :
  fit dbscan fuel max_depth σ = Return r σ' →
  r = points (tree σ') <$> selected (self σ')
  ∧ StronglySorted (λ a b, depth (tree σ') b ≤ depth (tree σ') a)
      (selected (self σ')).
Proof.
  intros (σ1 & Hg & -> & ->)%fit_return. split; [done|].
  unfold selected. apply StronglySorted_filter.
  eapply StronglySorted_impl; [|apply sorted_StronglySorted].
  simpl. intros; lia.
Qed.


(** C9: construction succeeds exactly when [min_points] is a positive
    integer; otherwise it fails with the [AssertionError] of the [assert],
    and no instance, tree or count of invocations exists.  A new instance
    has the root alone and has counted no invocation. *)
Theorem init_min_points dm eps (mp : @pyval F) upd :
  (positive_integer mp →
     ∃ s, __init__ half dm eps mp upd = inr s
          ∧ min_points s = int_value mp
          ∧ progressive_clustering s = [mkNode "" [] None]
          ∧ dbscan_performed s = 0
          ∧ clusters s = None)
  ∧ (¬ positive_integer mp → __init__ half dm eps mp upd = inl AssertionError).
Proof.
  unfold __init__. split.
  - intros [z Hz|]; simpl.
    + destruct (Z.ltb_spec 0 z); [|lia]. by eexists.
    + by eexists.
  - intros Hn. destruct mp as [z|[]| | |]; simpl; try done.
    + destruct (Z.ltb_spec 0 z); [|done]. destruct Hn. by constructor.
    + destruct Hn. constructor.
Qed.

(** C6 (as amended): a call of [run_dbscan_on_node] that returns has
    counted one invocation and attached to the parent one child for every
    integer from [0] to the largest label of the output, in this order.  The
    child of [m] owns the original indices of the points labelled [m]; it is
    empty exactly when no point has label [m].  A point with a negative
    label is in no child.  The call returns whenever the primitive gives at
    least one label and no more labels than points. *)
Theorem run_dbscan_on_node_children points_idx new_eps parent_node σ :
  (∀ σ',
     run_dbscan_on_node dbscan points_idx new_eps parent_node σ = Return () σ' →
     ∃ d labels top children,
       submatrix (distance_matrix (self σ)) points_idx = inr d
       ∧ dbscan d new_eps (min_points (self σ)) = inr labels
       ∧ py_max labels = inr top
       ∧ tree σ' = tree σ ++ children
       ∧ dbscan_performed (self σ') = dbscan_performed (self σ) + 1
       ∧ length children = Z.to_nat (top + 1)
       ∧ (∀ m n, children !! m = Some n →
            name n = str (Z.of_nat m) ∧ parent n = Some parent_node
            ∧ (∀ x, x ∈ clustered_points n ↔
                 ∃ k, labels !! k = Some (Z.of_nat m) ∧ points_idx !! k = Some x)
            ∧ (clustered_points n = [] ↔ Z.of_nat m ∉ labels))
       ∧ (NoDup points_idx → ∀ k x l,
            points_idx !! k = Some x → labels !! k = Some l → (l < 0)%Z →
            ∀ n, n ∈ children → x ∉ clustered_points n))
  ∧ (∀ d labels,
       submatrix (distance_matrix (self σ)) points_idx = inr d →
       dbscan d new_eps (min_points (self σ)) = inr labels →
       labels ≠ [] → length labels ≤ length points_idx →
       ∃ σ', run_dbscan_on_node dbscan points_idx new_eps parent_node σ
             = Return () σ').
Proof.
  split.
  - intros σ' Hrun.
    pose proof (run_dbscan_on_node_spec dbscan points_idx new_eps parent_node σ) as Hw.
    unfold wp in Hw. rewrite Hrun in Hw.
    destruct Hw as (d & labels & top & children & Hd & Hl & Ht & Hg & ->).
    exists d, labels, top, children. split_and!; [done..| | |].
    + by rewrite <-(Forall2_length _ _ _ Hg), length_range.
    + intros m n Hn.
      destruct (grown_lookup _ _ _ _ _ _ _ Hg Hn) as (i & l & Hi & Hc & ->).
      apply range_lookup in Hi as ->. simpl. split_and!; [done..| |].
      * intros x. by apply child_points_elem.
      * split.
        -- intros -> [k Hk]%list_elem_of_lookup_1.
           destruct (child_points_valid _ _ _ _ _ Hc Hk) as [x Hx].
           assert (x ∈ []) as Hin; [|by apply elem_of_nil in Hin].
           apply (child_points_elem _ _ _ _ x Hc). eauto.
        -- intros Hnot. destruct l as [|x l]; [done|]. destruct Hnot.
           assert (x ∈ x :: l) as Hin by (by left).
           apply (child_points_elem _ _ _ _ x Hc) in Hin as (k & Hk & _).
           by eapply list_elem_of_lookup_2.
    + intros Hnd k x l Hx Hl' Hneg n [m Hn]%list_elem_of_lookup_1 Hin.
      destruct (grown_lookup _ _ _ _ _ _ _ Hg Hn) as (i & l' & Hi & Hc & ->).
      apply range_lookup in Hi as ->. simpl in Hin.
      apply (child_points_elem _ _ _ _ x Hc) in Hin as (k' & Hk' & Hx').
      assert (k = k') as <- by (by apply (NoDup_lookup points_idx k k' x)).
      rewrite Hl' in Hk'. injection Hk' as ->. lia.
  - intros d labels Hd Hl Hne Hlen. unfold run_dbscan_on_node.
    unfold mbind at 1 2 3 4 5 6, M_bind, get_self, lift, record_call, update_self.
    rewrite Hd, Hl. destruct (py_max labels) as [e|top] eqn:Et.
    { by destruct labels. }
    apply for_each_returns. intros i σ1 _.
    unfold mbind, M_bind, lift.
    destruct (comprehension_total (getitem points_idx)
      (set_list (where_eq labels i))) as [l ->]; [|by eexists].
    apply Forall_forall. intros k Hk%elem_of_set_list%elem_of_where_eq.
    apply lookup_lt_Some in Hk.
    destruct (lookup_lt_is_Some_2 points_idx k) as [x Hx]; [lia|].
    exists x. by apply getitem_inr.
Qed.

(** C7: the tree that overlap resolution leaves does not depend on the
    order in which the nodes below the root are visited: visiting them in
    any order gives the tree of the deepest-first order of the source, up to
    the order in which a node lists its points; and subtracting a node's
    points from an ancestor a second time changes nothing. *)
Theorem remove_order_independent nodes σ :
  wf (tree σ) → nodes ≡ₚ descendants (tree σ) 0 →
  (∃ t1 t2,
     remove_in_order nodes σ
       = Return () (mkState (set_progressive_clustering t1 (self σ)) (calls σ))
     ∧ remove_child_cluster_points_from_parents σ
       = Return () (mkState (set_progressive_clustering t2 (self σ)) (calls σ))
     ∧ tree_equiv t1 t2)
  ∧ (∀ child_node parent_node, child_node ≠ parent_node →
       tree_equiv
         (subtract child_node parent_node (subtract child_node parent_node (tree σ)))
         (subtract child_node parent_node (tree σ))).
Proof.
  intros Hwf Hn. split; [|intros; by apply subtract_idempotent].
  exists (resolve nodes (tree σ)), (resolve (deepest_first (tree σ)) (tree σ)).
  split_and!.
  - apply remove_in_order_eq.
  - unfold remove_child_cluster_points_from_parents, mbind, M_bind, get_self.
    apply remove_in_order_eq.
  - apply resolve_equiv; [done..|]. apply sorted_Permutation.
Qed.

(** C8 (as amended): the outcome of [fit] is determined by the state of the
    instance, the bound and the labels that the primitive gives, so runs on
    two new instances built from the same inputs agree.  [fit] does not
    reset the instance: the nodes that the tree had are still there, with
    their names and parents, next to those this run attached, and the
    counter has grown by the number of calls of this run, which is at least
    one. *)
Theorem fit_keeps_tree_and_counter fuel max_depth σ :
  (∀ dbscan', (∀ d e m, dbscan' d e m = dbscan d e m) →
     fit dbscan' fuel max_depth σ = fit dbscan fuel max_depth σ)
  ∧ (∀ r σ', fit dbscan fuel max_depth σ = Return r σ' →
       ∃ children cs,
         calls σ' = cs ++ calls σ ∧ 0 < length cs
         ∧ dbscan_performed (self σ') = dbscan_performed (self σ) + length cs
         ∧ same_shape (tree σ ++ children) (tree σ')).
Proof.
  split; [intros; by apply fit_ext|].
  intros r σ' (children & cs & Hc & Hn & Hs)%fit_return_calls.
  exists children, (cs ++ [mkCall (seq 0 (n_points (self σ))) (epsilon (self σ)) 0]).
  rewrite <-(assoc_L (++)), length_app. simpl. split_and!; [done|lia|lia|done].
Qed.


End claims.

(** The default update function, iterated. *)
Lemma iter_halve (d : nat) (e : Qc) :
  Nat.iter d halve e = (e / of_Z 2 ^ d)%Qc.
Proof.
  unfold halve. induction d as [|d IH]; simpl.
  - field. discriminate.
  - rewrite IH. unfold Qcdiv. rewrite Qcinv_mult_distr. ring.
Qed.


(** * Further properties of the code *)

Section further_properties.
Context `{!SetOrder} {F : Type}.
Context (half : F → F).
Context (dbscan : list (list F) → F → Z → exn + list Z).
Implicit Types (σ : @state F) (t : list Node) (s : @VariousDBSCAN F).

Local Abbreviation tree σ := (progressive_clustering (self σ)).

(** X1: the sub-matrix [distance_matrix[points_idx][:, points_idx]] has one
    row and one column for each index of [points_idx], in that order, and
    its entry at [(a, b)] is the distance between the points [points_idx[a]]
    and [points_idx[b]].  Taking it fails with [IndexError] only; on a
    square matrix it fails exactly when an index is not a row of the
    matrix. *)
Theorem submatrix_entries (d : list (list F)) points_idx :
  (∀ m, submatrix d points_idx = inr m →
     length m = length points_idx
     ∧ (∀ row, row ∈ m → length row = length points_idx)
     ∧ ∀ a b i j, points_idx !! a = Some i → points_idx !! b = Some j →
         ∃ x, d !! i ≫= (.!! j) = Some x ∧ m !! a ≫= (.!! b) = Some x)
  ∧ (∀ e, submatrix d points_idx = inl e → e = IndexError)
  ∧ ((∀ row, row ∈ d → length row = length d) →
     (∃ m, submatrix d points_idx = inr m) ↔ ∀ i, i ∈ points_idx → i < length d).
Proof.
  split_and!.
  - intros m [Hlen Hm]%submatrix_inr. split_and!; [done| |].
    + intros row [a Ha]%list_elem_of_lookup_1.
      destruct (lookup_lt_is_Some_2 points_idx a) as [i Hi].
      { rewrite <-Hlen. by eapply lookup_lt_Some. }
      destruct (Hm a i Hi) as (r & r' & _ & Hr' & Hl & _). congruence.
    + intros a b i j Ha Hb.
      destruct (Hm a i Ha) as (r & r' & Hr & Hr' & _ & Hrow).
      destruct (Hrow b j Hb) as [[x Hx] Heq].
      exists x. rewrite Hr, Hr'. simpl. by rewrite Heq.
  - by intros e [-> _]%submatrix_inl.
  - intros Hsq. split.
    + intros [m [_ Hm]%submatrix_inr] i [a Ha]%list_elem_of_lookup_1.
      destruct (Hm a i Ha) as (r & _ & Hr & _). by eapply lookup_lt_Some.
    + intros Hlt. apply submatrix_total. intros i Hi.
      destruct (lookup_lt_is_Some_2 d i) as [row Hrow]; [by apply Hlt|].
      exists row. split; [done|]. intros j Hj.
      rewrite (Hsq row) by (by eapply list_elem_of_lookup_2). by apply Hlt.
Qed.

(** X2: the ways in which [run_dbscan_on_node] raises.  If the sub-matrix
    cannot be taken, the primitive is not called and nothing changes.  An
    exception of the primitive is passed on: no invocation is counted and
    no node is created.  If the primitive gives no label, [max] raises
    [ValueError] after the invocation was counted.  If it gives more labels
    than points, [IndexError] is raised at the first label held by a
    position beyond the points, and the children of the smaller labels stay
    attached. *)
Theorem run_dbscan_on_node_raises points_idx new_eps parent_node σ :
  let c := mkCall points_idx new_eps parent_node in
  let run := run_dbscan_on_node dbscan points_idx new_eps parent_node σ in
  let dm := distance_matrix (self σ) in
  let mp := min_points (self σ) in
  (∀ e σ', run = Raise e σ' →
     (submatrix dm points_idx = inl e ∧ σ' = σ)
     ∨ (∃ d, submatrix dm points_idx = inr d ∧ dbscan d new_eps mp = inl e
          ∧ σ' = mkState (self σ) (c :: calls σ))
     ∨ (∃ d, submatrix dm points_idx = inr d ∧ dbscan d new_eps mp = inr []
          ∧ e = ValueError ∧ σ' = grow_state [] 1 [c] σ)
     ∨ (∃ d labels top ids i rest children,
          submatrix dm points_idx = inr d ∧ dbscan d new_eps mp = inr labels
          ∧ py_max labels = inr top ∧ range (top + 1) = ids ++ i :: rest
          ∧ grown points_idx labels parent_node ids children
          ∧ (∃ k, labels !! k = Some i ∧ length points_idx ≤ k)
          ∧ e = IndexError ∧ σ' = grow_state children 1 [c] σ))
  ∧ (∀ e, submatrix dm points_idx = inl e → e = IndexError ∧ run = Raise e σ)
  ∧ (∀ d e, submatrix dm points_idx = inr d → dbscan d new_eps mp = inl e →
       run = Raise e (mkState (self σ) (c :: calls σ)))
  ∧ (∀ d, submatrix dm points_idx = inr d → dbscan d new_eps mp = inr [] →
       run = Raise ValueError (grow_state [] 1 [c] σ)).
Proof.
  intros c run dm mp. unfold run. clear run.
  rewrite run_dbscan_on_node_unfold. cbv zeta. fold dm mp c. split_and!.
  - intros e σ' Hrun. destruct (submatrix dm points_idx) as [e'|d] eqn:Ed.
    { injection Hrun as <- <-. by left. }
    right. destruct (dbscan d new_eps mp) as [e'|labels] eqn:El.
    { injection Hrun as <- <-. left. by exists d. }
    right. destruct (py_max labels) as [e'|top] eqn:Et.
    { injection Hrun as <- <-. left. exists d. destruct labels; [|done].
      by injection Et as <-. }
    right.
    pose proof (children_loop points_idx labels parent_node c (range (top + 1)) σ) as Hw.
    unfold wp in Hw. rewrite Hrun in Hw.
    destruct Hw as (ids & i & rest & children & Hids & Hg & [-> Hk]%child_points_inl & ->).
    by exists d, labels, top, ids, i, rest, children.
  - intros e Ed. rewrite Ed. by apply submatrix_inl in Ed as [-> _].
  - intros d e -> El. by rewrite El.
  - intros d -> El. by rewrite El.
Qed.

(** X3: on a tree, [remove_child_cluster_points_from_parents] always
    returns.  It leaves the structure of the tree, the names and every
    other attribute of the instance as they were; it only removes points
    from nodes, keeps a list without repetition so, and leaves a node
    without children exactly as it was. *)
Theorem remove_only_shrinks σ :
  wf (tree σ) →
  ∃ t', remove_child_cluster_points_from_parents σ
          = Return () (mkState (set_progressive_clustering t' (self σ)) (calls σ))
    ∧ same_shape (tree σ) t'
    ∧ (∀ j, points t' j ⊆ points (tree σ) j)
    ∧ (∀ j, NoDup (points (tree σ) j) → NoDup (points t' j))
    ∧ (∀ j, children_of (tree σ) j = [] → points t' j = points (tree σ) j).
Proof.
  intros Hwf. exists (resolve (deepest_first (tree σ)) (tree σ)).
  destruct (resolve_inv (deepest_first (tree σ)) (tree σ) Hwf) as (Hs & H1 & _).
  split_and!; [apply remove_child_cluster_points_from_parents_eq|done..| |].
  - intros j. by apply resolve_NoDup.
  - intros j Hleaf.
    apply (resolve_touched (deepest_first (tree σ)) (tree σ) j Hwf).
    apply Forall_forall. intros d _. by apply no_child_no_descendant.
Qed.

(** X4: on a tree as [fit] grows it (children hold points of their parent,
    siblings hold different points), overlap resolution loses no point: a
    point of a node is afterwards in exactly one node of the tree, the node
    itself or one below it.  A node keeps exactly the points that none of
    its children held. *)
Theorem remove_moves_points_down σ :
  tree_inv (tree σ) →
  ∃ t', remove_child_cluster_points_from_parents σ
          = Return () (mkState (set_progressive_clustering t' (self σ)) (calls σ))
    ∧ (∀ a x, x ∈ points (tree σ) a →
         ∃ b, (b = a ∨ a ∈ ancestors (tree σ) b) ∧ x ∈ points t' b
              ∧ ∀ b', x ∈ points t' b' → b' = b)
    ∧ (∀ a x, x ∈ points t' a ↔
         x ∈ points (tree σ) a
         ∧ ∀ c, parent_of (tree σ) c = Some a → x ∉ points (tree σ) c).
Proof.
  intros Hinv. pose proof (inv_wf _ Hinv) as Hwf.
  exists (resolve (deepest_first (tree σ)) (tree σ)).
  pose proof (deepest_first_all _ Hwf) as Hall.
  split_and!; [apply remove_child_cluster_points_from_parents_eq| |].
  - intros a x Hx.
    destruct (resolve_conserves (deepest_first (tree σ)) _ a x Hwf Hx) as (b & Hb & Hxb).
    exists b. split_and!; [done..|]. intros b' Hxb'.
    destruct (decide (b' = b)) as [|Hne]; [done|].
    destruct (resolve_disjoint _ _ Hinv Hall b' b Hne x Hxb' Hxb).
  - by apply resolve_children.
Qed.

(** X5: running overlap resolution again, on its own result, changes no
    node's set of points. *)
Theorem remove_twice σ :
  wf (tree σ) →
  ∃ σ1 σ2,
    remove_child_cluster_points_from_parents σ = Return () σ1
    ∧ remove_child_cluster_points_from_parents σ1 = Return () σ2
    ∧ tree_equiv (tree σ1) (tree σ2).
Proof.
  intros Hwf. eexists _, _.
  split; [apply remove_child_cluster_points_from_parents_eq|].
  split; [apply remove_child_cluster_points_from_parents_eq|].
  simpl. by apply resolve_twice.
Qed.

(** X6: a run of [fit] that returns has stored the returned list in
    [self.clusters] and left the parameters of the instance (the matrix,
    [epsilon], [min_points], [n_points] and the update function) as they
    were: the radius that shrinks is a local variable. *)
Theorem fit_stores_result fuel max_depth σ r σ' :
  fit dbscan fuel max_depth σ = Return r σ' →
  clusters (self σ') = Some r
  ∧ distance_matrix (self σ') = distance_matrix (self σ)
  ∧ epsilon (self σ') = epsilon (self σ)
  ∧ min_points (self σ') = min_points (self σ)
  ∧ n_points (self σ') = n_points (self σ)
  ∧ update_epsilon_func (self σ') = update_epsilon_func (self σ).
Proof.
  intros (σ1 & Hg & -> & ->)%fit_return.
  destruct (grew_fields _ _ _ Hg) as (? & ? & ? & ? & ? & _). simpl. done.
Qed.


(** X8: on a new instance, every cluster that [fit] returns, and every node
    of the tree it leaves, lists indices of the distance matrix (below
    [len(distance_matrix)]), none twice. *)
Theorem fit_indices_valid dm eps mp upd s0 fuel max_depth r σ' :
  __init__ half dm eps mp upd = inr s0 →
  fit dbscan fuel max_depth (start s0) = Return r σ' →
  Forall (λ cluster, NoDup cluster ∧ ∀ x, x ∈ cluster → x < length dm) r
  ∧ ∀ j, NoDup (points (tree σ') j) ∧ ∀ x, x ∈ points (tree σ') j → x < length dm.
Proof.
  intros Hinit Hfit.
  assert (n_points s0 = length dm ∧ progressive_clustering s0 = [mkNode "" [] None])
    as [Hn Ht].
  { unfold __init__ in Hinit. destruct (_ && _); [|done]. by injection Hinit as <-. }
  destruct (fit_valid dbscan fuel max_depth (start s0) r σ') as [Hv Hr]; [|done|].
  { simpl. rewrite Ht. apply valid_points_root. }
  simpl in Hv, Hr. rewrite Hn in Hv, Hr. done.
Qed.

(** X9: when the matrix has fewer points than [min_points], a run of [fit]
    on a new instance that returns, returns the empty list, whatever the
    primitive gives. *)
Theorem fit_few_points dm eps mp upd s0 fuel max_depth r σ' :
  __init__ half dm eps mp upd = inr s0 →
  (Z.of_nat (length dm) < int_value mp)%Z →
  fit dbscan fuel max_depth (start s0) = Return r σ' →
  r = [].
Proof.
  intros Hinit Hfew Hfit.
  assert (n_points s0 = length dm ∧ min_points s0 = int_value mp
          ∧ progressive_clustering s0 = [mkNode "" [] None]) as (Hn & Hmp & Ht).
  { unfold __init__ in Hinit. destruct (_ && _); [|done]. by injection Hinit as <-. }
  destruct (fit_valid dbscan fuel max_depth (start s0) r σ') as [_ Hr]; [|done|].
  { simpl. rewrite Ht. apply valid_points_root. }
  destruct (fit_return dbscan fuel max_depth _ _ _ Hfit) as (σ1 & Hg & -> & ->).
  assert (∀ cluster, cluster ∈ result σ1 → False) as Hno;
    [|destruct (result σ1) as [|cluster r]; [done|]; destruct (Hno cluster); by left].
  intros cluster Hin. rewrite Forall_forall in Hr. destruct (Hr cluster Hin) as [Hnd Hlt].
  assert (length cluster ≤ length dm) as Hlen.
  { transitivity (length (seq 0 (length dm))); [|by rewrite length_seq].
    apply submseteq_length.
    apply NoDup_submseteq; [done|]. intros x Hx. apply elem_of_seq.
    specialize (Hlt x Hx). simpl in Hlt. lia. }
  unfold result in Hin.
  apply list_elem_of_fmap in Hin as (node & -> & Hnode).
  unfold selected in Hnode. apply list_elem_of_filter in Hnode as [Hsize _].
  apply Is_true_true, Z.leb_le in Hsize. simpl in Hsize.
  rewrite (grew_min_points _ _ _ Hg) in Hsize. simpl in Hsize. rewrite Hmp in Hsize.
  unfold points, resolved in Hlen. simpl in Hlen. lia.
Qed.

(** X10: when the first call labels every point as noise, [fit] on a new
    instance returns the empty list after this one invocation, whatever
    [max_depth] is (given fuel to enter the loop once); the tree is still
    the root alone and [self.clusters] is the empty list. *)
Theorem fit_no_cluster dm eps mp upd s0 fuel max_depth d labels :
  __init__ half dm eps mp upd = inr s0 → 0 < fuel →
  submatrix dm (seq 0 (length dm)) = inr d →
  dbscan d eps (int_value mp) = inr labels →
  labels ≠ [] → Forall (λ l, (l < 0)%Z) labels →
  ∃ σ', fit dbscan fuel max_depth (start s0) = Return [] σ'
    ∧ tree σ' = [mkNode "" [] None]
    ∧ dbscan_performed (self σ') = 1
    ∧ clusters (self σ') = Some [].
Proof.
  intros ->%init_fields Hfuel Hd Hl Hne Hneg.
  set (s0 := mkVariousDBSCAN _ _ _ _ _ _ _ _).
  set (c := mkCall (seq 0 (length dm)) eps 0).
  assert (run_dbscan_on_node dbscan (seq 0 (length dm)) eps 0 (start s0)
          = Return () (grow_state [] 1 [c] (start s0))) as Hrun.
  { rewrite run_dbscan_on_node_unfold. cbv zeta. simpl. rewrite Hd, Hl.
    destruct (py_max labels) as [e|top] eqn:Et; [by destruct labels|].
    apply py_max_inr in Et as [Hin _]. rewrite Forall_forall in Hneg.
    specialize (Hneg top Hin). by rewrite range_nonpos by lia. }
  assert (fit_loop dbscan fuel max_depth 1 eps (grow_state [] 1 [c] (start s0))
          = Return () (grow_state [] 1 [c] (start s0))) as Hloop.
  { destruct fuel as [|fuel]; [lia|]. simpl. by destruct (reaches 1 max_depth). }
  eexists. split; [apply (fit_first_call_only dbscan _ _ (start s0) _ Hrun Hloop)|]. done.
Qed.

(** X11: on an empty matrix [fit] does not return.  The primitive is called
    on no point; either it raises, or (giving one label per point) it gives
    no label and [max] raises [ValueError].  The tree is still the root
    alone and [self.clusters] is still [None]. *)
Theorem fit_empty_matrix eps mp upd s0 fuel max_depth :
  __init__ half [] eps mp upd = inr s0 →
  (∀ labels, dbscan [] eps (int_value mp) = inr labels → labels = []) →
  ∃ e σ', fit dbscan fuel max_depth (start s0) = Raise e σ'
    ∧ (e = ValueError ∨ dbscan [] eps (int_value mp) = inl e)
    ∧ tree σ' = [mkNode "" [] None]
    ∧ clusters (self σ') = None.
Proof.
  intros ->%init_fields Hone. rewrite fit_eq.
  unfold grow, mbind, M_bind, get_self. rewrite run_dbscan_on_node_unfold.
  cbv zeta. simpl. destruct (dbscan [] eps (int_value mp)) as [e|labels] eqn:El.
  - exists e. eexists. split; [done|]. split; [by right|done].
  - rewrite (Hone labels eq_refl). simpl.
    exists ValueError. eexists. split; [done|]. split; [by left|done].
Qed.

(** X12: with [max_depth <= 1], on a new instance, [fit] returns the clusters
    of one run of the primitive on the whole matrix: for each integer up to
    the largest label, in this order, the indices that carry it, leaving out
    the lists with fewer than [min_points] indices. *)
Theorem fit_single_level dm eps mp upd s0 fuel k r σ' :
  __init__ half dm eps mp upd = inr s0 → (k ≤ 1)%Z →
  fit dbscan fuel (Fin k) (start s0) = Return r σ' →
  ∃ d labels top cl,
    submatrix dm (seq 0 (length dm)) = inr d
    ∧ dbscan d eps (int_value mp) = inr labels
    ∧ py_max labels = inr top
    ∧ Forall2 (λ i l, ∀ x, x ∈ l ↔ labels !! x = Some i) (range (top + 1)) cl
    ∧ r = filter (λ l, (int_value mp ≤ Z.of_nat (length l))%Z) cl.
Proof.
  intros ->%init_fields Hk Hfit.
  set (s0 := mkVariousDBSCAN _ _ _ _ _ _ _ _) in *.
  set (c := mkCall (seq 0 (length dm)) eps 0).
  rewrite fit_eq in Hfit. unfold grow, mbind, M_bind, get_self in Hfit.
  pose proof (run_dbscan_on_node_spec dbscan (seq 0 (length dm)) eps 0 (start s0)) as Hw.
  unfold wp in Hw. simpl in Hfit.
  destruct (run_dbscan_on_node _ _ _ _ _) as [[] σa|e σa|]; [|done..].
  destruct Hw as (d & labels & top & children & Hd & Hl & Ht & Hg & ->).
  destruct fuel as [|fuel]; [done|]. simpl in Hfit.
  destruct (Z.leb_spec k (Z.of_nat 1)) as [_|?]; [|lia].
  injection Hfit as <- <-.
  exists d, labels, top, (clustered_points <$> children).
  split_and!; [done..| |].
  { apply Forall2_fmap_r. eapply Forall2_impl; [exact Hg|].
    simpl. intros i n (l & Hc & ->) x. simpl.
    rewrite (child_points_elem _ _ _ _ x Hc). split.
    - intros (k' & Hk' & [-> _]%lookup_seq). done.
    - intros Hx. exists x. split; [done|].
      destruct (child_points_valid _ _ _ _ _ Hc Hx) as [y Hy].
      by pose proof Hy as [-> _]%lookup_seq. }
  set (σa := grow_state children 1 [c] (start s0)).
  set (t := tree σa).
  assert (t = [mkNode "" [] None] ++ children) as Et by done.
  assert (Forall (λ n, parent n = Some 0) children) as Hpar.
  { apply Forall_forall. intros n Hn. by apply (grown_subseteq _ _ _ _ _ n Hg). }
  destruct (flat_tree children Hpar) as (Hwf & Hdesc & Hleaf & Hdepth).
  rewrite <-Et in Hwf, Hdesc, Hleaf, Hdepth.
  set (t' := resolve (deepest_first t) t).
  pose proof (resolve_same_shape (deepest_first t) t) as Hs. fold t' in Hs.
  assert (∀ j, j ∈ seq 1 (length children) → points t' j = points t j) as Hpts.
  { intros j Hj%elem_of_seq.
    apply (resolve_touched (deepest_first t) t j Hwf).
    apply Forall_forall. intros d' _. apply no_child_no_descendant; [done|].
    apply Hleaf. lia. }
  assert (selected (resolved σa)
    = filter (λ node, (int_value mp ≤ Z.of_nat (length (points t node)))%Z)
        (seq 1 (length children))) as Hsel.
  { unfold selected. cbv zeta.
    change (progressive_clustering (resolved σa)) with t'.
    change (min_points (resolved σa)) with (int_value mp).
    rewrite <-(same_shape_descendants t t' 0 Hs), Hdesc.
    rewrite sorted_id.
    - apply filter_ext_in. intros j Hj. rewrite Is_true_true, Z.leb_le.
      fold (points t' j). by rewrite Hpts.
    - apply StronglySorted_all. intros x y Hx%elem_of_seq Hy%elem_of_seq.
      rewrite <-!(same_shape_depth t t' _ Hs), !Hdepth; [done|..];
        rewrite Et, length_app; simpl; lia. }
  fold c. fold σa. unfold result. rewrite Hsel.
  change (progressive_clustering (resolved σa)) with t'.
  transitivity (points t <$> filter
    (λ node, (int_value mp ≤ Z.of_nat (length (points t node)))%Z)
    (seq 1 (length children))).
  { apply Forall_fmap_ext, Forall_forall.
    intros j [_ Hj]%list_elem_of_filter. by apply Hpts. }
  assert (clustered_points <$> children = points t <$> seq 1 (length children)) as ->.
  { rewrite <-(lookup_total_new [mkNode "" [] None] children) at 1.
    by rewrite <-list_fmap_compose. }
  exact (fmap_filter (points t) (λ l, (int_value mp ≤ Z.of_nat (length l))%Z)
    (seq 1 (length children))).
Qed.

(** X13: the sort of the result is stable: the returned nodes of one depth
    come in the order of [descendants], the pre-order of the tree. *)
Theorem fit_equal_depth_order fuel max_depth σ r σ' :
  fit dbscan fuel max_depth σ = Return r σ' →
  ∀ d, filter (λ node, depth (tree σ') node = d) (selected (self σ'))
       = filter (λ node, depth (tree σ') node = d)
           (filter (λ node, (min_points (self σ')
                              ≤ Z.of_nat (length (points (tree σ') node)))%Z)
              (descendants (tree σ') 0)).
Proof.
  intros (σ1 & Hg & -> & ->)%fit_return d. unfold selected.
  set (t' := tree (finish σ1)). set (mp := min_points (self (finish σ1))).
  transitivity (filter (λ node, depth t' node = d)
    (filter (λ node, (mp ≤ Z.of_nat (length (points t' node)))%Z)
       (sorted (λ x, - (Z.of_nat (depth t' x) + 1))%Z (descendants t' 0)))).
  { f_equal. apply filter_ext_in. intros j _. by rewrite Is_true_true, Z.leb_le. }
  rewrite !(filter_comm (λ node, depth t' node = d)). f_equal.
  transitivity (filter
    (λ node, (λ x, - (Z.of_nat (depth t' x) + 1))%Z node = (- (Z.of_nat d + 1))%Z)
    (sorted (λ x, - (Z.of_nat (depth t' x) + 1))%Z (descendants t' 0))).
  { apply filter_ext_in. intros j _. simpl. lia. }
  rewrite sorted_filter_key. apply filter_ext_in. intros j _. simpl. lia.
Qed.

(** X14: in a run of [fit] on a new instance that returns, every call of the
    primitive has been counted, no node was the subject of two calls, and
    the nodes called on are the nodes above depth [max(1, max_depth)]: all
    the nodes when [max_depth] is infinite, and [dbscan_performed] is then
    the number of nodes of the tree, the root included. *)
Theorem fit_invokes_once_per_node dm eps mp upd s0 fuel max_depth r σ' :
  __init__ half dm eps mp upd = inr s0 →
  fit dbscan fuel max_depth (start s0) = Return r σ' →
  let t := tree σ' in
  let levels :=
    match max_depth with
    | Inf => length t
    | Fin k => Nat.max 1 (Z.to_nat k)
    end in
  dbscan_performed (self σ') = length (calls σ')
  ∧ NoDup (call_parent <$> calls σ')
  ∧ (∀ j, j ∈ call_parent <$> calls σ' ↔ j < length t ∧ depth t j < levels)
  ∧ (max_depth = Inf → dbscan_performed (self σ') = length t).
Proof.
  intros Hinit Hfit.
  destruct (fit_fresh_visited half dbscan _ _ _ _ _ _ _ _ _ Hinit Hfit) as
    (d' & σ1 & [Hd1 Hbd] & Hg & Hv & Hstop & -> & -> & _).
  pose proof (init_fields half _ _ _ _ _ Hinit) as Hs0.
  destruct Hv as (cs & Hcalls & Hcount & Hnd & Hcov & _).
  pose proof Hg as (_ & _ & _ & _ & _ & Hinv & Hdepth & _).
  pose proof (inv_wf _ Hinv) as Hwf.
  pose proof (resolve_same_shape (deepest_first (tree σ1)) (tree σ1)) as Hs.
  assert (calls (finish σ1) = cs) as Hcs.
  { simpl. rewrite Hcalls. simpl. by rewrite app_nil_r. }
  assert (dbscan_performed (self (finish σ1)) = length cs) as Hn.
  { simpl. rewrite Hcount, Hs0. done. }
  intros t levels.
  assert (length t = length (tree σ1)) as Hlen.
  { symmetry. apply (shape_length _ _ Hs). }
  assert (∀ j, depth t j = depth (tree σ1) j) as Hdep.
  { intros j. symmetry. apply (same_shape_depth _ _ j Hs). }
  assert (∀ j, j ∈ call_parent <$> cs ↔ j < length t ∧ depth t j < levels) as Hcov'.
  { intros j. rewrite Hcov, Hlen, Hdep. split.
    - intros [Hj [Hd|?%elem_of_nil]]; [|done]. split; [done|].
      unfold levels. destruct max_depth as [|k].
      + pose proof (depth_le _ j Hwf). lia.
      + specialize (Hbd k eq_refl). lia.
    - intros [Hj Hd]. split; [done|]. left.
      destruct Hstop as [Hr|Hall]; [|by apply Hall].
      unfold levels in Hd. destruct max_depth as [|k]; [done|].
      simpl in Hr. lia. }
  rewrite Hcs, Hn. split_and!; [done..|].
  intros ->. rewrite <-(length_fmap call_parent cs).
  transitivity (length (seq 0 (length t))); [|by rewrite length_seq].
  apply Permutation_length, NoDup_Permutation; [done|apply NoDup_seq|].
  intros j. rewrite Hcov', elem_of_seq. unfold levels.
  pose proof (depth_le _ j Hwf). rewrite Hdep. lia.
Qed.

(** X15: in the tree that [fit] leaves on a new instance, a node on which
    the primitive was called holds exactly the points that this call left
    without a cluster (with a negative label, or with none), and the nodes
    below it hold exactly the points to which the call gave a cluster.  The
    call for the root was on all points: the points found in the tree are
    those to which the first call gave a cluster. *)
Theorem fit_node_keeps_noise dm eps mp upd s0 fuel max_depth r σ' c :
  __init__ half dm eps mp upd = inr s0 →
  fit dbscan fuel max_depth (start s0) = Return r σ' →
  c ∈ calls σ' →
  let t := tree σ' in
  let a := call_parent c in
  ∃ d labels,
    submatrix dm (call_points c) = inr d
    ∧ dbscan d (call_eps c) (int_value mp) = inr labels
    ∧ (a = 0 → call_points c = seq 0 (length dm))
    ∧ (∀ x, x ∈ points t a ↔
         a ≠ 0 ∧ ∃ k, call_points c !! k = Some x
                  ∧ ∀ l, labels !! k = Some l → (l < 0)%Z)
    ∧ (∀ x, (∃ j, a ∈ ancestors t j ∧ x ∈ points t j) ↔
         ∃ k l, call_points c !! k = Some x ∧ labels !! k = Some l ∧ (0 ≤ l)%Z).
Proof.
  intros Hinit Hfit Hc.
  destruct (fit_fresh_visited half dbscan _ _ _ _ _ _ _ _ _ Hinit Hfit) as
    (d' & σ1 & _ & Hg & Hv & _ & -> & -> & [children0 Ht1]).
  pose proof (init_fields half _ _ _ _ _ Hinit) as Hs0.
  destruct Hv as (cs & Hcalls & _ & _ & Hcov & Hdone).
  pose proof Hg as (_ & _ & _ & _ & _ & Hinv & _ & _).
  pose proof (inv_wf _ Hinv) as Hwf.
  set (t1 := tree σ1) in *.
  pose proof (resolve_same_shape (deepest_first t1) t1) as Hs.
  pose proof (deepest_first_all _ Hwf) as Hall.
  assert (c ∈ cs) as Hccs.
  { simpl in Hc. rewrite Hcalls in Hc. simpl in Hc. by rewrite app_nil_r in Hc. }
  rewrite Forall_forall in Hdone.
  destruct (call_done_children dbscan _ _ _ (Hdone c Hccs)) as
    (d & labels & Hd & Hl & Hpts & Hch).
  rewrite Hs0 in Hd, Hl, Hpts. simpl in Hd, Hl, Hpts.
  assert (NoDup (call_points c)) as Hnd.
  { rewrite Hpts. destruct (decide _); [apply NoDup_seq|apply (inv_NoDup _ Hinv)]. }
  intros t a. change t with (resolve (deepest_first t1) t1).
  fold a in Hpts, Hch.
  exists d, labels. split_and!; [done..| | |].
  - intros Ha. by rewrite Hpts, decide_True.
  - intros x. rewrite (resolve_children _ _ Hinv Hall). split.
    + intros [Hx Hno]. assert (a ≠ 0) as Ha.
      { intros Ha. rewrite Ha, Ht1 in Hx. by apply elem_of_nil in Hx. }
      split; [done|]. rewrite decide_False in Hpts by done.
      rewrite <-Hpts in Hx. apply list_elem_of_lookup_1 in Hx as [k Hk].
      exists k. split; [done|]. intros l Hlk.
      destruct (Z.lt_ge_cases l 0) as [|Hge]; [done|]. exfalso.
      destruct (proj2 (Hch x)) as (j & Hj & Hxj); [by eauto|].
      by apply (Hno j Hj).
    + intros (Ha & k & Hk & Hneg). rewrite decide_False in Hpts by done.
      split; [rewrite <-Hpts; by eapply list_elem_of_lookup_2|].
      intros j Hj Hxj. destruct (proj1 (Hch x)) as (k' & l & Hk' & Hl' & Hl0); [by eauto|].
      assert (k' = k) as -> by (by eapply NoDup_lookup).
      specialize (Hneg l Hl'). lia.
  - intros x. rewrite <-Hch. split.
    + intros (j & Hj & Hx).
      rewrite <-(same_shape_ancestors t1 _ j Hs) in Hj.
      destruct (descendant_in_child t1 a j Hinv Hj) as (j' & Hj' & Hsub).
      exists j'. split; [done|]. apply Hsub.
      by apply (resolve_inv (deepest_first t1) t1 Hwf).
    + intros (j & Hj & Hx).
      destruct (resolve_conserves (deepest_first t1) t1 j x Hwf Hx) as (b & Hb & Hxb).
      exists b. split; [|done].
      rewrite <-(same_shape_ancestors t1 _ b Hs).
      pose proof (parent_ancestor _ _ _ Hwf Hj) as Haj.
      destruct Hb as [->|Hb]; [done|]. by eapply ancestors_trans.
Qed.

(** X16: in the tree that [fit] leaves on a new instance, a node on which
    the primitive was not called has no child; a node on which it was called
    has one child for each integer up to the largest label of that call, and
    its [m]-th child is named [str(m)] and holds only points to which that
    call gave the label [m]. *)
Theorem fit_children_by_label dm eps mp upd s0 fuel max_depth r σ' :
  __init__ half dm eps mp upd = inr s0 →
  fit dbscan fuel max_depth (start s0) = Return r σ' →
  let t := tree σ' in
  (∀ p, p ∉ call_parent <$> calls σ' → children_of t p = [])
  ∧ ∀ c, c ∈ calls σ' →
      ∃ d labels top,
        submatrix dm (call_points c) = inr d
        ∧ dbscan d (call_eps c) (int_value mp) = inr labels
        ∧ py_max labels = inr top
        ∧ length (children_of t (call_parent c)) = Z.to_nat (top + 1)
        ∧ ∀ m j, children_of t (call_parent c) !! m = Some j →
            name (t !!! j) = str (Z.of_nat m)
            ∧ ∀ x, x ∈ points t j →
                ∃ k, call_points c !! k = Some x
                     ∧ labels !! k = Some (Z.of_nat m).
Proof.
  intros Hinit Hfit.
  destruct (fit_fresh_visited half dbscan _ _ _ _ _ _ _ _ _ Hinit Hfit) as
    (d' & σ1 & _ & Hg & Hv & _ & -> & -> & _).
  pose proof (init_fields half _ _ _ _ _ Hinit) as Hs0.
  destruct Hv as (cs & Hcalls & _ & _ & Hcov & Hdone).
  pose proof Hg as (_ & _ & _ & _ & _ & Hinv & Hdepth & _).
  pose proof (inv_wf _ Hinv) as Hwf.
  set (t1 := tree σ1) in *.
  destruct (resolve_inv (deepest_first t1) t1 Hwf) as (Hs & Hsub & _).
  assert (calls (finish σ1) = cs) as Hcs.
  { simpl. rewrite Hcalls. simpl. by rewrite app_nil_r. }
  intros t. change t with (resolve (deepest_first t1) t1). rewrite Hcs. split.
  - intros p Hp. rewrite <-(same_shape_children_of t1 _ p Hs).
    destruct (children_of t1 p) as [|j l] eqn:E; [done|]. destruct Hp.
    assert (parent_of t1 j = Some p) as Hj.
    { apply elem_of_children_of. rewrite E. by left. }
    apply Hcov. pose proof (parent_of_lt_length _ _ _ Hj) as Hlt.
    pose proof (wf_parent_lt _ Hwf _ _ Hj). split; [lia|]. left.
    specialize (Hdepth j Hlt). rewrite (depth_parent _ _ _ Hwf Hj) in Hdepth. lia.
  - intros c Hc. rewrite Forall_forall in Hdone.
    destruct (Hdone c Hc) as (d & labels & top & children & Hd & Hl & Ht & Hgr & Hch & _).
    rewrite Hs0 in Hd, Hl. simpl in Hd, Hl.
    exists d, labels, top. split_and!; [done..| |].
    + rewrite <-(same_shape_children_of t1 _ _ Hs).
      rewrite <-(length_fmap (λ j, t1 !!! j)), Hch.
      by rewrite <-(Forall2_length _ _ _ Hgr), length_range.
    + rewrite <-(same_shape_children_of t1 _ _ Hs). intros m j Hm.
      assert (children !! m = Some (t1 !!! j)) as Hn.
      { by rewrite <-Hch, list_lookup_fmap, Hm. }
      destruct (grown_lookup _ _ _ _ _ _ _ Hgr Hn) as (i & l & Hi & Hcp & Hnode).
      apply range_lookup in Hi as ->.
      pose proof (children_of_lt _ _ _ (list_elem_of_lookup_2 _ _ _ Hm)) as Hj.
      split.
      * pose proof (shape_name _ _ Hs j) as Hname.
        rewrite !list_lookup_lookup_total_lt in Hname
          by (rewrite <-?(shape_length _ _ Hs); done).
        simpl in Hname. injection Hname as <-. by rewrite Hnode.
      * intros x Hx%Hsub. unfold points in Hx. rewrite Hnode in Hx. simpl in Hx.
        apply (child_points_elem _ _ _ _ x Hcp) in Hx as (k & ? & ?). eauto.
Qed.

(** X17: in the tree that [fit] leaves on a new instance, two children of
    one node have different names. *)
Theorem fit_sibling_names_differ dm eps mp upd s0 fuel max_depth r σ' j1 j2 p :
  __init__ half dm eps mp upd = inr s0 →
  fit dbscan fuel max_depth (start s0) = Return r σ' →
  parent_of (tree σ') j1 = Some p → parent_of (tree σ') j2 = Some p → j1 ≠ j2 →
  name (tree σ' !!! j1) ≠ name (tree σ' !!! j2).
Proof.
  intros Hinit Hfit.
  destruct (fit_fresh_visited half dbscan _ _ _ _ _ _ _ _ _ Hinit Hfit) as
    (d' & σ1 & _ & Hg & Hv & _ & -> & -> & _).
  destruct Hv as (cs & _ & _ & _ & Hcov & Hdone).
  pose proof Hg as (_ & _ & _ & _ & _ & Hinv & Hdepth & _).
  pose proof (inv_wf _ Hinv) as Hwf.
  set (t1 := tree σ1) in *.
  pose proof (resolve_same_shape (deepest_first t1) t1) as Hs.
  change (tree (finish σ1)) with (resolve (deepest_first t1) t1).
  rewrite <-!(shape_parent _ _ Hs). intros Hp1 Hp2 Hne.
  assert (∀ j, j < length t1 →
    name (resolve (deepest_first t1) t1 !!! j) = name (t1 !!! j)) as Hname.
  { intros j Hj. pose proof (shape_name _ _ Hs j) as Hn.
    rewrite !list_lookup_lookup_total_lt in Hn
      by (rewrite <-?(shape_length _ _ Hs); done).
    simpl in Hn. by injection Hn as <-. }
  pose proof (parent_of_lt_length _ _ _ Hp1) as Hj1.
  pose proof (parent_of_lt_length _ _ _ Hp2) as Hj2.
  rewrite !Hname by done.
  assert (p ∈ call_parent <$> cs) as (c & -> & Hc)%list_elem_of_fmap.
  { apply Hcov. pose proof (wf_parent_lt _ Hwf _ _ Hp1). split; [lia|]. left.
    specialize (Hdepth j1 Hj1). rewrite (depth_parent _ _ _ Hwf Hp1) in Hdepth. lia. }
  rewrite Forall_forall in Hdone. specialize (Hdone c Hc).
  apply elem_of_children_of, list_elem_of_lookup_1 in Hp1 as [m1 Hm1].
  apply elem_of_children_of, list_elem_of_lookup_1 in Hp2 as [m2 Hm2].
  rewrite (call_done_name dbscan _ _ _ _ _ Hdone Hm1), (call_done_name dbscan _ _ _ _ _ Hdone Hm2).
  intros Heq%str_inj; [|lia..]. apply Hne.
  assert (m1 = m2) as -> by lia. congruence.
Qed.

(** X18: in a run of [fit] on a new instance that returns, the call on a
    node is on points of the call on its parent, and the calls on different
    nodes of one depth are on disjoint sets of points. *)
Theorem fit_calls_nested dm eps mp upd s0 fuel max_depth r σ' c1 c2 :
  __init__ half dm eps mp upd = inr s0 →
  fit dbscan fuel max_depth (start s0) = Return r σ' →
  c1 ∈ calls σ' → c2 ∈ calls σ' →
  let t := tree σ' in
  (parent_of t (call_parent c2) = Some (call_parent c1) →
     call_points c2 ⊆ call_points c1)
  ∧ (call_parent c1 ≠ call_parent c2 →
     depth t (call_parent c1) = depth t (call_parent c2) →
     call_points c1 ## call_points c2).
Proof.
  intros Hinit Hfit Hc1 Hc2.
  destruct (fit_fresh_visited half dbscan _ _ _ _ _ _ _ _ _ Hinit Hfit) as
    (d' & σ1 & _ & Hg & Hv & _ & -> & -> & _).
  destruct Hv as (cs & Hcalls & _ & _ & Hcov & Hdone).
  pose proof Hg as (_ & _ & _ & _ & _ & Hinv & _ & _).
  pose proof (inv_wf _ Hinv) as Hwf.
  set (t1 := tree σ1) in *.
  pose proof (resolve_same_shape (deepest_first t1) t1) as Hs.
  assert (calls (finish σ1) = cs) as Hcs.
  { simpl. rewrite Hcalls. simpl. by rewrite app_nil_r. }
  rewrite Hcs in Hc1, Hc2. rewrite Forall_forall in Hdone.
  intros t. change t with (resolve (deepest_first t1) t1).
  rewrite <-!(same_shape_depth t1 _ _ Hs), <-(shape_parent _ _ Hs).
  destruct (call_done_children dbscan _ _ _ (Hdone c1 Hc1)) as
    (e1 & labels1 & _ & _ & Hp1 & Hch1).
  destruct (call_done_children dbscan _ _ _ (Hdone c2 Hc2)) as
    (e2 & labels2 & _ & _ & Hp2 & _).
  assert (∀ c, c ∈ cs → call_parent c < length t1) as Hlt.
  { intros c Hc. apply Hcov, list_elem_of_fmap. eauto. }
  split.
  - intros Hpar x Hx.
    assert (call_parent c2 ≠ 0) as Hne.
    { pose proof (wf_parent_lt _ Hwf _ _ Hpar). lia. }
    rewrite decide_False in Hp2 by done. rewrite Hp2 in Hx.
    destruct (proj1 (Hch1 x)) as (k & _ & Hk & _); [by eauto|].
    by eapply list_elem_of_lookup_2.
  - intros Hne Hdep.
    assert (∀ c c', c ∈ cs → c' ∈ cs → call_parent c = 0 →
      depth t1 (call_parent c) = depth t1 (call_parent c') →
      call_parent c' = 0) as Hroot.
    { intros c c' Hc Hc' H0 Hd. apply (depth_0_inv t1); [done|by apply Hlt|].
      by rewrite <-Hd, H0, depth_0. }
    assert (call_parent c1 ≠ 0) as Hn1.
    { intros H0. apply Hne. rewrite H0. symmetry. by apply (Hroot c1 c2). }
    assert (call_parent c2 ≠ 0) as Hn2.
    { intros H0. apply Hne. rewrite H0. by apply (Hroot c2 c1). }
    rewrite decide_False in Hp1 by done. rewrite decide_False in Hp2 by done.
    rewrite Hp1, Hp2.
    apply unrelated_disjoint; [done..| |].
    + intros Ha%depth_ancestor_lt; [lia|done].
    + intros Ha%depth_ancestor_lt; [lia|done].
Qed.

(** X19: without [max_depth], [fit] on a new instance ends (it returns or
    raises) when the primitive finds no cluster at the radius of some level
    [k], which is the original radius updated [k] times: fuel for more than
    [k] rounds suffices, and in the tree of a run that returns no node is
    deeper than [k]. *)
Theorem fit_ends_without_clusters dm eps mp upd s0 fuel k :
  __init__ half dm eps mp upd = inr s0 →
  (∀ d labels,
     dbscan d (Nat.iter k (default half upd) eps) (int_value mp) = inr labels →
     Forall (λ l, (l < 0)%Z) labels) →
  k < fuel →
  fit dbscan fuel Inf (start s0) ≠ OutOfFuel
  ∧ ∀ r σ', fit dbscan fuel Inf (start s0) = Return r σ' →
      ∀ j, j < length (tree σ') → depth (tree σ') j ≤ k.
Proof.
  intros Hinit Hquiet Hfuel.
  pose proof (init_fields half _ _ _ _ _ Hinit) as Hs0.
  assert (fresh (start s0)) as Hf by (by rewrite Hs0).
  assert (quiet_at dbscan (self (start s0))
    (Nat.iter k (update_epsilon_func (self (start s0))) (epsilon (self (start s0)))))
    as Hq.
  { rewrite Hs0. exact Hquiet. }
  split.
  - rewrite fit_eq.
    assert (terminates (grow dbscan fuel Inf) (start s0)) as Hterm.
    { unfold grow. apply terminates_bind; [done|]. intros s σ [= <- <-].
      apply terminates_bind; [apply run_dbscan_on_node_terminates|].
      intros [] σa Hrun. pose proof (first_call_visited dbscan (start s0) Hf) as Hw.
      unfold wp in Hw. change (self (start s0)) with s0 in Hw.
      rewrite Hrun in Hw. destruct Hw as [Hg Hv].
      apply (fit_loop_ends dbscan (start s0) fuel 1 _ σa k); try done; lia. }
    unfold terminates in Hterm. by destruct (grow _ _ _ _).
  - intros r σ' Hfit.
    destruct (fit_fresh_visited half dbscan _ _ _ _ _ _ _ _ _ Hinit Hfit) as
      (d' & σ1 & _ & Hg & Hv & _ & -> & -> & _).
    pose proof (resolve_same_shape (deepest_first (tree σ1)) (tree σ1)) as Hs.
    intros j Hj. simpl in Hj |- *.
    rewrite <-(same_shape_depth _ _ j Hs).
    rewrite <-(shape_length _ _ Hs) in Hj.
    by apply (quiet_no_deeper dbscan (start s0) d' σ1 k).
Qed.


End further_properties.

(** * Runs on concrete inputs *)

Lemma two_groups_init :
  __init__ halve two_groups (of_Z 8) (PyInt 2) None = inr two_groups_instance.
Proof. reflexivity. Qed.

Lemma two_groups_tree_wf : wf two_groups_tree.
Proof.
  split.
  - intros [|[|[|[|j]]]] p; simpl; intros [= <-]; lia.
  - intros [|[|[|[|j]]]]; simpl; intros ?; try lia; by eexists.
Qed.

Local Abbreviation tree σ := (progressive_clustering (self σ)).

Lemma fit_disjoint_witness :
  ∃ σ', fit near_first 3 (Fin 2) (start two_groups_instance)
        = Return [[0; 1; 2]; [3; 4]] σ'
    ∧ ∀ i j a b, i ≠ j →
        [[0; 1; 2]; [3; 4]] !! i = Some a → [[0; 1; 2]; [3; 4]] !! j = Some b →
        a ## b.
Proof.
  eexists. split; [vm_compute; reflexivity|].
  eapply (fit_disjoint halve near_first two_groups (of_Z 8) (PyInt 2) None
    two_groups_instance 3 (Fin 2)); [reflexivity|vm_compute; reflexivity].
Defined.

Lemma fit_size_floor_witness :
  ∃ σ', fit near_first 3 (Fin 2) (start two_groups_instance)
        = Return [[0; 1; 2]; [3; 4]] σ'
    ∧ Forall (λ cluster, (2 ≤ Z.of_nat (length cluster))%Z) [[0; 1; 2]; [3; 4]].
Proof.
  eexists. split; [vm_compute; reflexivity|].
  eapply (fit_size_floor near_first 3 (Fin 2) (start two_groups_instance)).
  vm_compute. reflexivity.
Defined.

Lemma fit_depth_ordering_witness :
  ∃ σ', fit near_first 3 (Fin 2) (start two_groups_instance)
        = Return [[0; 1; 2]; [3; 4]] σ'
    ∧ selected (self σ') = [2; 3]
    ∧ StronglySorted (λ a b, depth (tree σ') b ≤ depth (tree σ') a) [2; 3].
Proof.
  eexists. split; [vm_compute; reflexivity|]. split; [vm_compute; reflexivity|].
  eapply (fit_depth_ordering near_first 3 (Fin 2) (start two_groups_instance)).
  vm_compute. reflexivity.
Defined.




Lemma run_dbscan_on_node_children_witness :
  ∃ σ', run_dbscan_on_node near_first [0; 1; 2; 3; 4] (of_Z 4) 0
          (start two_groups_instance) = Return () σ'
    ∧ tree σ' = [mkNode "" [] None; mkNode "0" [0; 1; 2] (Some 0);
                 mkNode "1" [3; 4] (Some 0)]
    ∧ dbscan_performed (self σ') = 1.
Proof.
  destruct (proj2 (run_dbscan_on_node_children near_first [0; 1; 2; 3; 4]
    (of_Z 4) 0 (start two_groups_instance))
    (map (map of_Z)
       [[0;1;1;5;5];[1;0;1;5;5];[1;1;0;5;5];[5;5;5;0;1];[5;5;5;1;0]]%Z)
    [0; 0; 0; 1; 1]%Z) as [σ' Hrun];
    [vm_compute; reflexivity|vm_compute; reflexivity|done|simpl; lia|].
  exists σ'. split; [done|].
  destruct (proj1 (run_dbscan_on_node_children near_first [0; 1; 2; 3; 4]
    (of_Z 4) 0 (start two_groups_instance)) σ' Hrun)
    as (d & labels & top & children & _ & _ & _ & Ht & Hn & _).
  revert Ht Hn. vm_compute in Hrun. injection Hrun as <-. vm_compute. auto.
Defined.

(** The labels [0; 2] have two distinct values, and three children are
    created: the one for [1] holds no point. *)
Lemma gap_label_child :
  ∃ σ', run_dbscan_on_node gap_labels [0; 1] (of_Z 8) 0
          (start two_groups_instance) = Return () σ'
    ∧ gap_labels (map (map of_Z) [[0; 1]; [1; 0]]%Z) (of_Z 8) 2 = inr [0; 2]%Z
    ∧ tree σ' = [mkNode "" [] None; mkNode "0" [0] (Some 0);
                 mkNode "1" [] (Some 0); mkNode "2" [1] (Some 0)]
    ∧ length (children_of (tree σ') 0) ≠ length (remove_dups [0; 2]%Z).
Proof.
  eexists. split; [vm_compute; reflexivity|]. split; [reflexivity|].
  split; [reflexivity|]. vm_compute. lia.
Defined.

Lemma remove_order_independent_witness :
  ∃ t1 t2,
    remove_in_order [1; 2; 3]
      (start (set_progressive_clustering two_groups_tree two_groups_instance))
    = Return () (start (set_progressive_clustering t1 two_groups_instance))
    ∧ remove_child_cluster_points_from_parents
        (start (set_progressive_clustering two_groups_tree two_groups_instance))
      = Return () (start (set_progressive_clustering t2 two_groups_instance))
    ∧ tree_equiv t1 t2.
Proof.
  apply (remove_order_independent [1; 2; 3]
    (start (set_progressive_clustering two_groups_tree two_groups_instance))).
  - apply two_groups_tree_wf.
  - reflexivity.
Defined.

(** A second [fit] on the same instance returns the first cluster twice. *)
Lemma second_fit_differs :
  ∃ σ1 σ2,
    fit near_first 1 (Fin 1) (start two_groups_instance)
      = Return [[0; 1; 2; 3; 4]] σ1
    ∧ fit near_first 1 (Fin 1) σ1
      = Return [[0; 1; 2; 3; 4]; [0; 1; 2; 3; 4]] σ2
    ∧ [[0; 1; 2; 3; 4]] ≠ [[0; 1; 2; 3; 4]; [0; 1; 2; 3; 4]]
    ∧ length (tree σ1) = 2 ∧ length (tree σ2) = 3
    ∧ dbscan_performed (self σ1) = 1 ∧ dbscan_performed (self σ2) = 2.
Proof.
  eexists _, _. split; [vm_compute; reflexivity|].
  split; [vm_compute; reflexivity|]. by vm_compute.
Defined.

Lemma fit_keeps_tree_and_counter_witness :
  ∃ σ' children cs,
    fit near_first 3 (Fin 2) (start two_groups_instance)
      = Return [[0; 1; 2]; [3; 4]] σ'
    ∧ calls σ' = cs ++ [] ∧ 0 < length cs
    ∧ dbscan_performed (self σ') = 0 + length cs
    ∧ same_shape ([mkNode "" [] None] ++ children) (tree σ').
Proof.
  assert (∃ σ', fit near_first 3 (Fin 2) (start two_groups_instance)
                = Return [[0; 1; 2]; [3; 4]] σ') as [σ' Hfit].
  { eexists. vm_compute. reflexivity. }
  destruct (proj2 (fit_keeps_tree_and_counter near_first 3 (Fin 2)
    (start two_groups_instance)) _ σ' Hfit) as (children & cs & H).
  exists σ', children, cs. split; [exact Hfit|exact H].
Defined.

Lemma init_min_points_witness :
  (∃ s, __init__ halve two_groups (of_Z 8) (PyInt 2) None = inr s
        ∧ min_points s = 2%Z
        ∧ progressive_clustering s = [mkNode "" [] None]
        ∧ dbscan_performed s = 0
        ∧ clusters s = None)
  ∧ __init__ halve two_groups (of_Z 8) (PyInt 0) None = inl AssertionError
  ∧ __init__ halve two_groups (of_Z 8) (PyFloat (of_Z 2)) None = inl AssertionError.
Proof.
  split; [|split].
  - apply (proj1 (init_min_points halve two_groups (of_Z 8) (PyInt 2) None)).
    constructor. lia.
  - apply (proj2 (init_min_points halve two_groups (of_Z 8) (PyInt 0) None)).
    inversion 1. lia.
  - apply (proj2 (init_min_points halve two_groups (of_Z 8)
      (PyFloat (of_Z 2)) None)).
    inversion 1.
Defined.


(** ** The further properties on these inputs *)

Lemma two_groups_square : square two_groups.
Proof.
  intros row Hrow.
  repeat (apply elem_of_cons in Hrow as [->|Hrow]; [reflexivity|]).
  by apply elem_of_nil in Hrow.
Qed.

Lemma two_groups_tree_inv : tree_inv two_groups_tree.
Proof.
  pose proof (grow_fresh near_first 3 (Fin 2) (start two_groups_instance) eq_refl) as Hw.
  unfold wp in Hw.
  destruct (grow near_first 3 (Fin 2) (start two_groups_instance)) as [[] σ1|e σ1|] eqn:E;
    vm_compute in E; [|done..].
  injection E as <-. by destruct Hw as (d' & _ & _ & _ & _ & _ & _ & Hinv & _).
Qed.

Lemma one_cluster_always : always_clusters one_cluster.
Proof.
  intros d e m Hd. exists ((λ _, 0%Z) <$> d), 0%Z.
  destruct d as [|row d]; [done|].
  split_and!; [done|by rewrite length_fmap| |done|].
  - simpl. f_equal. clear Hd. induction d as [|row' d IH]; [done|]. exact IH.
  - intros i Hi. assert (i = 0%Z) as -> by lia. by left.
Qed.

Lemma near_or_noise_quiet :
  ∀ d labels,
    near_or_noise d (Nat.iter 4 (default halve None) (of_Z 8)) 2 = inr labels →
    Forall (λ l, (l < 0)%Z) labels.
Proof.
  intros d labels. unfold near_or_noise.
  replace (Qle_bool 1 (this (Nat.iter 4 (default halve None) (of_Z 8)))) with false
    by (by vm_compute).
  simpl. intros [= <-]. apply Forall_fmap, Forall_forall. simpl. intros; lia.
Qed.

Lemma submatrix_entries_witness :
  ∃ m, submatrix two_groups [3; 4] = inr m
    ∧ length m = 2
    ∧ ∃ x, two_groups !! 4 ≫= (.!! 3) = Some x ∧ m !! 1 ≫= (.!! 0) = Some x.
Proof.
  destruct (proj2 (proj2 (proj2 (submatrix_entries two_groups [3; 4]))
    two_groups_square)) as [m Hm].
  { intros i Hi. repeat (apply elem_of_cons in Hi as [->|Hi]; [simpl; lia|]).
    by apply elem_of_nil in Hi. }
  exists m. split; [done|].
  destruct (proj1 (submatrix_entries two_groups [3; 4]) m Hm) as (Hlen & _ & Hx).
  split; [done|]. by apply (Hx 1 0 4 3).
Defined.

Lemma run_dbscan_on_node_raises_witness :
  run_dbscan_on_node failing [0; 1] (of_Z 8) 0 (start two_groups_instance)
  = Raise UpstreamFailure
      (mkState two_groups_instance [mkCall [0; 1] (of_Z 8) 0]).
Proof.
  eapply (proj1 (proj2 (proj2 (run_dbscan_on_node_raises failing [0; 1] (of_Z 8) 0
    (start two_groups_instance))))); reflexivity.
Defined.

Lemma remove_only_shrinks_witness :
  ∃ t', remove_child_cluster_points_from_parents
          (start (set_progressive_clustering two_groups_tree two_groups_instance))
        = Return () (start (set_progressive_clustering t' two_groups_instance))
    ∧ same_shape two_groups_tree t'
    ∧ (∀ j, points t' j ⊆ points two_groups_tree j)
    ∧ (∀ j, NoDup (points two_groups_tree j) → NoDup (points t' j))
    ∧ (∀ j, children_of two_groups_tree j = [] → points t' j = points two_groups_tree j).
Proof.
  apply (remove_only_shrinks
    (start (set_progressive_clustering two_groups_tree two_groups_instance))).
  apply two_groups_tree_wf.
Defined.

Lemma remove_moves_points_down_witness :
  ∃ t', remove_child_cluster_points_from_parents
          (start (set_progressive_clustering two_groups_tree two_groups_instance))
        = Return () (start (set_progressive_clustering t' two_groups_instance))
    ∧ (∀ a x, x ∈ points two_groups_tree a →
         ∃ b, (b = a ∨ a ∈ ancestors two_groups_tree b) ∧ x ∈ points t' b
              ∧ ∀ b', x ∈ points t' b' → b' = b)
    ∧ (∀ a x, x ∈ points t' a ↔
         x ∈ points two_groups_tree a
         ∧ ∀ c, parent_of two_groups_tree c = Some a → x ∉ points two_groups_tree c).
Proof.
  apply (remove_moves_points_down
    (start (set_progressive_clustering two_groups_tree two_groups_instance))).
  apply two_groups_tree_inv.
Defined.

Lemma remove_twice_witness :
  ∃ σ1 σ2,
    remove_child_cluster_points_from_parents
      (start (set_progressive_clustering two_groups_tree two_groups_instance))
    = Return () σ1
    ∧ remove_child_cluster_points_from_parents σ1 = Return () σ2
    ∧ tree_equiv (tree σ1) (tree σ2).
Proof.
  apply (remove_twice
    (start (set_progressive_clustering two_groups_tree two_groups_instance))).
  apply two_groups_tree_wf.
Defined.

Lemma fit_stores_result_witness :
  ∃ σ', fit near_first 3 (Fin 2) (start two_groups_instance)
        = Return [[0; 1; 2]; [3; 4]] σ'
    ∧ clusters (self σ') = Some [[0; 1; 2]; [3; 4]]
    ∧ epsilon (self σ') = of_Z 8.
Proof.
  assert (∃ σ', fit near_first 3 (Fin 2) (start two_groups_instance)
                = Return [[0; 1; 2]; [3; 4]] σ') as [σ' Hfit].
  { eexists. vm_compute. reflexivity. }
  exists σ'. split; [exact Hfit|].
  destruct (fit_stores_result near_first 3 (Fin 2) _ _ σ' Hfit) as (Hc & _ & He & _).
  split; [exact Hc|exact He].
Defined.


Lemma fit_indices_valid_witness :
  ∃ σ', fit near_first 3 (Fin 2) (start two_groups_instance)
        = Return [[0; 1; 2]; [3; 4]] σ'
    ∧ Forall (λ cluster, NoDup cluster ∧ ∀ x, x ∈ cluster → x < 5)
        [[0; 1; 2]; [3; 4]].
Proof.
  assert (∃ σ', fit near_first 3 (Fin 2) (start two_groups_instance)
                = Return [[0; 1; 2]; [3; 4]] σ') as [σ' Hfit].
  { eexists. vm_compute. reflexivity. }
  exists σ'. split; [exact Hfit|].
  apply (fit_indices_valid halve near_first two_groups (of_Z 8) (PyInt 2) None
    two_groups_instance 3 (Fin 2) _ σ' eq_refl Hfit).
Defined.

Lemma fit_few_points_witness :
  ∃ s0 r σ',
    __init__ halve two_groups (of_Z 8) (PyInt 6) None = inr s0
    ∧ fit near_first 3 (Fin 2) (start s0) = Return r σ'
    ∧ r = [].
Proof.
  eexists _, _, _. split; [reflexivity|]. split; [vm_compute; reflexivity|].
  eapply (fit_few_points halve near_first two_groups (of_Z 8) (PyInt 6) None
    _ 3 (Fin 2)); [reflexivity|simpl; lia|vm_compute; reflexivity].
Defined.

Lemma fit_no_cluster_witness :
  ∃ σ', fit all_noise 1 Inf (start two_groups_instance) = Return [] σ'
    ∧ tree σ' = [mkNode "" [] None]
    ∧ dbscan_performed (self σ') = 1
    ∧ clusters (self σ') = Some [].
Proof.
  eapply (fit_no_cluster halve all_noise two_groups (of_Z 8) (PyInt 2) None
    two_groups_instance 1 Inf); [reflexivity|lia|reflexivity|reflexivity|done|].
  repeat constructor.
Defined.

Lemma fit_empty_matrix_witness :
  ∃ s0 e σ',
    __init__ halve [] (of_Z 8) (PyInt 2) None = inr s0
    ∧ fit near_first 3 Inf (start s0) = Raise e σ'
    ∧ (e = ValueError ∨ near_first [] (of_Z 8) 2 = inl e).
Proof.
  eexists. 
  destruct (fit_empty_matrix halve near_first (of_Z 8) (PyInt 2) None _ 3 Inf eq_refl)
    as (e & σ' & Hfit & He & _).
  { by intros labels [= <-]. }
  exists e, σ'. split; [reflexivity|]. split; [exact Hfit|exact He].
Defined.

Lemma fit_single_level_witness :
  ∃ σ' d labels top cl,
    fit near_first 1 (Fin 1) (start two_groups_instance)
      = Return [[0; 1; 2; 3; 4]] σ'
    ∧ submatrix two_groups (seq 0 5) = inr d
    ∧ near_first d (of_Z 8) 2 = inr labels
    ∧ py_max labels = inr top
    ∧ Forall2 (λ i l, ∀ x, x ∈ l ↔ labels !! x = Some i) (range (top + 1)) cl
    ∧ [[0; 1; 2; 3; 4]] = filter (λ l, (2 ≤ Z.of_nat (length l))%Z) cl.
Proof.
  assert (∃ σ', fit near_first 1 (Fin 1) (start two_groups_instance)
                = Return [[0; 1; 2; 3; 4]] σ') as [σ' Hfit].
  { eexists. vm_compute. reflexivity. }
  destruct (fit_single_level halve near_first two_groups (of_Z 8) (PyInt 2) None
    two_groups_instance 1 1 _ σ' eq_refl ltac:(lia) Hfit)
    as (d & labels & top & cl & H).
  exists σ', d, labels, top, cl. split; [exact Hfit|exact H].
Defined.

Lemma fit_equal_depth_order_witness :
  ∃ σ', fit near_first 3 (Fin 2) (start two_groups_instance)
        = Return [[0; 1; 2]; [3; 4]] σ'
    ∧ filter (λ node, depth (tree σ') node = 2) (selected (self σ'))
      = filter (λ node, depth (tree σ') node = 2)
          (filter (λ node, (min_points (self σ')
                             ≤ Z.of_nat (length (points (tree σ') node)))%Z)
             (descendants (tree σ') 0)).
Proof.
  assert (∃ σ', fit near_first 3 (Fin 2) (start two_groups_instance)
                = Return [[0; 1; 2]; [3; 4]] σ') as [σ' Hfit].
  { eexists. vm_compute. reflexivity. }
  exists σ'. split; [exact Hfit|].
  apply (fit_equal_depth_order near_first 3 (Fin 2) _ _ σ' Hfit 2).
Defined.

Lemma fit_invokes_once_per_node_witness :
  ∃ σ', fit near_or_noise 6 Inf (start two_groups_instance)
        = Return [[0; 1; 2]; [3; 4]] σ'
    ∧ dbscan_performed (self σ') = length (calls σ')
    ∧ NoDup (call_parent <$> calls σ')
    ∧ (∀ j, j ∈ call_parent <$> calls σ' ↔
         j < length (tree σ') ∧ depth (tree σ') j < length (tree σ'))
    ∧ dbscan_performed (self σ') = length (tree σ').
Proof.
  assert (∃ σ', fit near_or_noise 6 Inf (start two_groups_instance)
                = Return [[0; 1; 2]; [3; 4]] σ') as [σ' Hfit].
  { eexists. vm_compute. reflexivity. }
  exists σ'. split; [exact Hfit|].
  pose proof (fit_invokes_once_per_node halve near_or_noise two_groups (of_Z 8)
    (PyInt 2) None two_groups_instance 6 Inf _ σ' eq_refl Hfit) as H.
  cbv zeta in H. destruct H as (H1 & H2 & H3 & H4).
  split; [exact H1|]. split; [exact H2|]. split; [exact H3|]. exact (H4 eq_refl).
Defined.

Lemma fit_node_keeps_noise_witness :
  ∃ σ', fit near_or_noise 6 Inf (start two_groups_instance)
        = Return [[0; 1; 2]; [3; 4]] σ'
    ∧ ∀ c, c ∈ calls σ' →
        ∃ d labels,
          submatrix two_groups (call_points c) = inr d
          ∧ near_or_noise d (call_eps c) 2 = inr labels
          ∧ ∀ x, x ∈ points (tree σ') (call_parent c) ↔
              call_parent c ≠ 0
              ∧ ∃ k, call_points c !! k = Some x
                  ∧ ∀ l, labels !! k = Some l → (l < 0)%Z.
Proof.
  assert (∃ σ', fit near_or_noise 6 Inf (start two_groups_instance)
                = Return [[0; 1; 2]; [3; 4]] σ') as [σ' Hfit].
  { eexists. vm_compute. reflexivity. }
  exists σ'. split; [exact Hfit|]. intros c Hc.
  pose proof (fit_node_keeps_noise halve near_or_noise two_groups (of_Z 8)
    (PyInt 2) None two_groups_instance 6 Inf _ σ' c eq_refl Hfit Hc) as H.
  cbv zeta in H. destruct H as (d & labels & H1 & H2 & _ & H4 & _).
  exists d, labels. split; [exact H1|]. split; [exact H2|exact H4].
Defined.

Lemma fit_children_by_label_witness :
  ∃ σ', fit near_first 3 (Fin 2) (start two_groups_instance)
        = Return [[0; 1; 2]; [3; 4]] σ'
    ∧ (∀ p, p ∉ call_parent <$> calls σ' → children_of (tree σ') p = [])
    ∧ ∀ c m j, c ∈ calls σ' →
        children_of (tree σ') (call_parent c) !! m = Some j →
        name (tree σ' !!! j) = str (Z.of_nat m).
Proof.
  assert (∃ σ', fit near_first 3 (Fin 2) (start two_groups_instance)
                = Return [[0; 1; 2]; [3; 4]] σ') as [σ' Hfit].
  { eexists. vm_compute. reflexivity. }
  exists σ'. split; [exact Hfit|].
  pose proof (fit_children_by_label halve near_first two_groups (of_Z 8)
    (PyInt 2) None two_groups_instance 3 (Fin 2) _ σ' eq_refl Hfit) as H.
  cbv zeta in H. destruct H as [H1 H2]. split; [exact H1|].
  intros c m j Hc Hm.
  destruct (H2 c Hc) as (d & labels & top & _ & _ & _ & _ & Hch).
  exact (proj1 (Hch m j Hm)).
Defined.

Lemma fit_sibling_names_differ_witness :
  ∃ σ', fit near_first 3 (Fin 2) (start two_groups_instance)
        = Return [[0; 1; 2]; [3; 4]] σ'
    ∧ parent_of (tree σ') 2 = Some 1 ∧ parent_of (tree σ') 3 = Some 1
    ∧ name (tree σ' !!! 2) ≠ name (tree σ' !!! 3).
Proof.
  eexists. split; [vm_compute; reflexivity|].
  split; [reflexivity|]. split; [reflexivity|].
  eapply (fit_sibling_names_differ halve near_first two_groups (of_Z 8) (PyInt 2)
    None two_groups_instance 3 (Fin 2) _ _ 2 3 1);
    [reflexivity|vm_compute; reflexivity|reflexivity|reflexivity|lia].
Defined.

Lemma fit_calls_nested_witness :
  ∃ σ', fit near_first 3 (Fin 3) (start two_groups_instance)
        = Return [[0; 1; 2]; [3; 4]] σ'
    ∧ ∀ c1 c2, c1 ∈ calls σ' → c2 ∈ calls σ' →
        (parent_of (tree σ') (call_parent c2) = Some (call_parent c1) →
           call_points c2 ⊆ call_points c1)
        ∧ (call_parent c1 ≠ call_parent c2 →
           depth (tree σ') (call_parent c1) = depth (tree σ') (call_parent c2) →
           call_points c1 ## call_points c2).
Proof.
  assert (∃ σ', fit near_first 3 (Fin 3) (start two_groups_instance)
                = Return [[0; 1; 2]; [3; 4]] σ') as [σ' Hfit].
  { eexists. vm_compute. reflexivity. }
  exists σ'. split; [exact Hfit|]. intros c1 c2 Hc1 Hc2.
  exact (fit_calls_nested halve near_first two_groups (of_Z 8) (PyInt 2) None
    two_groups_instance 3 (Fin 3) _ σ' c1 c2 eq_refl Hfit Hc1 Hc2).
Defined.

Lemma fit_ends_without_clusters_witness :
  fit near_or_noise 6 Inf (start two_groups_instance) ≠ OutOfFuel
  ∧ ∀ r σ', fit near_or_noise 6 Inf (start two_groups_instance) = Return r σ' →
      ∀ j, j < length (tree σ') → depth (tree σ') j ≤ 4.
Proof.
  apply (fit_ends_without_clusters halve near_or_noise two_groups (of_Z 8)
    (PyInt 2) None two_groups_instance 6 4 eq_refl near_or_noise_quiet). lia.
Defined.

